(** * OpenFGA evaluation core: Check reducers, ListUsers expansion, index materializer

    A shallow embedding of
    - [internal/graph/check.go]       (the concurrent Check evaluator),
    - [internal/dispatcher]           (dispatch requests),
    - [pkg/server/commands/listusers] (the ListUsers expander),
    - the [materializer] package      (rewrite rules to SQL),
    followed by the properties established about them.

    Go values are modelled as follows.  A pointer that the code itself sets to
    [nil] is an [option]; a [(value, error)] result is a pair of options or a
    sum; a [panic] and a call that never returns are explicit results
    ([Panic], [Blocked]).  The Go scheduler is an explicit argument
    ([schedule]): it fixes which in-flight worker publishes next and at which
    loop iteration a [select] takes the [ctx.Done()] branch. *)

From Stdlib Require Import String Ascii DecimalString.
From Stdlib Require Import Bool Arith NArith ZArith Lia List Permutation.
Import ListNotations.
Local Open Scope string_scope.
Local Open Scope list_scope.

Set Implicit Arguments.
Set Warnings "-register-all".

(* ================================================================== *)
(** * Errors *)

Inductive error : Type :=
| ErrResolutionDepthExceeded                       (* "resolution depth exceeded" *)
| ErrRelationUndefined (relation objectType : string)
| ErrNotFound                                      (* storage.ErrNotFound *)
| ErrIteratorDone                                  (* storage.ErrIteratorDone *)
| ErrCanceled                                      (* context.Canceled *)
| ErrDeadlineExceeded                              (* context.DeadlineExceeded *)
| ErrTypesystemNotProvided                         (* "typesystem not provided in context" *)
| ErrStorage (msg : string).                       (* any other datastore failure *)

Definition error_eqb (a b : error) : bool :=
  match a, b with
  | ErrResolutionDepthExceeded, ErrResolutionDepthExceeded => true
  | ErrRelationUndefined r t, ErrRelationUndefined r' t' => String.eqb r r' && String.eqb t t'
  | ErrNotFound, ErrNotFound => true
  | ErrIteratorDone, ErrIteratorDone => true
  | ErrCanceled, ErrCanceled => true
  | ErrDeadlineExceeded, ErrDeadlineExceeded => true
  | ErrTypesystemNotProvided, ErrTypesystemNotProvided => true
  | ErrStorage m, ErrStorage m' => String.eqb m m'
  | _, _ => false
  end.

(** How a Go call can fail to return: it panics (with a message or with an
    error value), it never returns, or the recursion budget of the embedding
    ran out. *)
Inductive abnormal : Type :=
| Panic (msg : string)
| PanicErr (e : error)
| Blocked
| OutOfFuel.

(** The outcome of a Go call. *)
Inductive call (A : Type) : Type :=
| Ret (a : A)
| Abort (x : abnormal).

Arguments Abort {A} x.

(* ================================================================== *)
(** * pkg/tuple *)

Module tuple.

Record TupleKey := { Object : string; Relation : string; User : string }.

Record Tuple := { Key : TupleKey }.

Definition NewTupleKey (object relation user : string) : TupleKey :=
  {| Object := object; Relation := relation; User := user |}.

(** [cut c s] splits [s] around the first occurrence of [c]. *)
Fixpoint cut (c : ascii) (s : string) : option (string * string) :=
  match s with
  | EmptyString => None
  | String a s' =>
      if Ascii.eqb a c then Some (EmptyString, s')
      else match cut c s' with
           | Some (l, r) => Some (String a l, r)
           | None => None
           end
  end.

(** Modelled from the spec: the [tuple] package is not part of the sources;
    an object is serialized as [type:id], so [SplitObject] cuts at the
    colon and yields an empty type when there is none. *)
Definition SplitObject (object : string) : string * string :=
  match cut ":"%char object with
  | Some (t, id) => (t, id)
  | None => ("", object)
  end.

(** Modelled from the spec: a userset is serialized as [type:id#relation],
    a bare object as [type:id]; [SplitObjectRelation] cuts at the hash and
    yields an empty relation when there is none. *)
Definition SplitObjectRelation (objectRelation : string) : string * string :=
  match cut "#"%char objectRelation with
  | Some (o, r) => (o, r)
  | None => (objectRelation, "")
  end.

Record ObjectRef := { Type_ : string; Id : string }.

(** Modelled from the spec: [ObjectKey] is the serialized form [type:id]. *)
Definition ObjectKey (o : ObjectRef) : string := Type_ o ++ ":" ++ Id o.

Definition TupleKey_eqb (a b : TupleKey) : bool :=
  String.eqb (Object a) (Object b) && String.eqb (Relation a) (Relation b)
  && String.eqb (User a) (User b).

Definition ObjectRef_eqb (a b : ObjectRef) : bool :=
  String.eqb (Type_ a) (Type_ b) && String.eqb (Id a) (Id b).

End tuple.

(* ================================================================== *)
(** * The model: rewrites and the type system *)

Module typesystem.

(** openfgav1.Userset: the rewrite of a relation, a tagged sum. *)
Inductive Userset : Type :=
| This
| ComputedUserset (relation : string)
| TupleToUserset (tupleset computedUserset : string)
| Union (child : list Userset)
| Intersection (child : list Userset)
| Difference (base subtract : Userset).

Inductive RelationOrWildcard : Type :=
| RefRelation (relation : string)
| RefWildcard.

Record RelationReference := {
  ref_Type : string;
  ref_RelationOrWildcard : option RelationOrWildcard
}.

Definition ref_Relation (r : RelationReference) : string :=
  match ref_RelationOrWildcard r with
  | Some (RefRelation rel) => rel
  | _ => ""
  end.

Record Relation := {
  Rewrite : Userset;
  DirectlyRelatedUserTypes : list RelationReference
}.

(** Modelled from the spec: the [typesystem] package is not part of the
    sources; a validated model is a mapping
    [objectType -> (relationName -> Rewrite)] together with the
    directly-related user types of each relation. *)
Definition TypeSystem := list (string * list (string * Relation)).

Fixpoint lookup {A : Type} (k : string) (m : list (string * A)) : option A :=
  match m with
  | [] => None
  | (k', v) :: m' => if String.eqb k k' then Some v else lookup k m'
  end.

(** Modelled from the spec:
    [GetRelation(objectType, relationName) -> Rewrite | ErrRelationUndefined]. *)
Definition GetRelation (ts : TypeSystem) (objectType relation : string)
  : Relation + error :=
  match lookup objectType ts with
  | None => inr (ErrRelationUndefined relation objectType)
  | Some rels =>
      match lookup relation rels with
      | None => inr (ErrRelationUndefined relation objectType)
      | Some r => inl r
      end
  end.

(** Modelled from the spec:
    [GetDirectlyRelatedUserTypes(objectType, relationName) -> [UserTypeRef]]. *)
Definition GetDirectlyRelatedUserTypes (ts : TypeSystem) (objectType relation : string)
  : list RelationReference + error :=
  match GetRelation ts objectType relation with
  | inl r => inl (DirectlyRelatedUserTypes r)
  | inr e => inr e
  end.

End typesystem.

(** context.Context: the values the evaluator reads from it.  [ctx_err] is
    [Some e] when the context is (or becomes) cancelled, [e] being what
    [ctx.Err()] then reports. *)
Record Context := {
  ctx_typesys : option typesystem.TypeSystem;
  ctx_err : option error
}.

(* ================================================================== *)
(** * storage: the TupleReader interface *)

Module storage.
Import tuple.

(** A tuple iterator: the values successive [Next] calls produce; past its
    end [Next] reports [ErrIteratorDone]. *)
Definition TupleIterator := list (Tuple + error).

Definition Next (it : TupleIterator) : (Tuple + error) * TupleIterator :=
  match it with
  | [] => (inr ErrIteratorDone, [])
  | x :: it' => (x, it')
  end.

(** storage.OpenFGADatastore / storage.RelationshipTupleReader, restricted
    to the operations the evaluators call. *)
Record OpenFGADatastore := {
  Read : string -> TupleKey -> TupleIterator + error;
  ReadUserTuple : string -> TupleKey -> option Tuple * option error;
  ReadUsersetTuples : string -> TupleKey -> TupleIterator + error
}.

Inductive read_op := OpRead | OpReadUsersetTuples.

(** storage.NewFilteredTupleKeyIterator over
    storage.NewTupleKeyIteratorFromTupleIterator: [Next] skips the tuple
    keys the filter rejects and passes errors through. *)
Fixpoint FilteredNext (filter : TupleKey -> bool) (it : TupleIterator)
  : (TupleKey + error) * TupleIterator :=
  match it with
  | [] => (inr ErrIteratorDone, [])
  | inr e :: it' => (inr e, it')
  | inl t :: it' => if filter (Key t) then (inl (Key t), it') else FilteredNext filter it'
  end.

(** Modelled from the spec: an in-memory reader over a list of tuple keys.
    [Read] filters on object and relation, [ReadUserTuple] is an exact-key
    lookup, [ReadUsersetTuples] yields only tuples whose user is a userset. *)
Definition is_userset (user : string) : bool :=
  negb (String.eqb (snd (SplitObjectRelation user)) "").

Definition matches (filter t : TupleKey) : bool :=
  String.eqb (Object t) (Object filter) && String.eqb (Relation t) (Relation filter).

Definition memory (tuples : list TupleKey) : OpenFGADatastore :=
  {| Read := fun _ tk =>
       inl (map (fun t => inl {| Key := t |}) (filter (matches tk) tuples));
     ReadUserTuple := fun _ tk =>
       match find (TupleKey_eqb tk) tuples with
       | Some t => (Some {| Key := t |}, None)
       | None => (None, Some ErrNotFound)
       end;
     ReadUsersetTuples := fun _ tk =>
       inl (map (fun t => inl {| Key := t |})
                (filter (fun t => matches tk t && is_userset (User t)) tuples)) |}.

End storage.

(* ================================================================== *)
(** * internal/dispatcher *)

Module dispatcher.

Record ResolutionMetadata := { Depth : N (* uint32 *) }.

Record DispatchCheckRequest := {
  StoreId : string;
  AuthorizationModelId : string;
  TupleKey : tuple.TupleKey;
  ContextualTuples : list tuple.TupleKey;
  ResolutionMetadata_ : ResolutionMetadata
}.

Record DispatchCheckResponse := { Allowed : bool }.

(** uint32 subtraction of one, with its wrap-around. *)
Definition uint32_pred (d : N) : N := ((d + 4294967295) mod 4294967296)%N.

Arguments uint32_pred : simpl never.

End dispatcher.

(** What an evaluation does to its environment, in program order of the
    computations whose outcome the caller received. *)
Inductive event : Type :=
| EvDispatch (req : dispatcher.DispatchCheckRequest)
| EvOpen (op : storage.read_op) (store : string) (tk : tuple.TupleKey)
| EvStop (op : storage.read_op) (store : string) (tk : tuple.TupleKey).

Definition run (A : Type) : Type := call A * list event.

Definition traced {A : Type} (t : list event) (r : run A) : run A :=
  (fst r, t ++ snd r).

(** The Go runtime's choices in one reducer invocation: [picks] selects, each
    time a worker publishes, which of the in-flight workers it is; [skips]
    tells, handler by handler, whether the orchestrator's [select] takes the
    [ctx.Done()] branch and starts no worker for it; [done_at] is the loop
    iteration at which the reducer's [select] takes the [ctx.Done()] branch
    although an outcome is ready.  Both are possible only when the context is
    cancelled. *)
Record schedule := { picks : list nat; skips : list bool; done_at : option nat }.


(* ================================================================== *)
(** * internal/graph/check.go *)

Module graph.
Import tuple typesystem storage dispatcher.

Record CheckResponse := { Allowed : bool }.

(** The generated getter is nil-safe. *)
Definition GetAllowed (r : option CheckResponse) : bool :=
  match r with
  | Some r => Allowed r
  | None => false
  end.

Inductive setOperationType :=
| unionSetOperation
| intersectionSetOperation
| exclusionSetOperation.

Record checkOutcome := { resp : option CheckResponse; err : option error }.

Definition CheckHandlerFunc := Context -> run checkOutcome.

Definition CheckFuncReducer :=
  schedule -> Context -> N -> list CheckHandlerFunc -> run checkOutcome.

Definition nil_dereference : string :=
  "invalid memory address or nil pointer dereference".

Definition decimal (n : nat) : string := NilZero.string_of_uint (Nat.to_uint n).

(** ** resolver *)

Fixpoint remove_nth {A : Type} (p : nat) (l : list A) : list A :=
  match l, p with
  | [], _ => []
  | _ :: l', O => l'
  | x :: l', S p' => x :: remove_nth p' l'
  end.

(** The order in which the workers of [resolver] send on [resultChan].  The
    orchestrator starts handlers in order while the limiter (capacity [K]) has
    a free slot; a worker frees its slot only after it has sent its outcome;
    which in-flight worker sends next is the scheduler's pick. *)
Fixpoint publish_order {A : Type} (n K : nat) (inflight pending : list A)
         (picks : list nat) : list A :=
  match n with
  | O => []
  | S n' =>
      let free := K - length inflight in
      let inflight' := inflight ++ firstn free pending in
      let pending' := skipn free pending in
      let p := hd 0 picks mod length inflight' in
      match nth_error inflight' p with
      | Some fn => fn :: publish_order n' K (remove_nth p inflight') pending' (tl picks)
      | None => []
      end
  end.

(** The handlers for which the orchestrator starts a worker. *)
Fixpoint started {A : Type} (skips : list bool) (handlers : list A) : list A :=
  match handlers, skips with
  | [], _ => []
  | _, [] => handlers
  | _ :: handlers', true :: skips' => started skips' handlers'
  | fn :: handlers', false :: skips' => fn :: started skips' handlers'
  end.

(** [resolver]: the outcomes sent on [resultChan], in the order sent. *)
Definition resolver (s : schedule) (ctx : Context) (concurrencyLimit : N)
           (handlers : list CheckHandlerFunc) : list (run checkOutcome) :=
  map (fun fn => fn ctx)
      (publish_order (length handlers) (N.to_nat concurrencyLimit) []
         (match ctx_err ctx with
          | None => handlers
          | Some _ => started (skips s) handlers
          end)
         (picks s)).

(** What the successive [select] statements of a reducer loop take.  Under a
    cancelled context the [ctx.Done()] branch is taken at [done_at], or as
    soon as no outcome is left to receive. *)
Inductive selected : Type :=
| Received (result : run checkOutcome)
| CtxDone (e : error).

Definition selections (s : schedule) (ctx : Context)
           (resultChan : list (run checkOutcome)) : list selected :=
  match ctx_err ctx with
  | Some e =>
      map Received
          (match done_at s with
           | Some i => firstn i resultChan
           | None => resultChan
           end) ++ [CtxDone e]
  | None => map Received resultChan
  end.

Definition denied : checkOutcome :=
  {| resp := Some {| Allowed := false |}; err := None |}.

Definition allowed : checkOutcome :=
  {| resp := Some {| Allowed := true |}; err := None |}.

Definition failed (e : error) : checkOutcome :=
  {| resp := Some {| Allowed := false |}; err := Some e |}.

(** ** union *)

(** The loop of [union] over what its successive [select] statements take.
    The events it reports are those of the handlers whose outcome it
    received, in the order received: what a worker does whose outcome the
    reducer never receives is not part of the run. *)
Fixpoint union_loop (n : nat) (sel : list selected) : run checkOutcome :=
  match n with
  | O => (Ret denied, [])
  | S n' =>
      match sel with
      | [] => (Abort Blocked, [])
      | CtxDone e :: _ => (Ret {| resp := None; err := Some e |}, [])
      | Received (Abort x, t) :: _ => (Abort x, t)
      | Received (Ret result, t) :: sel' =>
          match err result with
          | Some e => (Ret (failed e), t)
          | None =>
              if GetAllowed (resp result)
              then (Ret {| resp := resp result; err := None |}, t)
              else traced t (union_loop n' sel')
          end
      end
  end.

Definition union : CheckFuncReducer := fun s ctx concurrencyLimit handlers =>
  union_loop (length handlers)
             (selections s ctx (resolver s ctx concurrencyLimit handlers)).

(** ** intersection *)

(** The loop of [intersection]; as for [union], the events are those of the
    handlers whose outcome was received. *)
Fixpoint intersection_loop (n : nat) (sel : list selected) : run checkOutcome :=
  match n with
  | O => (Ret allowed, [])
  | S n' =>
      match sel with
      | [] => (Abort Blocked, [])
      | CtxDone e :: _ => (Ret {| resp := None; err := Some e |}, [])
      | Received (Abort x, t) :: _ => (Abort x, t)
      | Received (Ret result, t) :: sel' =>
          match err result with
          | Some e => (Ret (failed e), t)
          | None =>
              if negb (GetAllowed (resp result))
              then (Ret {| resp := resp result; err := None |}, t)
              else traced t (intersection_loop n' sel')
          end
      end
  end.

Definition intersection : CheckFuncReducer := fun s ctx concurrencyLimit handlers =>
  intersection_loop (length handlers)
                    (selections s ctx (resolver s ctx concurrencyLimit handlers)).

(** ** exclusion *)

Inductive exclusion_selected : Type :=
| BaseResult (result : run checkOutcome)
| SubResult (result : run checkOutcome)
| ExclusionCtxDone (e : error).

Definition exclusion_selections (s : schedule) (ctx : Context)
           (chans : list exclusion_selected) : list exclusion_selected :=
  match ctx_err ctx, done_at s with
  | Some e, Some i => firstn i chans ++ [ExclusionCtxDone e]
  | _, _ => chans
  end.

(** The loop of [exclusion]; the events are those of the handlers whose
    outcome was received. *)
Fixpoint exclusion_loop (n : nat) (sel : list exclusion_selected) : run checkOutcome :=
  match n with
  | O => (Ret allowed, [])
  | S n' =>
      match sel with
      | [] => (Abort Blocked, [])
      | ExclusionCtxDone e :: _ => (Ret {| resp := None; err := Some e |}, [])
      | BaseResult (Abort x, t) :: _ => (Abort x, t)
      | SubResult (Abort x, t) :: _ => (Abort x, t)
      | BaseResult (Ret baseResult, t) :: sel' =>
          match err baseResult with
          | Some e => (Ret (failed e), t)
          | None =>
              match resp baseResult with
              | None => (Abort (Panic nil_dereference), t)
              | Some r =>
                  if negb (Allowed r) then (Ret denied, t)
                  else traced t (exclusion_loop n' sel')
              end
          end
      | SubResult (Ret subResult, t) :: sel' =>
          match err subResult with
          | Some e => (Ret (failed e), t)
          | None =>
              match resp subResult with
              | None => (Abort (Panic nil_dereference), t)
              | Some r =>
                  if Allowed r then (Ret denied, t)
                  else traced t (exclusion_loop n' sel')
              end
          end
      end
  end.

Definition exclusion_panic (n : nat) : string :=
  "expected two rewrite operands for exclusion operator, but got '" ++ decimal n ++ "'".

(** Both workers are started by the reducer itself, each after a blocking
    send on the limiter: with a limit of zero the first send never
    completes; otherwise both outcomes become available and [select] may
    take them in either order. *)
Definition exclusion : CheckFuncReducer := fun s ctx concurrencyLimit handlers =>
  match handlers with
  | [baseHandler; subHandler] =>
      if (concurrencyLimit =? 0)%N then (Abort Blocked, [])
      else
        exclusion_loop (length handlers)
          (exclusion_selections s ctx
             (publish_order 2 2 []
                [BaseResult (baseHandler ctx); SubResult (subHandler ctx)] (picks s)))
  | _ => (Abort (Panic (exclusion_panic (length handlers))), [])
  end.

(** ** ConcurrentChecker *)

Definition dispatchOutcome : Type := option DispatchCheckResponse * option error.

(** dispatcher.CheckDispatcher *)
Definition CheckDispatcher := Context -> DispatchCheckRequest -> run dispatchOutcome.

Record ConcurrentChecker := {
  ds : OpenFGADatastore;
  dispatcher : CheckDispatcher;
  concurrencyLimit : N
}.

(** The schedule of each reducer invocation, by the request being resolved
    and the number of handlers reduced. *)
Definition scheduler := DispatchCheckRequest -> nat -> schedule.

Definition typesystem_missing : string := "typesystem missing in context".

Definition checkSetOperation_panic (n : nat) : string :=
  "expected two rewrite operands in exclusion operator, but got '" ++ decimal n ++ "'".

Definition GetTupleset (rewrite : Userset) : string :=
  match rewrite with
  | TupleToUserset tupleset _ => tupleset
  | _ => ""
  end.

Definition GetComputedUserset (rewrite : Userset) : string :=
  match rewrite with
  | TupleToUserset _ computed => computed
  | _ => ""
  end.

(** A deferred call runs when the function returns or panics, not when it
    never returns. *)
Definition defer {A : Type} (ev : event) (r : run A) : run A :=
  match fst r with
  | Abort Blocked | Abort OutOfFuel => r
  | _ => (fst r, snd r ++ [ev])
  end.

Fixpoint sequence {A : Type} (l : list (call A)) : call (list A) :=
  match l with
  | [] => Ret []
  | Abort x :: _ => Abort x
  | Ret a :: l' =>
      match sequence l' with
      | Ret l'' => Ret (a :: l'')
      | Abort x => Abort x
      end
  end.

Section Checker.

Variable sched : scheduler.
Variable c : ConcurrentChecker.

Definition dispatch (_ : Context) (req : DispatchCheckRequest) : CheckHandlerFunc :=
  fun ctx =>
    match dispatcher c ctx req with
    | (Abort x, t) => (Abort x, t)
    | (Ret (_, Some e), t) => (Ret {| resp := None; err := Some e |}, t)
    | (Ret (Some resp, None), t) =>
        (Ret {| resp := Some {| Allowed := dispatcher.Allowed resp |}; err := None |}, t)
    | (Ret (None, None), t) => (Abort (Panic nil_dereference), t)
    end.

Definition checkDirect_fn1 (req : DispatchCheckRequest) : CheckHandlerFunc :=
  fun ctx =>
    match ReadUserTuple (ds c) (StoreId req) (TupleKey req) with
    | (_, Some e) =>
        if error_eqb e ErrNotFound then (Ret denied, []) else (Ret (failed e), [])
    | (Some _, None) => (Ret allowed, [])
    | (None, None) => (Ret denied, [])
    end.

(** The [for] loop of the second handler of [checkDirect]: one dispatch per
    userset tuple, until the iterator is done or fails. *)
Fixpoint checkDirect_loop (ctx : Context) (req : DispatchCheckRequest)
         (iter : TupleIterator) (handlers : list CheckHandlerFunc)
  : list CheckHandlerFunc + error :=
  match iter with
  | [] => inl handlers
  | inr e :: _ => if error_eqb e ErrIteratorDone then inl handlers else inr e
  | inl t :: iter' =>
      let (usersetObject, usersetRelation) := SplitObjectRelation (User (Key t)) in
      checkDirect_loop ctx req iter'
        (handlers ++
         [dispatch ctx
            {| StoreId := StoreId req;
               AuthorizationModelId := AuthorizationModelId req;
               TupleKey := NewTupleKey usersetObject usersetRelation (User (TupleKey req));
               ContextualTuples := [];
               ResolutionMetadata_ :=
                 {| Depth := uint32_pred (Depth (ResolutionMetadata_ req)) |} |}])
  end.

Definition checkDirect_fn2 (req : DispatchCheckRequest) : CheckHandlerFunc :=
  fun ctx =>
    match ReadUsersetTuples (ds c) (StoreId req) (TupleKey req) with
    | inr e => (Ret (failed e), [])
    | inl iter =>
        traced [EvOpen OpReadUsersetTuples (StoreId req) (TupleKey req)]
          match checkDirect_loop ctx req iter [] with
          | inr e => (Ret (failed e), [])
          | inl handlers =>
              if (0 <? length handlers)%nat
              then union (sched req (length handlers)) ctx (concurrencyLimit c) handlers
              else (Ret denied, [])
          end
    end.

Definition checkDirect (parentctx : Context) (req : DispatchCheckRequest)
  : CheckHandlerFunc :=
  fun ctx =>
    union (sched req 2) ctx (concurrencyLimit c) [checkDirect_fn1 req; checkDirect_fn2 req].

Fixpoint checkTTU_loop (ctx : Context) (req : DispatchCheckRequest)
         (computedRelation : string)
         (iter : TupleIterator) (handlers : list CheckHandlerFunc)
  : list CheckHandlerFunc + error :=
  match iter with
  | [] => inl handlers
  | inr e :: _ => if error_eqb e ErrIteratorDone then inl handlers else inr e
  | inl t :: iter' =>
      let (userObj, _) := SplitObjectRelation (User (Key t)) in
      let tupleKey :=
        {| Object := userObj; tuple.Relation := computedRelation;
           User := User (TupleKey req) |} in
      checkTTU_loop ctx req computedRelation iter'
        (handlers ++
         [dispatch ctx
            {| StoreId := StoreId req;
               AuthorizationModelId := AuthorizationModelId req;
               TupleKey := tupleKey;
               ContextualTuples := [];
               ResolutionMetadata_ :=
                 {| Depth := uint32_pred (Depth (ResolutionMetadata_ req)) |} |}])
  end.

Definition checkTTU (parentctx : Context) (req : DispatchCheckRequest)
           (rewrite : Userset) : call CheckHandlerFunc :=
  match ctx_typesys parentctx with
  | None => Abort (Panic typesystem_missing)
  | Some typesys =>
      Ret (fun ctx =>
        let ctx := {| ctx_typesys := Some typesys; ctx_err := ctx_err ctx |} in
        let tuplesetRelation := GetTupleset rewrite in
        let computedRelation := GetComputedUserset rewrite in
        let tk := TupleKey req in
        let key := NewTupleKey (Object tk) tuplesetRelation "" in
        match Read (ds c) (StoreId req) key with
        | inr e => (Ret (failed e), [])
        | inl iter =>
            traced [EvOpen OpRead (StoreId req) key]
              (defer (EvStop OpRead (StoreId req) key)
                 match checkTTU_loop ctx req computedRelation iter [] with
                 | inr e => (Ret (failed e), [])
                 | inl handlers =>
                     if (0 <? length handlers)%nat
                     then union (sched req (length handlers)) ctx (concurrencyLimit c) handlers
                     else (Ret denied, [])
                 end)
        end)
  end.

Definition checkSetOperation
           (checkRewrite : Userset -> call CheckHandlerFunc)
           (req : DispatchCheckRequest)
           (setOpType : setOperationType)
           (reducer : CheckFuncReducer)
           (children : list Userset) : call CheckHandlerFunc :=
  let handlers :=
    match setOpType with
    | unionSetOperation | intersectionSetOperation =>
        sequence (map checkRewrite children)
    | exclusionSetOperation =>
        match children with
        | [base; subtract] => sequence [checkRewrite base; checkRewrite subtract]
        | _ => Abort (Panic (checkSetOperation_panic (length children)))
        end
    end in
  match handlers with
  | Abort x => Abort x
  | Ret handlers =>
      Ret (fun ctx => reducer (sched req (length handlers)) ctx (concurrencyLimit c) handlers)
  end.

Fixpoint checkRewrite (ctx : Context) (req : DispatchCheckRequest)
         (rewrite : Userset) {struct rewrite} : call CheckHandlerFunc :=
  match rewrite with
  | This => Ret (checkDirect ctx req)
  | ComputedUserset relation =>
      Ret (dispatch ctx
             {| StoreId := StoreId req;
                AuthorizationModelId := AuthorizationModelId req;
                TupleKey := NewTupleKey (Object (TupleKey req)) relation (User (TupleKey req));
                ContextualTuples := [];
                ResolutionMetadata_ :=
                  {| Depth := uint32_pred (Depth (ResolutionMetadata_ req)) |} |})
  | TupleToUserset _ _ => checkTTU ctx req rewrite
  | Union child =>
      checkSetOperation (checkRewrite ctx req) req unionSetOperation union child
  | Intersection child =>
      checkSetOperation (checkRewrite ctx req) req intersectionSetOperation intersection child
  | Difference base subtract =>
      checkSetOperation (checkRewrite ctx req) req exclusionSetOperation exclusion
                        [base; subtract]
  end.

Definition DispatchCheck (ctx : Context) (req : DispatchCheckRequest)
  : run dispatchOutcome :=
  traced [EvDispatch req]
    (if (Depth (ResolutionMetadata_ req) =? 0)%N
     then (Ret (None, Some ErrResolutionDepthExceeded), [])
     else
       match ctx_typesys ctx with
       | None => (Abort (Panic typesystem_missing), [])
       | Some typesys =>
           let object := Object (TupleKey req) in
           let relation := tuple.Relation (TupleKey req) in
           let (objectType, _) := SplitObject object in
           match GetRelation typesys objectType relation with
           | inr _ => (Ret (None, Some (ErrRelationUndefined relation objectType)), [])
           | inl rel =>
               match checkRewrite ctx req (Rewrite rel) with
               | Abort x => (Abort x, [])
               | Ret handler =>
                   match union (sched req 1) ctx (concurrencyLimit c) [handler] with
                   | (Abort x, t) => (Abort x, t)
                   | (Ret {| resp := _; err := Some e |}, t) => (Ret (None, Some e), t)
                   | (Ret {| resp := Some resp; err := None |}, t) =>
                       (Ret (Some {| dispatcher.Allowed := Allowed resp |}, None), t)
                   | (Ret {| resp := None; err := None |}, t) =>
                       (Abort (Panic nil_dereference), t)
                   end
               end
           end
       end).

End Checker.

(** [NewConcurrentChecker] makes the checker its own dispatcher.  The
    self-reference is unrolled [fuel] times; a dispatch beyond that reports
    [OutOfFuel]. *)
Fixpoint NewConcurrentChecker (sched : scheduler) (fuel : nat)
         (ds : OpenFGADatastore) (concurrencyLimit : N) : ConcurrentChecker :=
  {| ds := ds;
     dispatcher :=
       match fuel with
       | O => fun _ _ => (Abort OutOfFuel, [])
       | S fuel' => DispatchCheck sched (NewConcurrentChecker sched fuel' ds concurrencyLimit)
       end;
     concurrencyLimit := concurrencyLimit |}.

End graph.

(* ================================================================== *)
(** * internal/validation *)

Module validation.
Import tuple typesystem.

Definition user_matches (user : string) (ref : RelationReference) : bool :=
  let (userObject, userRelation) := SplitObjectRelation user in
  let (userType, userID) := SplitObject userObject in
  String.eqb userType (ref_Type ref) &&
  match ref_RelationOrWildcard ref with
  | None => String.eqb userRelation "" && negb (String.eqb userID "*")
  | Some (RefRelation relation) => String.eqb userRelation relation
  | Some RefWildcard => String.eqb userRelation "" && String.eqb userID "*"
  end.

(** Modelled from the spec: the [validation] package is not part of the
    sources; a tuple is valid when its user shape (a type, optionally with a
    relation or as a wildcard) matches one of the directly-related user types
    of its relation under the model.  The filter keeps the valid tuples. *)
Definition FilterInvalidTuples (typesys : TypeSystem) (tk : TupleKey) : bool :=
  let (objectType, _) := SplitObject (Object tk) in
  match GetDirectlyRelatedUserTypes typesys objectType (tuple.Relation tk) with
  | inl refs => existsb (user_matches (User tk)) refs
  | inr _ => false
  end.

End validation.

(* ================================================================== *)
(** * pkg/server/commands/listusers *)

Module listusers.
Import tuple typesystem storage.

(** The [listUsersRequest] interface, as the fields its getters return. *)
Record ListUsersRequest := {
  StoreId : string;
  AuthorizationModelId : string;
  Object : ObjectRef;
  Relation : string;
  TargetUserObjectType : string;
  TargetUserRelation : string;
  ContextualTuples : list TupleKey
}.

Record listUsersQuery := {
  ds : OpenFGADatastore;
  typesystemResolver : Context -> string -> string -> TypeSystem + error;
  resolveNodeBreadthLimit : N
}.

Definition NewListUsersQuery (ds : OpenFGADatastore) : listUsersQuery :=
  {| ds := ds;
     typesystemResolver := fun ctx _ _ =>
       match ctx_typesys ctx with
       | Some typesys => inl typesys
       | None => inr ErrTypesystemNotProvided
       end;
     resolveNodeBreadthLimit := 20 |}.

(** What one call of [expand] did: the objects it sent on
    [foundObjectsChan], its iterator events, and what it returned. *)
Record expansion := {
  found : list ObjectRef;
  trace : list event;
  returned : call (option error)
}.

Definition emit (objs : list ObjectRef) (e : expansion) : expansion :=
  {| found := objs ++ found e; trace := trace e; returned := returned e |}.

Definition log (evs : list event) (e : expansion) : expansion :=
  {| found := found e; trace := evs ++ trace e; returned := returned e |}.

Definition log_after (e : expansion) (evs : list event) : expansion :=
  {| found := found e; trace := trace e ++ evs; returned := returned e |}.

Definition returning (r : call (option error)) : expansion :=
  {| found := []; trace := []; returned := r |}.

(** The worker pool of one expansion step: what its tasks sent and did so
    far, and what each task returned, in submission order. *)
Record pool := {
  pool_found : list ObjectRef;
  pool_trace : list event;
  pool_tasks : list (call (option error))
}.

Definition pool_New : pool := {| pool_found := []; pool_trace := []; pool_tasks := [] |}.

Definition pool_send (p : pool) (o : ObjectRef) : pool :=
  {| pool_found := pool_found p ++ [o];
     pool_trace := pool_trace p;
     pool_tasks := pool_tasks p |}.

Definition pool_Go (p : pool) (task : expansion) : pool :=
  {| pool_found := pool_found p ++ found task;
     pool_trace := pool_trace p ++ trace task;
     pool_tasks := pool_tasks p ++ [returned task] |}.

(** [pool.Wait()]: the first task that did not return [nil] decides. *)
Fixpoint pool_Wait (tasks : list (call (option error))) : call (option error) :=
  match tasks with
  | [] => Ret None
  | Ret None :: tasks' => pool_Wait tasks'
  | r :: _ => r
  end.

Definition unexpected_rewrite : string := "unexpected userset rewrite encountered".

Section Query.

Variable l : listUsersQuery.

(** The loop of [expandDirect] over the filtered iterator; the second
    component is the iterator error that made the loop return early. *)
Fixpoint expandDirect_loop (expand : Context -> ListUsersRequest -> expansion)
         (ctx : Context) (req : ListUsersRequest) (filter : TupleKey -> bool)
         (iter : TupleIterator) (p : pool) : pool * option error :=
  match iter with
  | [] => (p, None)
  | inr e :: _ => if error_eqb e ErrIteratorDone then (p, None) else (p, Some e)
  | inl t :: iter' =>
      if filter (Key t) then
        let tupleKeyUser := User (Key t) in
        let (userObject, userRelation) := SplitObjectRelation tupleKeyUser in
        let (userObjectType, userObjectID) := SplitObject userObject in
        if String.eqb userRelation "" then
          if String.eqb userObjectType (TargetUserObjectType req)
          then expandDirect_loop expand ctx req filter iter'
                 (pool_send p {| Type_ := userObjectType; Id := userObjectID |})
          else expandDirect_loop expand ctx req filter iter' p
        else
          expandDirect_loop expand ctx req filter iter'
            (pool_Go p
               (expand ctx
                  {| StoreId := StoreId req;
                     AuthorizationModelId := AuthorizationModelId req;
                     Object := {| Type_ := userObjectType; Id := userObjectID |};
                     Relation := userRelation;
                     TargetUserObjectType := TargetUserObjectType req;
                     TargetUserRelation := TargetUserRelation req;
                     ContextualTuples := ContextualTuples req |}))
      else expandDirect_loop expand ctx req filter iter' p
  end.

Definition finish (stop : event) (r : pool * option error) : expansion :=
  let (p, exit) := r in
  {| found := pool_found p;
     trace := pool_trace p ++ [stop];
     returned := match exit with
                 | Some e => Ret (Some e)
                 | None => pool_Wait (pool_tasks p)
                 end |}.

Definition expandDirect (expand : Context -> ListUsersRequest -> expansion)
           (ctx : Context) (req : ListUsersRequest) : expansion :=
  match typesystemResolver l ctx (StoreId req) (AuthorizationModelId req) with
  | inr e => returning (Ret (Some e))
  | inl typesys =>
      let key := {| tuple.Object := ObjectKey (Object req);
                    tuple.Relation := Relation req;
                    User := "" |} in
      match Read (ds l) (StoreId req) key with
      | inr e => returning (Ret (Some e))
      | inl iter =>
          log [EvOpen OpRead (StoreId req) key]
            (finish (EvStop OpRead (StoreId req) key)
               (expandDirect_loop expand ctx req
                  (validation.FilterInvalidTuples typesys) iter pool_New))
      end
  end.

Fixpoint expandTTU_loop (expand : Context -> ListUsersRequest -> expansion)
         (ctx : Context) (req : ListUsersRequest) (computedRelation : string)
         (filter : TupleKey -> bool)
         (iter : TupleIterator) (p : pool) : pool * option error :=
  match iter with
  | [] => (p, None)
  | inr e :: _ => if error_eqb e ErrIteratorDone then (p, None) else (p, Some e)
  | inl t :: iter' =>
      if filter (Key t) then
        let userObject := User (Key t) in
        let (userObjectType, userObjectID) := SplitObject userObject in
        expandTTU_loop expand ctx req computedRelation filter iter'
          (pool_Go p
             (expand ctx
                {| StoreId := StoreId req;
                   AuthorizationModelId := AuthorizationModelId req;
                   Object := {| Type_ := userObjectType; Id := userObjectID |};
                   Relation := computedRelation;
                   TargetUserObjectType := TargetUserObjectType req;
                   TargetUserRelation := TargetUserRelation req;
                   ContextualTuples := ContextualTuples req |}))
      else expandTTU_loop expand ctx req computedRelation filter iter' p
  end.

Definition expandTTU (expand : Context -> ListUsersRequest -> expansion)
           (ctx : Context) (req : ListUsersRequest)
           (tuplesetRelation computedRelation : string) : expansion :=
  match typesystemResolver l ctx (StoreId req) (AuthorizationModelId req) with
  | inr e => returning (Ret (Some e))
  | inl typesys =>
      let key := {| tuple.Object := ObjectKey (Object req);
                    tuple.Relation := tuplesetRelation;
                    User := "" |} in
      match Read (ds l) (StoreId req) key with
      | inr e => returning (Ret (Some e))
      | inl iter =>
          log [EvOpen OpRead (StoreId req) key]
            (finish (EvStop OpRead (StoreId req) key)
               (expandTTU_loop expand ctx req computedRelation
                  (validation.FilterInvalidTuples typesys) iter pool_New))
      end
  end.

(** [expand] recurses without a depth counter; [fuel] bounds the recursion
    of the embedding. *)
Fixpoint expand (fuel : nat) (ctx : Context) (req : ListUsersRequest) : expansion :=
  match fuel with
  | O => returning (Abort OutOfFuel)
  | S fuel' =>
      emit (if String.eqb (Type_ (Object req)) (TargetUserObjectType req)
               && String.eqb (Relation req) (TargetUserRelation req)
            then [Object req] else [])
        match typesystemResolver l ctx (StoreId req) (AuthorizationModelId req) with
        | inr e => returning (Ret (Some e))
        | inl typesys =>
            match GetRelation typesys (Type_ (Object req)) (Relation req) with
            | inr e => returning (Ret (Some e))
            | inl relation =>
                match Rewrite relation with
                | This => expandDirect (expand fuel') ctx req
                | ComputedUserset computed =>
                    expand fuel' ctx
                      {| StoreId := StoreId req;
                         AuthorizationModelId := AuthorizationModelId req;
                         Object := Object req;
                         Relation := computed;
                         TargetUserObjectType := TargetUserObjectType req;
                         TargetUserRelation := "";
                         ContextualTuples := ContextualTuples req |}
                | TupleToUserset tupleset computed =>
                    expandTTU (expand fuel') ctx req tupleset computed
                | _ => returning (Abort (Panic unexpected_rewrite))
                end
            end
        end
  end.

(** [ListUsers]: the found objects when the expansion returned [nil], its
    error otherwise. *)
Definition ListUsers (fuel : nat) (ctx : Context) (req : ListUsersRequest)
  : call (option (list ObjectRef) * option error) :=
  let e := expand fuel ctx req in
  match returned e with
  | Ret None => Ret (Some (found e), None)
  | Ret (Some err) => Ret (None, Some err)
  | Abort x => Abort x
  end.

End Query.

End listusers.

(* ================================================================== *)
(** * materializer: rewrite rules to SQL

    The [index] command carries a second copy of
    [materializeInternalWithRewrite] and its helpers whose text differs from
    this one only in the name of the statement type. *)

Module materializer.
Import tuple typesystem.
Local Open Scope string_scope.

Record namedSQLStatement := { name : string; sql : string }.

Definition nl : string := String (ascii_of_nat 10) "".
Definition tab : string := String (ascii_of_nat 9) "".

Definition quoted (s : string) : string := "'" ++ s ++ "'".

(** [fmt.Sprintf("%s_%s", a, b)] *)
Definition underscore (a b : string) : string := a ++ "_" ++ b.

Definition decimal (n : nat) : string := NilZero.string_of_uint (Nat.to_uint n).

Definition index_out_of_range : string :=
  "runtime error: index out of range [0] with length 0".

Definition nested_direct (objectType relation subjectType subjectRelation : string)
  : string :=
  "SELECT r.subject_type, r.subject_id, r.subject_relation, '" ++ relation
  ++ "', s.object_type, s.object_id FROM " ++ underscore subjectType subjectRelation
  ++ " r, tuples s WHERE s.subject_type = '" ++ subjectType
  ++ "' AND s.subject_relation = '" ++ subjectRelation ++ "' AND" ++ nl
  ++ tab ++ tab ++ tab ++ "  s.relation = '" ++ relation
  ++ "' AND s.object_type = '" ++ objectType ++ "' AND" ++ nl
  ++ tab ++ tab ++ tab
  ++ "  s.subject_type = r.object_type AND s.subject_id = r.object_id AND" ++ nl
  ++ tab ++ tab ++ tab ++ "  s.subject_relation = r.relation".

(** The first loop of [materializeDirect]: the quoted plain subject types and
    the nested statements of the userset-typed ones. *)
Fixpoint direct_refs (objectType relation : string) (refs : list RelationReference)
         (subjectTypes nestedStatements : list string) : list string * list string :=
  match refs with
  | [] => (subjectTypes, nestedStatements)
  | subjectRelationRef :: refs' =>
      let subjectType := ref_Type subjectRelationRef in
      match ref_RelationOrWildcard subjectRelationRef with
      | None =>
          direct_refs objectType relation refs'
                      (subjectTypes ++ [quoted subjectType]) nestedStatements
      | Some _ =>
          if negb (String.eqb (ref_Relation subjectRelationRef) "")
          then direct_refs objectType relation refs' subjectTypes
                 (nestedStatements ++
                  [nested_direct objectType relation subjectType
                                 (ref_Relation subjectRelationRef)])
          else direct_refs objectType relation refs' subjectTypes nestedStatements
      end
  end.

(** The second loop of [materializeDirect]. *)
Fixpoint join_nested (nestedStatements : list string) : string :=
  match nestedStatements with
  | [] => ""
  | [nestedStatement] => nestedStatement
  | nestedStatement :: rest => nestedStatement ++ " UNION " ++ join_nested rest
  end.

Definition materializeDirect (typesys : TypeSystem) (objectType relation : string)
  : call namedSQLStatement :=
  match GetRelation typesys objectType relation with
  | inr e => Abort (PanicErr e)
  | inl rel =>
      let (subjectTypes, nestedStatements) :=
        direct_refs objectType relation (DirectlyRelatedUserTypes rel) [] [] in
      let base :=
        "SELECT subject_type, subject_id, subject_relation, relation, object_type,object_id FROM tuples WHERE object_type='"
        ++ objectType ++ "' AND relation='" ++ relation ++ "' AND subject_type IN ("
        ++ String.concat "," subjectTypes ++ ") AND subject_relation=''" in
      Ret {| name := underscore objectType relation;
             sql := base
                    ++ (if (0 <? length nestedStatements)%nat then " UNION " else "")
                    ++ join_nested nestedStatements |}
  end.

Definition materializeComputedUserset (objectType relation rewrittenRelation : string)
  : namedSQLStatement :=
  let rewrittenStatementName := underscore objectType rewrittenRelation in
  {| name := underscore objectType relation;
     sql := "SELECT subject_type, subject_id, subject_relation, '" ++ relation
            ++ "', object_type,object_id FROM " ++ rewrittenStatementName |}.

(** The first loop of [materializeTupleToUserset]: the related types that
    define the computed relation. *)
Fixpoint ttu_subject_types (typesys : TypeSystem) (computedRelation : string)
         (relatedTypes : list RelationReference) (subjectTypes : list string)
  : list string :=
  match relatedTypes with
  | [] => subjectTypes
  | relatedType :: rest =>
      let subjectType := ref_Type relatedType in
      match GetRelation typesys subjectType computedRelation with
      | inr _ => ttu_subject_types typesys computedRelation rest subjectTypes
      | inl _ => ttu_subject_types typesys computedRelation rest
                                   (subjectTypes ++ [subjectType])
      end
  end.

Definition ttu_join (objectType relation tuplesetRelation computedRelation subjectType
                     : string) : string :=
  "SELECT i.subject_type, i.subject_id, i.subject_relation, '" ++ computedRelation
  ++ "', p.object_type, p.object_id" ++ nl
  ++ tab ++ tab ++ tab ++ "FROM " ++ underscore objectType relation ++ " p, "
  ++ underscore subjectType computedRelation ++ " i" ++ nl
  ++ tab ++ tab ++ tab ++ "WHERE p.relation = '" ++ tuplesetRelation
  ++ "' AND p.object_type = '" ++ objectType ++ "'" ++ nl
  ++ tab ++ tab ++ tab
  ++ "AND p.subject_type = i.object_type AND p.subject_id = i.object_id" ++ nl
  ++ tab ++ tab ++ tab ++ "AND i.relation = '" ++ computedRelation ++ "'".

(** The second loop of [materializeTupleToUserset]. *)
Fixpoint ttu_joins (objectType relation tuplesetRelation computedRelation : string)
         (subjectTypes : list string) : string :=
  match subjectTypes with
  | [] => ""
  | [subjectType] =>
      ttu_join objectType relation tuplesetRelation computedRelation subjectType
  | subjectType :: rest =>
      ttu_join objectType relation tuplesetRelation computedRelation subjectType
      ++ " UNION "
      ++ ttu_joins objectType relation tuplesetRelation computedRelation rest
  end.

Definition materializeTupleToUserset (typesys : TypeSystem)
           (objectType relation tuplesetRelation computedRelation : string)
  : call namedSQLStatement :=
  match GetDirectlyRelatedUserTypes typesys objectType tuplesetRelation with
  | inr e => Abort (PanicErr e)
  | inl relatedTypes =>
      let subjectTypes := ttu_subject_types typesys computedRelation relatedTypes [] in
      let quotedSubjectTypes := map quoted subjectTypes in
      Ret {| name := underscore objectType relation;
             sql := "SELECT subject_type, subject_id, subject_relation, relation, object_type, object_id"
                    ++ nl ++ "    FROM tuples" ++ nl
                    ++ "    WHERE subject_type IN (" ++ String.concat "," quotedSubjectTypes
                    ++ ") AND relation = '" ++ tuplesetRelation
                    ++ "' AND object_type = '" ++ objectType ++ "' UNION "
                    ++ ttu_joins objectType relation tuplesetRelation computedRelation
                                 subjectTypes |}
  end.

(** The loop of the [Union] case. *)
Fixpoint union_children (materialize : Userset -> call namedSQLStatement)
         (childRewrites : list Userset) : call string :=
  match childRewrites with
  | [] => Ret ""
  | childRewrite :: rest =>
      match materialize childRewrite with
      | Abort x => Abort x
      | Ret s =>
          match rest with
          | [] => Ret (sql s)
          | _ =>
              match union_children materialize rest with
              | Abort x => Abort x
              | Ret tail => Ret (sql s ++ " UNION " ++ tail)
              end
          end
      end
  end.

(** The loop of the [Intersection] case, from operand [i] on. *)
Fixpoint intersection_operands (materialize : Userset -> call namedSQLStatement)
         (i : nat) (childRewrites : list Userset) : call string :=
  match childRewrites with
  | [] => Ret ""
  | childRewrite :: rest =>
      let operandStatementName := "operand_" ++ decimal i in
      let opening :=
        if (i =? 0)%nat then "WITH " ++ operandStatementName ++ " AS ("
        else operandStatementName ++ " AS (" in
      match materialize childRewrite with
      | Abort x => Abort x
      | Ret s =>
          match rest with
          | [] => Ret (opening ++ sql s ++ ")")
          | _ =>
              match intersection_operands materialize (S i) rest with
              | Abort x => Abort x
              | Ret tail => Ret (opening ++ sql s ++ "), " ++ tail)
              end
          end
      end
  end.

Definition operand_names (n : nat) : list string :=
  map (fun i => "operand_" ++ decimal i) (seq 0 n).

Definition intersection_select (operands : list string) : call string :=
  match operands with
  | [] => Abort (Panic index_out_of_range)
  | [operand] =>
      Ret ("SELECT subject_type, subject_id, subject_relation, relation, object_type, object_id FROM "
           ++ operand)
  | operand :: others =>
      Ret ("SELECT subject_type, subject_id, subject_relation, relation, object_type, object_id FROM "
           ++ operand ++ " WHERE EXISTS (SELECT FROM " ++ String.concat "," others ++ ")")
  end.

Fixpoint materializeInternalWithRewrite (typesys : TypeSystem)
         (objectType relation : string) (rewrite : Userset) {struct rewrite}
  : call namedSQLStatement :=
  match rewrite with
  | This => materializeDirect typesys objectType relation
  | ComputedUserset rewrittenRelation =>
      Ret (materializeComputedUserset objectType relation rewrittenRelation)
  | TupleToUserset tuplesetRelation computedRelation =>
      materializeTupleToUserset typesys objectType relation tuplesetRelation
                                computedRelation
  | Union childRewrites =>
      match union_children (materializeInternalWithRewrite typesys objectType relation)
                           childRewrites with
      | Abort x => Abort x
      | Ret s => Ret {| name := underscore objectType relation; sql := s |}
      end
  | Intersection childRewrites =>
      match intersection_operands
              (materializeInternalWithRewrite typesys objectType relation)
              0 childRewrites with
      | Abort x => Abort x
      | Ret operands =>
          match intersection_select (operand_names (length childRewrites)) with
          | Abort x => Abort x
          | Ret select =>
              Ret {| name := underscore objectType relation; sql := operands ++ select |}
          end
      end
  | Difference baseRewrite subtractRewrite =>
      match materializeInternalWithRewrite typesys objectType relation baseRewrite with
      | Abort x => Abort x
      | Ret baseStatement =>
          match materializeInternalWithRewrite typesys objectType relation
                                               subtractRewrite with
          | Abort x => Abort x
          | Ret subtractStatement =>
              Ret {| name := underscore objectType relation;
                     sql := "WITH base AS (" ++ sql baseStatement
                            ++ "), subtract AS (" ++ sql subtractStatement
                            ++ ") SELECT subject_type, subject_id, subject_relation, '"
                            ++ relation
                            ++ "', object_type, object_id FROM base b WHERE NOT EXISTS (SELECT FROM subtract s WHERE b.subject_type=s.subject_type AND b.subject_id=s.subject_id AND b.object_type=s.object_type AND b.object_id=s.object_id)" |}
          end
      end
  end.

Definition materializeInternal (typesys : TypeSystem) (objectType relation : string)
  : call namedSQLStatement :=
  match GetRelation typesys objectType relation with
  | inr e => Abort (PanicErr e)
  | inl rel => materializeInternalWithRewrite typesys objectType relation (Rewrite rel)
  end.

End materializer.

(* ================================================================== *)
(** * The goroutines of a reducer

    [resolver], [union], [intersection] and [exclusion] as a transition
    system: one step is one statement of one goroutine.  A handler is
    identified by its index; [decides j] tells whether the outcome of handler
    [j] makes the reducer's loop return.  How long a handler takes is not
    fixed: a worker may send at any time, or never. *)

Module runtime.

(** A worker, [checker(fn)]: in [fn(ctx)]; after [resultChan <- outcome];
    after [<-limiter], before [wg.Done()]. *)
Inductive worker_pc : Type :=
| Evaluating
| Sent
| Freed.

(** The goroutine that starts the workers of [resolver]. *)
Inductive orchestrator_pc : Type :=
| Selecting (j : nat)   (* at the select for handler j; past the loop when j = n *)
| Acquired (j : nat)    (* [limiter <- struct{}{}] taken, before [wg.Add(1)] *)
| Counted (j : nat)     (* after [wg.Add(1)], before [go checker(fn)] *)
| Exited.               (* after [wg.Done()] *)

(** The goroutine that called the reducer. *)
Inductive reducer_pc : Type :=
| Starting (k : nat)    (* exclusion: at [limiter <- struct{}{}] for worker k *)
| Slotted (k : nat)     (* exclusion: before [wg.Add(1)] *)
| CountedFor (k : nat)  (* exclusion: before [go func()] *)
| Looping (i : nat)     (* at the select of iteration i; past the loop when i = n *)
| Deferred              (* a return statement ran; before [cancel()] *)
| Draining              (* in [wg.Wait()] *)
| Returned.             (* channels closed, the call is over *)

Record state := {
  reducer : reducer_pc;
  orchestrator : orchestrator_pc;
  workers : list (nat * worker_pc);   (* the workers started and not yet exited *)
  limiter : nat;                      (* tokens in the limiter channel *)
  wg : nat;                           (* counter of the wait group *)
  resultChan : list nat;              (* outcomes sent and not yet received *)
  cctx_done : bool;                   (* the reducer's own context is cancelled *)
  ctx_done : bool                     (* the caller's context is cancelled *)
}.

Definition set_reducer (pc : reducer_pc) (s : state) : state :=
  {| reducer := pc; orchestrator := orchestrator s; workers := workers s;
     limiter := limiter s; wg := wg s; resultChan := resultChan s;
     cctx_done := cctx_done s; ctx_done := ctx_done s |}.

Definition set_orchestrator (pc : orchestrator_pc) (s : state) : state :=
  {| reducer := reducer s; orchestrator := pc; workers := workers s;
     limiter := limiter s; wg := wg s; resultChan := resultChan s;
     cctx_done := cctx_done s; ctx_done := ctx_done s |}.

Definition set_workers (ws : list (nat * worker_pc)) (s : state) : state :=
  {| reducer := reducer s; orchestrator := orchestrator s; workers := ws;
     limiter := limiter s; wg := wg s; resultChan := resultChan s;
     cctx_done := cctx_done s; ctx_done := ctx_done s |}.

Definition set_limiter (n : nat) (s : state) : state :=
  {| reducer := reducer s; orchestrator := orchestrator s; workers := workers s;
     limiter := n; wg := wg s; resultChan := resultChan s;
     cctx_done := cctx_done s; ctx_done := ctx_done s |}.

Definition set_wg (n : nat) (s : state) : state :=
  {| reducer := reducer s; orchestrator := orchestrator s; workers := workers s;
     limiter := limiter s; wg := n; resultChan := resultChan s;
     cctx_done := cctx_done s; ctx_done := ctx_done s |}.

Definition set_resultChan (c : list nat) (s : state) : state :=
  {| reducer := reducer s; orchestrator := orchestrator s; workers := workers s;
     limiter := limiter s; wg := wg s; resultChan := c;
     cctx_done := cctx_done s; ctx_done := ctx_done s |}.

Definition cancel (s : state) : state :=
  {| reducer := reducer s; orchestrator := orchestrator s; workers := workers s;
     limiter := limiter s; wg := wg s; resultChan := resultChan s;
     cctx_done := true; ctx_done := ctx_done s |}.

Definition cancel_caller (s : state) : state :=
  {| reducer := reducer s; orchestrator := orchestrator s; workers := workers s;
     limiter := limiter s; wg := wg s; resultChan := resultChan s;
     cctx_done := true; ctx_done := true |}.

(** The steps of a worker.  Its send cannot block: the channel has room for
    the outcome of every handler. *)
Inductive worker_step : state -> state -> Prop :=
| worker_sends s ws1 ws2 j :
    workers s = ws1 ++ (j, Evaluating) :: ws2 ->
    worker_step s (set_workers (ws1 ++ (j, Sent) :: ws2)
                     (set_resultChan (resultChan s ++ [j]) s))
| worker_frees s ws1 ws2 j :
    workers s = ws1 ++ (j, Sent) :: ws2 ->
    0 < limiter s ->
    worker_step s (set_workers (ws1 ++ (j, Freed) :: ws2)
                     (set_limiter (limiter s - 1) s))
| worker_exits s ws1 ws2 j :
    workers s = ws1 ++ (j, Freed) :: ws2 ->
    worker_step s (set_workers (ws1 ++ ws2) (set_wg (wg s - 1) s)).

(** The end of every reducer: the deferred function and the return. *)
Inductive finish_step : state -> state -> Prop :=
| reducer_cancels s :
    reducer s = Deferred ->
    finish_step s (set_reducer Draining (cancel s))
| reducer_returns s :
    reducer s = Draining ->
    wg s = 0 ->
    finish_step s (set_reducer Returned s).

(** [union] and [intersection] over [n] handlers with limit [K]. *)
Inductive resolver_step (n K : nat) (decides : nat -> bool) : state -> state -> Prop :=
| orchestrator_acquires s j :
    orchestrator s = Selecting j -> j < n -> limiter s < K ->
    resolver_step n K decides s
      (set_orchestrator (Acquired j) (set_limiter (S (limiter s)) s))
| orchestrator_skips s j :
    orchestrator s = Selecting j -> j < n -> cctx_done s = true ->
    resolver_step n K decides s (set_orchestrator (Selecting (S j)) s)
| orchestrator_counts s j :
    orchestrator s = Acquired j ->
    resolver_step n K decides s (set_orchestrator (Counted j) (set_wg (S (wg s)) s))
| orchestrator_spawns s j :
    orchestrator s = Counted j ->
    resolver_step n K decides s
      (set_orchestrator (Selecting (S j)) (set_workers (workers s ++ [(j, Evaluating)]) s))
| orchestrator_exits s :
    orchestrator s = Selecting n ->
    resolver_step n K decides s (set_orchestrator Exited (set_wg (wg s - 1) s))
| reducer_receives s i j rest :
    reducer s = Looping i -> i < n -> resultChan s = j :: rest ->
    resolver_step n K decides s
      (set_reducer (if decides j then Deferred else Looping (S i)) (set_resultChan rest s))
| reducer_sees_done s i :
    reducer s = Looping i -> i < n -> ctx_done s = true ->
    resolver_step n K decides s (set_reducer Deferred s)
| reducer_ends_loop s :
    reducer s = Looping n ->
    resolver_step n K decides s (set_reducer Deferred s)
| resolver_finishes s s' :
    finish_step s s' -> resolver_step n K decides s s'
| resolver_worker s s' :
    worker_step s s' -> resolver_step n K decides s s'
| resolver_caller_cancels s :
    resolver_step n K decides s (cancel_caller s).

(** [exclusion] with limit [K]: worker 0 runs the base handler, worker 1 the
    subtract handler, and the reducer starts both itself. *)
Inductive exclusion_step (K : nat) (decides : nat -> bool) : state -> state -> Prop :=
| exclusion_acquires s k :
    reducer s = Starting k -> limiter s < K ->
    exclusion_step K decides s (set_reducer (Slotted k) (set_limiter (S (limiter s)) s))
| exclusion_counts s k :
    reducer s = Slotted k ->
    exclusion_step K decides s (set_reducer (CountedFor k) (set_wg (S (wg s)) s))
| exclusion_spawns s k :
    reducer s = CountedFor k ->
    exclusion_step K decides s
      (set_reducer (if (k =? 0)%nat then Starting 1 else Looping 0)
                   (set_workers (workers s ++ [(k, Evaluating)]) s))
| exclusion_receives s i k c1 c2 :
    reducer s = Looping i -> i < 2 -> resultChan s = c1 ++ k :: c2 ->
    exclusion_step K decides s
      (set_reducer (if decides k then Deferred else Looping (S i))
                   (set_resultChan (c1 ++ c2) s))
| exclusion_sees_done s i :
    reducer s = Looping i -> i < 2 -> ctx_done s = true ->
    exclusion_step K decides s (set_reducer Deferred s)
| exclusion_ends_loop s :
    reducer s = Looping 2 ->
    exclusion_step K decides s (set_reducer Deferred s)
| exclusion_finishes s s' :
    finish_step s s' -> exclusion_step K decides s s'
| exclusion_worker s s' :
    worker_step s s' -> exclusion_step K decides s s'
| exclusion_caller_cancels s :
    exclusion_step K decides s (cancel_caller s).

(** The state in which the loop of [union] or [intersection] starts:
    [resolver] has counted the orchestrator and started it. *)
Definition resolver_start (cancelled : bool) : state :=
  {| reducer := Looping 0; orchestrator := Selecting 0; workers := [];
     limiter := 0; wg := 1; resultChan := [];
     cctx_done := cancelled; ctx_done := cancelled |}.

(** The state of [exclusion] past its check of the number of handlers. *)
Definition exclusion_start (cancelled : bool) : state :=
  {| reducer := Starting 0; orchestrator := Exited; workers := [];
     limiter := 0; wg := 0; resultChan := [];
     cctx_done := cancelled; ctx_done := cancelled |}.

Inductive reachable (step : state -> state -> Prop) (s0 : state) : state -> Prop :=
| reachable_start : reachable step s0 s0
| reachable_step s s' : reachable step s0 s -> step s s' -> reachable step s0 s'.

(** The goroutines the wait group accounts for. *)
Definition accounted (s : state) : nat :=
  match orchestrator s with
  | Selecting _ | Acquired _ => 1
  | Counted _ => 2
  | Exited => 0
  end
  + match reducer s with
    | CountedFor _ => 1
    | _ => 0
    end
  + length (workers s).

(** No goroutine of the reducer is left. *)
Definition quiescent (s : state) : Prop :=
  orchestrator s = Exited /\ workers s = [].

(** Where a run of [union] over one handler ends when the handler decides. *)
Definition returned_state : state :=
  {| reducer := Returned; orchestrator := Exited; workers := [];
     limiter := 0; wg := 0; resultChan := [];
     cctx_done := true; ctx_done := false |}.

(** The wait group counts the live goroutines, and is at zero once the
    reducer has returned. *)
Definition drained (s : state) : Prop :=
  wg s = accounted s /\ (reducer s = Returned -> wg s = 0).

End runtime.

(* ================================================================== *)
(** * Vocabulary of the properties *)

Module outcomes.
Import tuple typesystem storage dispatcher graph.

(** The handler (or reducer) returned [{Allowed: true}, nil]. *)
Definition is_allowed (r : run checkOutcome) : bool :=
  match fst r with
  | Ret {| resp := Some {| Allowed := true |}; err := None |} => true
  | _ => false
  end.

(** It returned [{Allowed: false}, nil]. *)
Definition is_denied (r : run checkOutcome) : bool :=
  match fst r with
  | Ret {| resp := Some {| Allowed := false |}; err := None |} => true
  | _ => false
  end.

(** It returned, with a nil error. *)
Definition is_answer (r : run checkOutcome) : bool :=
  match fst r with
  | Ret {| resp := _; err := None |} => true
  | _ => false
  end.

(** The error it returned, if it returned one. *)
Definition error_of (r : run checkOutcome) : option error :=
  match fst r with
  | Ret o => err o
  | Abort _ => None
  end.

(** An outcome [union] skips: a nil error and [GetAllowed] false. *)
Definition skipped_by_union (r : run checkOutcome) : bool :=
  match fst r with
  | Ret {| resp := rsp; err := None |} => negb (GetAllowed rsp)
  | _ => false
  end.

(** A selection [exclusion] continues after: the base allowed, or the
    subtract denied. *)
Definition passes_exclusion (x : exclusion_selected) : bool :=
  match x with
  | BaseResult r => is_allowed r
  | SubResult r => is_denied r
  | ExclusionCtxDone _ => false
  end.

(** A run that neither fails to return in a way [bad] nor logs an event
    outside [ok]. *)
Definition good {A : Type} (bad : abnormal -> Prop) (ok : event -> Prop) (r : run A)
  : Prop :=
  (forall x, fst r = Abort x -> ~ bad x) /\ Forall ok (snd r).

(** Two handlers that return the same whatever the context. *)
Definition same_handler (h h' : CheckHandlerFunc) : Prop := forall ctx, h ctx = h' ctx.

(** What [checkRewrite] builds with two checkers is the same. *)
Definition same_built (r r' : call CheckHandlerFunc) : Prop :=
  match r, r' with
  | Ret h, Ret h' => same_handler h h'
  | Abort x, Abort x' => x = x'
  | _, _ => False
  end.

Definition same_handlers_or_error (r r' : list CheckHandlerFunc + error) : Prop :=
  match r, r' with
  | inl hs, inl hs' => Forall2 same_handler hs hs'
  | inr e, inr e' => e = e'
  | _, _ => False
  end.

(** The checker [c] with another dispatcher. *)
Definition with_dispatcher (c : ConcurrentChecker) (d : CheckDispatcher)
  : ConcurrentChecker :=
  {| ds := ds c; dispatcher := d; concurrencyLimit := concurrencyLimit c |}.

(** The sub-request of [req] for the same tuple key at depth [d]. *)
Definition at_depth (req : DispatchCheckRequest) (d : N) : DispatchCheckRequest :=
  {| StoreId := StoreId req;
     AuthorizationModelId := AuthorizationModelId req;
     TupleKey := TupleKey req;
     ContextualTuples := [];
     ResolutionMetadata_ := {| Depth := d |} |}.

(** The dispatches of [req]'s tuple key at depths [n - 1], ..., [0]. *)
Fixpoint descent (req : DispatchCheckRequest) (n : nat) : list event :=
  match n with
  | O => []
  | S n' => EvDispatch (at_depth req (N.of_nat n')) :: descent req n'
  end.

(** An event other than the release of an iterator of [ReadUsersetTuples]. *)
Definition not_userset_stop (ev : event) : Prop :=
  match ev with
  | EvStop OpReadUsersetTuples _ _ => False
  | _ => True
  end.

(** The call returned or panicked: its deferred calls ran. *)
Definition exited {A : Type} (r : call A) : bool :=
  match r with
  | Abort Blocked | Abort OutOfFuel => false
  | _ => true
  end.

(** The panic at the head of [exclusion]. *)
Definition operands_panic (x : abnormal) : Prop :=
  exists n, x = Panic (exclusion_panic n).

Definition panics_on_operands {A : Type} (r : run A) : Prop :=
  exists x, fst r = Abort x /\ operands_panic x.

(** What [checkRewrite] builds: a handler whose runs are good, unless the
    type system is missing from the context. *)
Definition builds_good (bad : abnormal -> Prop) (ok : event -> Prop)
           (r : call CheckHandlerFunc) : Prop :=
  match r with
  | Ret handler => forall ctx, good bad ok (handler ctx)
  | Abort x => x = Panic typesystem_missing
  end.

(** The iterator yields no tuple: its first [Next] reports
    [ErrIteratorDone]. *)
Definition exhausted (iter : storage.TupleIterator) : bool :=
  match iter with
  | [] => true
  | inr e :: _ => error_eqb e ErrIteratorDone
  | inl _ :: _ => false
  end.

Definition is_result (x : exclusion_selected) : bool :=
  match x with
  | ExclusionCtxDone _ => false
  | _ => true
  end.

(** The error a selection of [exclusion] carries. *)
Definition exclusion_error (x : exclusion_selected) : option error :=
  match x with
  | BaseResult r | SubResult r => error_of r
  | ExclusionCtxDone _ => None
  end.

(** A selection on which [exclusion] answers denied. *)
Definition refuses_exclusion (x : exclusion_selected) : bool :=
  match x with
  | BaseResult r => is_denied r
  | SubResult r => is_allowed r
  | ExclusionCtxDone _ => false
  end.

End outcomes.

(* ================================================================== *)
(** * Reading the generated SQL *)

Module relational.
Import materializer.
Local Open Scope string_scope.

(** The columns on which the [NOT EXISTS] subquery of a difference compares
    a row of [base] with a row of [subtract]: the subject and object key
    columns of the per-relation schema but [subject_relation]. *)
Definition compared_columns : list string :=
  ["subject_type"; "subject_id"; "object_type"; "object_id"].

(** [b.c=s.c] for each of the columns, joined by [AND]. *)
Definition key_equal (columns : list string) : string :=
  String.concat " AND " (map (fun c => "b." ++ c ++ "=s." ++ c) columns).

(** [base WHERE NOT EXISTS (SELECT FROM subtract WHERE key-equal)], both
    operands bound as common table expressions. *)
Definition not_exists_form (base subtract relation : string) : string :=
  "WITH base AS (" ++ base ++ "), subtract AS (" ++ subtract
  ++ ") SELECT subject_type, subject_id, subject_relation, '" ++ relation
  ++ "', object_type, object_id FROM base b WHERE NOT EXISTS (SELECT FROM subtract s WHERE "
  ++ key_equal compared_columns ++ ")".

(** A row of the per-relation schema. *)
Record row := {
  subject_type : string;
  subject_id : string;
  subject_relation : string;
  relation : string;
  object_type : string;
  object_id : string
}.

Definition column (c : string) (r : row) : option string :=
  if String.eqb c "subject_type" then Some (subject_type r)
  else if String.eqb c "subject_id" then Some (subject_id r)
  else if String.eqb c "subject_relation" then Some (subject_relation r)
  else if String.eqb c "relation" then Some (relation r)
  else if String.eqb c "object_type" then Some (object_type r)
  else if String.eqb c "object_id" then Some (object_id r)
  else None.

(** [split_on sep n s]: the pieces of [s] between occurrences of [sep]. *)
Fixpoint split_on (sep : string) (n : nat) (s : string) : list string :=
  match n with
  | O => [s]
  | S n' =>
      match index 0 sep s with
      | None => [s]
      | Some i =>
          substring 0 i s
          :: split_on sep n'
               (substring (i + String.length sep)
                          (String.length s - i - String.length sep) s)
      end
  end.

Definition strip (p s : string) : option string :=
  if prefix p s
  then Some (substring (String.length p) (String.length s - String.length p) s)
  else None.

(** An equality [b.x=s.y] between a column of the outer and one of the inner
    row. *)
Definition parse_equality (e : string) : option (string * string) :=
  match tuple.cut "="%char e with
  | Some (l, r) =>
      match strip "b." l, strip "s." r with
      | Some x, Some y => Some (x, y)
      | _, _ => None
      end
  | None => None
  end.

Definition equality_holds (b s : row) (e : string) : option bool :=
  match parse_equality e with
  | Some (x, y) =>
      match column x b, column y s with
      | Some v, Some w => Some (String.eqb v w)
      | _, _ => None
      end
  | None => None
  end.

(** Whether a conjunction of such equalities holds of the rows [b], [s]. *)
Fixpoint conjunction_holds (b s : row) (es : list string) : option bool :=
  match es with
  | [] => Some true
  | e :: es' =>
      match equality_holds b s e, conjunction_holds b s es' with
      | Some v, Some w => Some (v && w)
      | _, _ => None
      end
  end.

Definition where_holds (text : string) (b s : row) : option bool :=
  conjunction_holds b s (split_on " AND " (String.length text) text).

(** Two rows equal on the subject and object key columns of the
    per-relation schema. *)
Definition key_equal_rows (b s : row) : bool :=
  String.eqb (subject_type b) (subject_type s)
  && String.eqb (subject_id b) (subject_id s)
  && String.eqb (subject_relation b) (subject_relation s)
  && String.eqb (object_type b) (object_type s)
  && String.eqb (object_id b) (object_id s).

(** Two rows equal on the compared columns, whatever their
    [subject_relation]. *)
Definition compared (b s : row) : bool :=
  String.eqb (subject_type b) (subject_type s)
  && String.eqb (subject_id b) (subject_id s)
  && String.eqb (object_type b) (object_type s)
  && String.eqb (object_id b) (object_id s).

(** [SELECT ... FROM base b WHERE NOT EXISTS (SELECT FROM subtract s WHERE p)]
    read over lists of rows. *)
Definition not_exists (p : row -> row -> bool) (base subtract : list row) : list row :=
  filter (fun b => negb (existsb (p b) subtract)) base.

(** The text after the last occurrence of [sep] in [s]. *)
Fixpoint after_last (sep s : string) : option string :=
  match s with
  | EmptyString => None
  | String c s' =>
      match after_last sep s' with
      | Some rest => Some rest
      | None => strip sep s
      end
  end.

(** [s] without its closing parenthesis. *)
Fixpoint unclosed (s : string) : option string :=
  match s with
  | EmptyString => None
  | String c EmptyString => if Ascii.eqb c ")" then Some EmptyString else None
  | String c s' =>
      match unclosed s' with
      | Some r => Some (String c r)
      | None => None
      end
  end.

(** The condition of the last subquery of a statement: the text between its
    last [WHERE] and its closing parenthesis. *)
Definition subquery_condition (statement : string) : option string :=
  match after_last "WHERE " statement with
  | Some rest => unclosed rest
  | None => None
  end.

(** The rows a difference statement selects from the rows of [base] and
    [subtract]: those of [base] for which no row of [subtract] meets the
    condition of the statement's subquery. *)
Definition difference_rows (statement : string) (base subtract : list row)
  : option (list row) :=
  match subquery_condition statement with
  | Some condition =>
      Some (not_exists (fun b s => match where_holds condition b s with
                                   | Some holds => holds
                                   | None => false
                                   end) base subtract)
  | None => None
  end.

(** [group:eng#member] and [group:eng] as subjects of [document:1]. *)
Definition userset_row : row :=
  {| subject_type := "group"; subject_id := "eng"; subject_relation := "member";
     relation := "viewer"; object_type := "document"; object_id := "1" |}.

Definition object_row : row :=
  {| subject_type := "group"; subject_id := "eng"; subject_relation := "";
     relation := "viewer"; object_type := "document"; object_id := "1" |}.

End relational.

(* ================================================================== *)
(** * Sample inputs *)

Module samples.
Import tuple typesystem storage dispatcher graph.

(** A context that is never cancelled, without and with a type system. *)
Definition background : Context := {| ctx_typesys := None; ctx_err := None |}.

Definition with_typesystem (typesys : TypeSystem) : Context :=
  {| ctx_typesys := Some typesys; ctx_err := None |}.

(** The workers publish in the order they were started. *)
Definition in_order : schedule := {| picks := []; skips := []; done_at := None |}.

Definition always_in_order : scheduler := fun _ _ => in_order.

Definition allowing : CheckHandlerFunc := fun _ => (Ret allowed, []).
Definition denying : CheckHandlerFunc := fun _ => (Ret denied, []).
Definition erring : CheckHandlerFunc :=
  fun _ => (Ret (failed (ErrStorage "unavailable")), []).

(** A check request in store [s], model [m]. *)
Definition check_request (object relation user : string) (depth : N)
  : DispatchCheckRequest :=
  {| StoreId := "s";
     AuthorizationModelId := "m";
     TupleKey := NewTupleKey object relation user;
     ContextualTuples := [];
     ResolutionMetadata_ := {| Depth := depth |} |}.

(** A checker over an in-memory store, its workers publishing in order. *)
Definition memory_checker (tuples : list tuple.TupleKey) (concurrencyLimit : N) (fuel : nat)
  : ConcurrentChecker :=
  NewConcurrentChecker always_in_order fuel (memory tuples) concurrencyLimit.

Definition user_type : RelationReference :=
  {| ref_Type := "user"; ref_RelationOrWildcard := None |}.

Definition folder_type : RelationReference :=
  {| ref_Type := "folder"; ref_RelationOrWildcard := None |}.

Definition group_member : RelationReference :=
  {| ref_Type := "group"; ref_RelationOrWildcard := Some (RefRelation "member") |}.

(** [document.viewer: [user]], [document.parent: [folder]],
    [document.can_read = viewer], [document.inherited = viewer from parent],
    [document.self = self], [folder.viewer: [user]],
    [group.member: [user, group#member]], [group.can_view = member]. *)
Definition model : TypeSystem :=
  [("document",
    [("viewer", {| Rewrite := This; DirectlyRelatedUserTypes := [user_type] |});
     ("parent", {| Rewrite := This; DirectlyRelatedUserTypes := [folder_type] |});
     ("can_read", {| Rewrite := ComputedUserset "viewer"; DirectlyRelatedUserTypes := [] |});
     ("inherited", {| Rewrite := TupleToUserset "parent" "viewer";
                      DirectlyRelatedUserTypes := [] |});
     ("self", {| Rewrite := ComputedUserset "self"; DirectlyRelatedUserTypes := [] |})]);
   ("folder",
    [("viewer", {| Rewrite := This; DirectlyRelatedUserTypes := [user_type] |})]);
   ("group",
    [("member", {| Rewrite := This;
                   DirectlyRelatedUserTypes := [user_type; group_member] |});
     ("can_view", {| Rewrite := ComputedUserset "member";
                     DirectlyRelatedUserTypes := [] |})])].

(** A ListUsers request in store [s], model [m]. *)
Definition list_users_request (object : ObjectRef) (relation : string)
           (targetType targetRelation : string) : listusers.ListUsersRequest :=
  {| listusers.StoreId := "s";
     listusers.AuthorizationModelId := "m";
     listusers.Object := object;
     listusers.Relation := relation;
     listusers.TargetUserObjectType := targetType;
     listusers.TargetUserRelation := targetRelation;
     listusers.ContextualTuples := [] |}.

Definition group_eng : ObjectRef := {| Type_ := "group"; Id := "eng" |}.

(** [document:1#viewer@employee:bob]: [viewer] admits users of type [user]
    only. *)
Definition invalid_tuple : tuple.TupleKey :=
  NewTupleKey "document:1" "viewer" "employee:bob".

(** [document:1#viewer@group:eng#member]: [viewer] admits no userset. *)
Definition invalid_userset_tuple : tuple.TupleKey :=
  NewTupleKey "document:1" "viewer" "group:eng#member".

Definition member_tuple : tuple.TupleKey :=
  NewTupleKey "group:eng" "member" "user:jon".

End samples.

(* ================================================================== *)
(** * Occupancy of the limiter and of the result channels *)

Module occupancy.
Import runtime.

(** The worker is in [fn(ctx)] or about to send its outcome. *)
Definition evaluating (w : nat * worker_pc) : bool :=
  match snd w with
  | Evaluating => true
  | _ => false
  end.

(** The worker has not yet run [<-limiter]: it holds a slot. *)
Definition holds_slot (w : nat * worker_pc) : bool :=
  match snd w with
  | Evaluating | Sent => true
  | Freed => false
  end.

(** Slots taken for a worker that is not started yet. *)
Definition reserved (s : state) : nat :=
  match orchestrator s with
  | Acquired _ | Counted _ => 1
  | _ => 0
  end
  + match reducer s with
    | Slotted _ | CountedFor _ => 1
    | _ => 0
    end.

(** The tokens in the limiter are the slots held and reserved, and the
    limiter never holds more than its capacity. *)
Definition slots_accounted (K : nat) (s : state) : Prop :=
  limiter s = reserved s + length (filter holds_slot (workers s)) /\ limiter s <= K.

(** The handlers the orchestrator of [resolver] is past. *)
Definition passed (n : nat) (s : state) : nat :=
  match orchestrator s with
  | Selecting j | Acquired j | Counted j => j
  | Exited => n
  end.

(** The outcomes sent or still to be sent by a started worker are no more
    than the handlers the orchestrator is past. *)
Definition room_left (n : nat) (s : state) : Prop :=
  length (resultChan s) + length (filter evaluating (workers s)) <= passed n s
  /\ passed n s <= n
  /\ match orchestrator s with
     | Acquired j | Counted j => j < n
     | _ => True
     end.

(** The outcomes of worker [k] of [exclusion] that are sent and not
    received, or still to be sent. *)
Definition outstanding (k : nat) (s : state) : nat :=
  count_occ Nat.eq_dec (resultChan s) k
  + length (filter (fun w => (fst w =? k)%nat && evaluating w) (workers s)).

(** The workers of [exclusion] that are started. *)
Definition spawned (k : nat) (s : state) : bool :=
  match reducer s with
  | Starting j | Slotted j | CountedFor j => (k <? j)%nat
  | _ => (k <? 2)%nat
  end.

Definition one_outcome_each (s : state) : Prop :=
  (forall k, outstanding k s <= (if spawned k s then 1 else 0))
  /\ match reducer s with
     | Starting j | Slotted j | CountedFor j => j <= 1
     | _ => True
     end.

(** A run of [union] over two handlers with limit one, up to the start of
    the first worker. *)
Definition first_worker_started : state :=
  {| reducer := Looping 0; orchestrator := Selecting 1; workers := [(0, Evaluating)];
     limiter := 1; wg := 2; resultChan := [];
     cctx_done := false; ctx_done := false |}.

End occupancy.

(* ================================================================== *)
(** * Further vocabulary *)

Module conduct.
Import tuple typesystem storage dispatcher graph.

(** The call returned: it neither panicked nor blocked. *)
Definition returns {A : Type} (r : run A) : bool :=
  match fst r with
  | Ret _ => true
  | Abort _ => false
  end.

(** The call never returns: it waits on a channel nobody sends on. *)
Definition blocks {A : Type} (r : run A) : Prop := fst r = Abort Blocked.

End conduct.

Module shapes.
Import tuple typesystem storage dispatcher graph.

(** The rewrite has no [Difference]. *)
Fixpoint exclusion_free (rewrite : Userset) : bool :=
  match rewrite with
  | This | ComputedUserset _ | TupleToUserset _ _ => true
  | Union child | Intersection child => forallb exclusion_free child
  | Difference _ _ => false
  end.

(** No relation of the model is defined with a [Difference]. *)
Definition model_exclusion_free (typesys : TypeSystem) : bool :=
  forallb (fun t => forallb (fun r => exclusion_free (Rewrite (snd r))) (snd t)) typesys.

(** Two handlers that return the same under every context that is never
    cancelled and carries the model [typesys]. *)
Definition same_when_live (typesys : TypeSystem) (h h' : CheckHandlerFunc) : Prop :=
  forall ctx, ctx_err ctx = None -> ctx_typesys ctx = Some typesys -> h ctx = h' ctx.

Definition same_built_when_live (typesys : TypeSystem) (r r' : call CheckHandlerFunc)
  : Prop :=
  match r, r' with
  | Ret h, Ret h' => same_when_live typesys h h'
  | Abort x, Abort x' => x = x'
  | _, _ => False
  end.

Definition same_handlers_when_live (typesys : TypeSystem)
           (r r' : list CheckHandlerFunc + error) : Prop :=
  match r, r' with
  | inl hs, inl hs' => Forall2 (same_when_live typesys) hs hs'
  | inr e, inr e' => e = e'
  | _, _ => False
  end.

End shapes.


Module requests.
Import tuple typesystem storage dispatcher graph.

(** The request [checkRewrite] dispatches for a computed userset: the same
    object and user under the relation named, one level of depth lower. *)
Definition computed_request (req : DispatchCheckRequest) (relation : string)
  : DispatchCheckRequest :=
  {| StoreId := StoreId req;
     AuthorizationModelId := AuthorizationModelId req;
     TupleKey := NewTupleKey (Object (TupleKey req)) relation (User (TupleKey req));
     ContextualTuples := [];
     ResolutionMetadata_ :=
       {| Depth := uint32_pred (Depth (ResolutionMetadata_ req)) |} |}.

(** The relation the request is about, under the model. *)
Definition relation_of (typesys : TypeSystem) (req : DispatchCheckRequest)
  : typesystem.Relation + error :=
  GetRelation typesys (fst (SplitObject (Object (TupleKey req))))
              (tuple.Relation (TupleKey req)).

(** [DispatchCheck] answered allowed. *)
Definition dispatch_allowed (r : run dispatchOutcome) : bool :=
  match fst r with
  | Ret (Some {| dispatcher.Allowed := true |}, None) => true
  | _ => false
  end.

End requests.


Module contextual.
Import tuple typesystem storage dispatcher graph.

(** The request with other contextual tuples. *)
Definition with_contextual_tuples (req : DispatchCheckRequest) (tuples : list tuple.TupleKey)
  : DispatchCheckRequest :=
  {| StoreId := StoreId req;
     AuthorizationModelId := AuthorizationModelId req;
     TupleKey := TupleKey req;
     ContextualTuples := tuples;
     ResolutionMetadata_ := ResolutionMetadata_ req |}.

(** The events after the first. *)
Definition after_first {A : Type} (r : run A) : list event := tl (snd r).

End contextual.


Module isolation.
Import tuple typesystem storage dispatcher graph.

(** Two datastores that answer alike for the store given, whatever they
    hold for other stores. *)
Definition same_content (store : string) (ds1 ds2 : OpenFGADatastore) : Prop :=
  (forall tk, Read ds1 store tk = Read ds2 store tk)
  /\ (forall tk, ReadUserTuple ds1 store tk = ReadUserTuple ds2 store tk)
  /\ (forall tk, ReadUsersetTuples ds1 store tk = ReadUsersetTuples ds2 store tk).

(** The datastore that answers as [own] for [store] and as [others] for any
    other store. *)
Definition beside (store : string) (own others : OpenFGADatastore) : OpenFGADatastore :=
  {| Read := fun s tk =>
       if String.eqb s store then Read own s tk else Read others s tk;
     ReadUserTuple := fun s tk =>
       if String.eqb s store then ReadUserTuple own s tk else ReadUserTuple others s tk;
     ReadUsersetTuples := fun s tk =>
       if String.eqb s store then ReadUsersetTuples own s tk
       else ReadUsersetTuples others s tk |}.

End isolation.


Module expansions.
Import tuple typesystem storage listusers.

(** The rewrites [expand] handles. *)
Definition expandable (rewrite : Userset) : bool :=
  match rewrite with
  | This | ComputedUserset _ | TupleToUserset _ _ => true
  | Union _ | Intersection _ | Difference _ _ => false
  end.

(** Every relation of the model is defined by a rewrite [expand] handles. *)
Definition model_expandable (typesys : TypeSystem) : bool :=
  forallb (fun t => forallb (fun r => expandable (Rewrite (snd r))) (snd t)) typesys.

(** The call panicked. *)
Definition panicked {A : Type} (r : call A) : bool :=
  match r with
  | Abort (Panic _) | Abort (PanicErr _) => true
  | _ => false
  end.

(** The object a user string names, when it names an object and not a
    userset. *)
Definition user_object (user : string) : option ObjectRef :=
  let (userObject, userRelation) := SplitObjectRelation user in
  let (userObjectType, userObjectID) := SplitObject userObject in
  if String.eqb userRelation "" then Some {| Type_ := userObjectType; Id := userObjectID |}
  else None.

(** The key [expandDirect] reads. *)
Definition direct_key (req : ListUsersRequest) : TupleKey :=
  {| tuple.Object := ObjectKey (Object req);
     tuple.Relation := Relation req;
     User := "" |}.

End expansions.

Module scenarios.
Import tuple typesystem storage dispatcher graph listusers samples.

(** [team.owner: [user]], [team.member: [user] or owner]. *)
Definition team_model : TypeSystem :=
  [("team",
    [("owner", {| Rewrite := This; DirectlyRelatedUserTypes := [user_type] |});
     ("member", {| Rewrite := Union [This; ComputedUserset "owner"];
                   DirectlyRelatedUserTypes := [user_type] |})])].

Definition team_jazz : ObjectRef := {| Type_ := "team"; Id := "jazz" |}.

Definition user_jon : ObjectRef := {| Type_ := "user"; Id := "jon" |}.

End scenarios.


Module statements.
Import tuple typesystem materializer.

(** The call returned a value. *)
Definition returned_value {A : Type} (r : call A) : bool :=
  match r with
  | Ret _ => true
  | Abort _ => false
  end.

(** The rewrites of a relation that [materializeInternalWithRewrite] turns
    into a statement: under [This] the relation itself is defined, under a
    tuple-to-userset its tupleset relation is, and no intersection is
    without operand. *)
Fixpoint materializable (typesys : TypeSystem) (objectType relation : string)
         (rewrite : Userset) {struct rewrite} : bool :=
  match rewrite with
  | This =>
      match GetRelation typesys objectType relation with
      | inl _ => true
      | inr _ => false
      end
  | ComputedUserset _ => true
  | TupleToUserset tupleset _ =>
      match GetRelation typesys objectType tupleset with
      | inl _ => true
      | inr _ => false
      end
  | Union child => forallb (materializable typesys objectType relation) child
  | Intersection child =>
      match child with
      | [] => false
      | _ => forallb (materializable typesys objectType relation) child
      end
  | Difference base subtract =>
      materializable typesys objectType relation base
      && materializable typesys objectType relation subtract
  end.

(** A call that fails only by one of the panics of a failed lookup: an
    index out of range, or the error of the type system. *)
Definition lookup_panic {A : Type} (r : call A) : Prop :=
  match r with
  | Ret _ => True
  | Abort x => x = Panic index_out_of_range \/ exists e, x = PanicErr e
  end.

(** A reference to a wildcard, or to a relation with an empty name:
    [materializeDirect] passes over both. *)
Definition passed_over (ref : RelationReference) : bool :=
  match ref_RelationOrWildcard ref with
  | Some RefWildcard => true
  | Some (RefRelation relation) => String.eqb relation ""
  | None => false
  end.

End statements.


Module provenance.
Import tuple typesystem storage dispatcher graph.

(** The error a dispatch returned, if it returned one. *)
Definition dispatch_error (r : run dispatchOutcome) : option error :=
  match fst r with
  | Ret (_, e) => e
  | Abort _ => None
  end.

(** Every error the run returns is one of [P]. *)
Definition errors_within (P : error -> Prop) (r : run checkOutcome) : Prop :=
  forall e,
    match fst r with
    | Ret o => err o = Some e
    | Abort _ => False
    end -> P e.

(** An error of the datastore: one that a read, a lookup or an iterator of
    the datastore reports. *)
Definition datastore_error (ds : OpenFGADatastore) (e : error) : Prop :=
  (exists store tk, Read ds store tk = inr e)
  \/ (exists store tk, ReadUsersetTuples ds store tk = inr e)
  \/ (exists store tk t, ReadUserTuple ds store tk = (t, Some e))
  \/ (exists store tk iter, Read ds store tk = inl iter /\ In (inr e) iter)
  \/ (exists store tk iter, ReadUsersetTuples ds store tk = inl iter /\ In (inr e) iter).

(** The errors a Check can return: its own two, the error of the context,
    and the errors of the datastore. *)
Definition check_error (ds : OpenFGADatastore) (ctx : Context) (e : error) : Prop :=
  e = ErrResolutionDepthExceeded
  \/ (exists relation objectType, e = ErrRelationUndefined relation objectType)
  \/ ctx_err ctx = Some e
  \/ datastore_error ds e.

End provenance.


Module publics.
Import tuple typesystem samples.

Definition user_wildcard : RelationReference :=
  {| ref_Type := "user"; ref_RelationOrWildcard := Some RefWildcard |}.

(** [document.viewer: [user, user:*, group#member]]. *)
Definition public_viewer : typesystem.Relation :=
  {| Rewrite := This;
     DirectlyRelatedUserTypes := [user_type; user_wildcard; group_member] |}.

(** [document.viewer: [user, group#member]]. *)
Definition private_viewer : typesystem.Relation :=
  {| Rewrite := This; DirectlyRelatedUserTypes := [user_type; group_member] |}.

Definition public_model : TypeSystem := [("document", [("viewer", public_viewer)])].

Definition private_model : TypeSystem := [("document", [("viewer", private_viewer)])].

End publics.


(* ================================================================== *)
(** * materializer: the view of an index *)

Module views.
Import tuple typesystem materializer.
Local Open Scope string_scope.

Definition MaterializationDialect := string.

Definition PostgresMaterializerDialect : MaterializationDialect := "postgresql".
Definition MySQLMaterializerDialect : MaterializationDialect := "mysql".
Definition MaterializeMaterializerDialect : MaterializationDialect := "materialize".

Record MaterializerInput := {
  Dialect : MaterializationDialect;
  IndexName : string;
  Typesystem : TypeSystem
}.

(** A Go map as the list of its entries, each key once.  [store k v m] is
    the assignment [m[k] = v]. *)
Fixpoint store {A : Type} (k : string) (v : A) (m : list (string * A))
  : list (string * A) :=
  match m with
  | [] => [(k, v)]
  | (k', v') :: m' =>
      if String.eqb k k' then (k, v) :: m' else (k', v') :: store k v m'
  end.

(** Go ranges over a map in an order of its choosing: each pick takes one of
    the entries not yet visited. *)
Fixpoint visit {A : Type} (n : nat) (picks : list nat) (m : list A) : list A :=
  match n with
  | O => []
  | S n' =>
      let p := hd 0 picks mod length m in
      match nth_error m p with
      | Some entry => entry :: visit n' (tl picks) (graph.remove_nth p m)
      | None => []
      end
  end.

Definition range {A : Type} (picks : list nat) (m : list A) : list A :=
  visit (length m) picks m.

(** The choices of the runtime in one call of [Materialize]: the order of
    its three ranges. *)
Record iteration := {
  over_types : list nat;
  over_relations : string -> list nat;
  over_statements : list nat
}.

(** The entries of an association list as a map has them: for a key given
    twice, the entry [lookup] finds. *)
Fixpoint once {A : Type} (m : list (string * A)) : list (string * A) :=
  match m with
  | [] => []
  | (k, v) :: m' => (k, v) :: filter (fun entry => negb (String.eqb (fst entry) k)) (once m')
  end.

(** Modelled from the spec:
    [GetAllRelations() -> {objectType -> {relationName -> Rewrite}}]. *)
Definition GetAllRelations (ts : TypeSystem)
  : list (string * list (string * typesystem.Relation)) :=
  map (fun t => (fst t, once (snd t))) (once ts).

(** The inner loop of the first range of [Materialize]. *)
Fixpoint materialize_relations (typesys : TypeSystem) (objectType : string)
         (relations : list (string * typesystem.Relation))
         (statements : list (string * namedSQLStatement))
  : call (list (string * namedSQLStatement)) :=
  match relations with
  | [] => Ret statements
  | (relationName, _) :: rest =>
      match materializeInternal typesys objectType relationName with
      | Abort x => Abort x
      | Ret namedStatement =>
          materialize_relations typesys objectType rest
                                (store (name namedStatement) namedStatement statements)
      end
  end.

(** The first range of [Materialize]. *)
Fixpoint materialize_types (it : iteration) (typesys : TypeSystem)
         (types : list (string * list (string * typesystem.Relation)))
         (statements : list (string * namedSQLStatement))
  : call (list (string * namedSQLStatement)) :=
  match types with
  | [] => Ret statements
  | (objectType, relations) :: rest =>
      match materialize_relations typesys objectType
                                  (range (over_relations it objectType) relations)
                                  statements with
      | Abort x => Abort x
      | Ret statements' => materialize_types it typesys rest statements'
      end
  end.

(** The statements of the relations of the model, by name. *)
Definition statements_of (it : iteration) (typesys : TypeSystem)
  : call (list (string * namedSQLStatement)) :=
  materialize_types it typesys (range (over_types it) (GetAllRelations typesys)) [].

Definition unsupported (dialect : MaterializationDialect) : string :=
  "unsupported SQL dialect provided '" ++ dialect ++ "'".

(** The second range of [Materialize], [n] being [len(statements)]. *)
Fixpoint views (dialect : MaterializationDialect) (n i : nat)
         (statements : list (string * namedSQLStatement))
         (viewbody viewselect : string) : (string * string) + string :=
  match statements with
  | [] => inl (viewbody, viewselect)
  | (statementName, statement) :: rest =>
      if (n - 1 <=? i)%nat then
        if String.eqb dialect PostgresMaterializerDialect
           || String.eqb dialect MySQLMaterializerDialect
        then views dialect n (S i) rest
               (viewbody ++ statementName
                ++ "(subject_type, subject_id, subject_relation, relation, object_type, object_id) AS ("
                ++ sql statement ++ ")")
               (viewselect ++ "SELECT * FROM " ++ statementName)
        else if String.eqb dialect MaterializeMaterializerDialect
        then views dialect n (S i) rest
               (viewbody ++ statementName
                ++ "(subject_type TEXT, subject_id TEXT, subject_relation TEXT, relation TEXT, object_type TEXT, object_id TEXT) AS ("
                ++ sql statement ++ ")")
               (viewselect ++ "SELECT * FROM " ++ statementName)
        else inr (unsupported dialect)
      else
        if String.eqb dialect PostgresMaterializerDialect
           || String.eqb dialect MySQLMaterializerDialect
        then views dialect n (S i) rest
               (viewbody ++ statementName
                ++ "(subject_type, subject_id, subject_relation, relation, object_type, object_id) AS ("
                ++ sql statement ++ "),")
               (viewselect ++ "SELECT * FROM " ++ statementName ++ " UNION ALL ")
        else if String.eqb dialect MaterializeMaterializerDialect
        then views dialect n (S i) rest
               (viewbody ++ statementName
                ++ "(subject_type TEXT, subject_id TEXT, subject_relation TEXT, relation TEXT, object_type TEXT, object_id TEXT) AS ("
                ++ sql statement ++ "),")
               (viewselect ++ "SELECT * FROM " ++ statementName ++ " UNION ALL ")
        else inr (unsupported dialect)
  end.

(** [Materialize]: the statement and the error it returns. *)
Definition Materialize (it : iteration) (input : MaterializerInput)
  : call (string * option string) :=
  let typesys := Typesystem input in
  match statements_of it typesys with
  | Abort x => Abort x
  | Ret statements =>
      match views (Dialect input) (length statements) 0
                  (range (over_statements it) statements) "" "" with
      | inr e => Ret ("", Some e)
      | inl (viewbody, viewselect) =>
          if String.eqb (Dialect input) PostgresMaterializerDialect
             || String.eqb (Dialect input) MySQLMaterializerDialect
          then Ret (nl ++ tab ++ tab ++ "CREATE VIEW " ++ IndexName input
                    ++ " AS WITH RECURSIVE" ++ nl
                    ++ tab ++ tab ++ tab ++ viewbody ++ nl
                    ++ tab ++ tab ++ viewselect ++ ";", None)
          else if String.eqb (Dialect input) MaterializeMaterializerDialect
          then Ret (nl ++ tab ++ "CREATE VIEW " ++ IndexName input
                    ++ " AS WITH MUTUALLY RECURSIVE" ++ nl
                    ++ tab ++ tab ++ viewbody ++ nl ++ nl
                    ++ tab ++ viewselect ++ ";", None)
          else Ret ("", Some (unsupported (Dialect input)))
      end
  end.

(** The dialects [Materialize] knows. *)
Definition supported (dialect : MaterializationDialect) : bool :=
  String.eqb dialect PostgresMaterializerDialect
  || String.eqb dialect MySQLMaterializerDialect
  || String.eqb dialect MaterializeMaterializerDialect.

(** Every relation of the model has a statement. *)
Definition model_materializable (typesys : TypeSystem) : bool :=
  forallb (fun t =>
             forallb (fun r => statements.materializable typesys (fst t) (fst r)
                                                         (Rewrite (snd r)))
                     (snd t))
          (GetAllRelations typesys).

(** The ranges in the order of the entries. *)
Definition in_turn : iteration :=
  {| over_types := []; over_relations := fun _ => []; over_statements := [] |}.

End views.

Module names.
Import tuple typesystem materializer views samples.
Local Open Scope string_scope.

(** The entries of the map of statements are statements of relations of
    the model, each under its own name. *)
Definition named_after (typesys : TypeSystem)
           (statements : list (string * namedSQLStatement)) : Prop :=
  forall k statement,
    In (k, statement) statements ->
    name statement = k
    /\ exists objectType relation,
        underscore objectType relation = k
        /\ materializeInternal typesys objectType relation = Ret statement.

(** [type_a.b: [user]] and [type.a_b: c]: two relations, one name. *)
Definition clash_model : TypeSystem :=
  [("type_a", [("b", {| Rewrite := This; DirectlyRelatedUserTypes := [user_type] |})]);
   ("type", [("a_b", {| Rewrite := ComputedUserset "c"; DirectlyRelatedUserTypes := [] |})])].

End names.


(* ================================================================== *)
(** * pkg/conditions: typed parameters *)

Module conditions.
Import typesystem graph views.
Local Open Scope string_scope.

(** [openfgapb.ConditionTypeReference]; a reference is held by pointer,
    [None] being the nil pointer. *)
Inductive ConditionTypeReference : Type :=
| TypeReference (TypeName : string)
                (GenericTypes : list (option ConditionTypeReference)).

Definition TypeName (ref : ConditionTypeReference) : string :=
  match ref with TypeReference name _ => name end.

Definition GenericTypes (ref : ConditionTypeReference)
  : list (option ConditionTypeReference) :=
  match ref with TypeReference _ generics => generics end.

(** An entry of [paramTypeDefinitions]. *)
Record paramTypeDefinition (ParameterType : Type) : Type := {
  genericTypeCount : nat;
  toParameterType : list ParameterType -> ParameterType + string
}.

Section Types.

(** The types of the package that the functions below use: the parameter
    types, Go's [any], the table of the known types and the conversion of a
    value to a type. *)
Variable ParameterType : Type.
Variable any : Type.
Variable paramTypeDefinitions : string -> option (paramTypeDefinition ParameterType).
Variable ConvertValue : ParameterType -> any -> any + string.

(** [DecodeParameterType] on a reference that is not nil. *)
Fixpoint decode (conditionParamType : ConditionTypeReference)
  : call (ParameterType + string) :=
  match paramTypeDefinitions (TypeName conditionParamType) with
  | None =>
      Ret (inr ("unknown condition parameter type `"
                ++ TypeName conditionParamType ++ "`"))
  | Some paramTypedef =>
      if negb (length (GenericTypes conditionParamType)
               =? genericTypeCount paramTypedef)%nat
      then Ret (inr ("condition parameter type `" ++ TypeName conditionParamType
                     ++ "` requires "
                     ++ decimal (length (GenericTypes conditionParamType))
                     ++ " generic types; found "
                     ++ decimal (genericTypeCount paramTypedef)))
      else
        match conditionParamType with
        | TypeReference _ generics =>
            (fix range_generics (generics : list (option ConditionTypeReference))
                 (genericTypes : list ParameterType) {struct generics}
               : call (ParameterType + string) :=
               match generics with
               | [] => Ret (toParameterType paramTypedef genericTypes)
               | None :: _ => Abort (Panic nil_dereference)
               | Some encodedGenericType :: rest =>
                   match decode encodedGenericType with
                   | Abort x => Abort x
                   | Ret (inr err) => Ret (inr err)
                   | Ret (inl genericType) =>
                       range_generics rest (genericTypes ++ [genericType])%list
                   end
               end) generics []
        end
  end.

(** [DecodeParameterType]: reading the name of a nil reference panics. *)
Definition DecodeParameterType (conditionParamType : option ConditionTypeReference)
  : call (ParameterType + string) :=
  match conditionParamType with
  | None => Abort (Panic nil_dereference)
  | Some ref => decode ref
  end.

(** The range of [CastContextToTypedParameters] over the entries of the
    context that are left. *)
Fixpoint cast_entries
         (conditionParameterTypes : list (string * option ConditionTypeReference))
         (entries converted : list (string * any))
  : call (option (list (string * any)) * option string) :=
  match entries with
  | [] => Ret (Some converted, None)
  | (key, value) :: rest =>
      match lookup key conditionParameterTypes with
      | None => cast_entries conditionParameterTypes rest converted
      | Some paramTypeRef =>
          match DecodeParameterType paramTypeRef with
          | Abort x => Abort x
          | Ret (inr err) =>
              Ret (None,
                   Some ("failed to decode condition parameter type '"
                         ++ match paramTypeRef with
                            | Some ref => TypeName ref
                            | None => ""
                            end
                         ++ "': " ++ err))
          | Ret (inl varType) =>
              match ConvertValue varType value with
              | inr err =>
                  Ret (None,
                       Some ("failed to convert context parameter '" ++ key
                             ++ "': " ++ err))
              | inl convertedParam =>
                  cast_entries conditionParameterTypes rest
                               (store key convertedParam converted)
              end
          end
      end
  end.

(** [CastContextToTypedParameters]: the two maps as the lists of their
    entries, [picks] the order in which the runtime ranges over the context;
    the result is the converted map ([None] for nil) and the error. *)
Definition CastContextToTypedParameters (picks : list nat)
           (contextMap : list (string * any))
           (conditionParameterTypes : list (string * option ConditionTypeReference))
  : call (option (list (string * any)) * option string) :=
  if (length (once contextMap) =? 0)%nat then Ret (None, None)
  else if (length (once conditionParameterTypes) =? 0)%nat
       then Ret (None, Some "no parameters defined for the condition")
       else cast_entries conditionParameterTypes (range picks (once contextMap)) [].

(** The typed value of an entry of the context: there is one when the key
    has a parameter type that decodes and to which the value converts. *)
Definition typed (conditionParameterTypes : list (string * option ConditionTypeReference))
           (key : string) (value : any) : option any :=
  match lookup key conditionParameterTypes with
  | None => None
  | Some paramTypeRef =>
      match DecodeParameterType paramTypeRef with
      | Ret (inl varType) =>
          match ConvertValue varType value with
          | inl convertedParam => Some convertedParam
          | inr _ => None
          end
      | _ => None
      end
  end.

(** An entry of the context that does not stand in the way: its key has no
    parameter type, or it has a typed value. *)
Definition passes (conditionParameterTypes : list (string * option ConditionTypeReference))
           (entry : string * any) : bool :=
  match lookup (fst entry) conditionParameterTypes with
  | None => true
  | Some _ =>
      match typed conditionParameterTypes (fst entry) (snd entry) with
      | Some _ => true
      | None => false
      end
  end.

(** The call returned a map, and no error. *)
Definition converts (r : call (option (list (string * any)) * option string)) : bool :=
  match r with
  | Ret (Some _, None) => true
  | _ => false
  end.

(** The error of a reference, as [DecodeParameterType] words it. *)
Definition reported (node : ConditionTypeReference) (e : string) : Prop :=
  (paramTypeDefinitions (TypeName node) = None
   /\ e = "unknown condition parameter type `" ++ TypeName node ++ "`")
  \/ (exists paramTypedef,
         paramTypeDefinitions (TypeName node) = Some paramTypedef
         /\ length (GenericTypes node) <> genericTypeCount paramTypedef
         /\ e = "condition parameter type `" ++ TypeName node ++ "` requires "
                ++ decimal (length (GenericTypes node)) ++ " generic types; found "
                ++ decimal (genericTypeCount paramTypedef))
  \/ (exists paramTypedef types,
         paramTypeDefinitions (TypeName node) = Some paramTypedef
         /\ toParameterType paramTypedef types = inr e).

End Types.

(** The references of a type reference: itself and those of its generic
    types. *)
Fixpoint references (ref : ConditionTypeReference) : list ConditionTypeReference :=
  ref :: match ref with
         | TypeReference _ generics =>
             flat_map (fun g => match g with
                                | Some encodedGenericType => references encodedGenericType
                                | None => []
                                end) generics
         end.

(** A sample of the package's types: [int] and [string] without generic
    type, [list] with one; a value converts to any type but [string]. *)
Definition sample_types : string -> option (paramTypeDefinition string) :=
  fun name =>
    if String.eqb name "int" then
      Some {| genericTypeCount := 0; toParameterType := fun _ => inl "int" |}
    else if String.eqb name "string" then
      Some {| genericTypeCount := 0; toParameterType := fun _ => inl "string" |}
    else if String.eqb name "list" then
      Some {| genericTypeCount := 1;
              toParameterType := fun generics =>
                                   match generics with
                                   | [t] => inl ("list<" ++ t ++ ">")
                                   | _ => inr "list needs one generic type"
                                   end |}
    else None.

Definition int_reference : option ConditionTypeReference :=
  Some (TypeReference "int" []).

Definition sample_convert (t : string) (v : nat) : nat + string :=
  if String.eqb t "string" then inr "not a string" else inl (S v).

End conditions.


Module listed.
Import tuple typesystem storage listusers.

(** The [ListUsers] request with other contextual tuples. *)
Definition with_other_tuples (req : ListUsersRequest) (tuples : list tuple.TupleKey)
  : ListUsersRequest :=
  {| StoreId := StoreId req;
     AuthorizationModelId := AuthorizationModelId req;
     Object := Object req;
     Relation := Relation req;
     TargetUserObjectType := TargetUserObjectType req;
     TargetUserRelation := TargetUserRelation req;
     ContextualTuples := tuples |}.

(** Two requests that differ in their contextual tuples at most. *)
Definition same_query (req req' : ListUsersRequest) : Prop :=
  StoreId req' = StoreId req
  /\ AuthorizationModelId req' = AuthorizationModelId req
  /\ Object req' = Object req
  /\ Relation req' = Relation req
  /\ TargetUserObjectType req' = TargetUserObjectType req
  /\ TargetUserRelation req' = TargetUserRelation req.

End listed.

(* ================================================================== *)
(** * Properties *)

Import tuple typesystem storage dispatcher graph outcomes samples relational.
Import runtime.

(** ** The order in which workers publish *)

Section PublishOrder.

Context {A : Type}.

Lemma remove_nth_length (p : nat) (l : list A) :
  p < length l -> length (remove_nth p l) = length l - 1.
Proof.
  revert p; induction l as [|x l IH]; intros [|p] Hp; simpl in *; try lia.
  rewrite IH by lia. lia.
Qed.

Lemma remove_nth_perm (p : nat) (l : list A) (x : A) :
  nth_error l p = Some x -> Permutation l (x :: remove_nth p l).
Proof.
  revert p; induction l as [|y l IH]; intros [|p] Hp; simpl in *; try discriminate.
  - injection Hp as ->. reflexivity.
  - rewrite perm_swap. constructor. now apply IH.
Qed.

(** Whatever the limit and the picks, the workers that publish are distinct
    handlers of the invocation. *)
Lemma publish_order_sub (n K : nat) (inflight pending : list A) (picks : list nat) :
  exists rest,
    Permutation (publish_order n K inflight pending picks ++ rest) (inflight ++ pending).
Proof.
  revert inflight pending picks.
  induction n as [|n IH]; intros inflight pending picks; simpl.
  - exists (inflight ++ pending). reflexivity.
  - set (free := K - length inflight).
    set (inflight' := inflight ++ firstn free pending).
    set (p := hd 0 picks mod length inflight').
    destruct (nth_error inflight' p) as [fn|] eqn:Hnth.
    + destruct (IH (remove_nth p inflight') (skipn free pending) (tl picks)) as [rest Hrest].
      exists rest. simpl. rewrite Hrest.
      rewrite app_comm_cons, <- (remove_nth_perm _ _ Hnth).
      unfold inflight'. rewrite <- app_assoc, firstn_skipn. reflexivity.
    + exists (inflight ++ pending). reflexivity.
Qed.

(** With a limit of at least one every handler publishes. *)
Lemma publish_order_perm (n K : nat) (inflight pending : list A) (picks : list nat) :
  0 < K -> length inflight <= K -> n = length inflight + length pending ->
  Permutation (publish_order n K inflight pending picks) (inflight ++ pending).
Proof.
  intros HK. revert inflight pending picks.
  induction n as [|n IH]; intros inflight pending picks Hin Hn; simpl.
  - destruct inflight; destruct pending; simpl in *; try lia. constructor.
  - set (free := K - length inflight).
    set (inflight' := inflight ++ firstn free pending).
    set (p := hd 0 picks mod length inflight').
    assert (Hlen : length inflight' = length inflight + Nat.min free (length pending)).
    { unfold inflight'. now rewrite length_app, length_firstn. }
    assert (Hpos : 0 < length inflight') by (unfold free in *; lia).
    assert (Hp : p < length inflight') by (apply Nat.mod_upper_bound; lia).
    destruct (nth_error inflight' p) as [fn|] eqn:Hnth.
    2:{ apply nth_error_None in Hnth. lia. }
    rewrite IH.
    + rewrite app_comm_cons, <- (remove_nth_perm _ _ Hnth).
      unfold inflight'. rewrite <- app_assoc, firstn_skipn. reflexivity.
    + rewrite remove_nth_length by exact Hp. unfold free in *. lia.
    + rewrite remove_nth_length by exact Hp. rewrite length_skipn. unfold free in *. lia.
Qed.

(** With a limit of zero no slot is ever free and nothing is published. *)
Lemma publish_order_zero (n : nat) (pending : list A) (picks : list nat) :
  publish_order n 0 [] pending picks = [].
Proof.
  destruct n as [|n]; [reflexivity|].
  cbn [publish_order Nat.sub length firstn app].
  now destruct (hd 0 picks mod 0).
Qed.

(** With a limit of one the handlers publish in the order given. *)
Lemma publish_order_one (pending : list A) (picks : list nat) :
  publish_order (length pending) 1 [] pending picks = pending.
Proof.
  revert picks. induction pending as [|x pending IH]; intros picks; simpl.
  - reflexivity.
  - f_equal. apply IH.
Qed.

End PublishOrder.

(** ** What the reducers receive *)

Lemma fst_traced {A : Type} (t : list event) (r : run A) : fst (traced t r) = fst r.
Proof. reflexivity. Qed.

Lemma is_allowed_traced (t : list event) (r : run checkOutcome) :
  is_allowed (traced t r) = is_allowed r.
Proof. reflexivity. Qed.

Lemma is_denied_traced (t : list event) (r : run checkOutcome) :
  is_denied (traced t r) = is_denied r.
Proof. reflexivity. Qed.

Lemma started_sub {A : Type} (skips : list bool) (handlers : list A) :
  exists rest, Permutation (started skips handlers ++ rest) handlers.
Proof.
  revert skips. induction handlers as [|fn handlers IH]; intros skips.
  - exists []. destruct skips; reflexivity.
  - destruct skips as [|[|] skips]; simpl.
    + exists []. now rewrite app_nil_r.
    + destruct (IH skips) as [rest Hrest]. exists (fn :: rest).
      rewrite <- Permutation_middle. now constructor.
    + destruct (IH skips) as [rest Hrest]. exists rest. now constructor.
Qed.

Lemma started_map {A B : Type} (f : A -> B) (skips : list bool) (handlers : list A) :
  map f (started skips handlers) = started skips (map f handlers).
Proof.
  revert skips. induction handlers as [|fn handlers IH]; intros [|[|] skips]; simpl;
    try reflexivity; now rewrite IH.
Qed.

Lemma resolver_sub (s : schedule) (ctx : Context) (K : N) (handlers : list CheckHandlerFunc) :
  exists rest,
    Permutation (resolver s ctx K handlers ++ rest) (map (fun fn => fn ctx) handlers).
Proof.
  unfold resolver.
  set (pending := match ctx_err ctx with
                  | None => handlers
                  | Some _ => started (skips s) handlers
                  end).
  destruct (publish_order_sub (length handlers) (N.to_nat K) [] pending (picks s))
    as [rest Hrest].
  assert (Hpending : exists rest', Permutation (pending ++ rest') handlers).
  { unfold pending. destruct (ctx_err ctx); [apply started_sub|].
    exists []. now rewrite app_nil_r. }
  destruct Hpending as [rest' Hrest'].
  exists (map (fun fn => fn ctx) (rest ++ rest')).
  rewrite <- map_app. apply Permutation_map.
  rewrite app_assoc, Hrest. exact Hrest'.
Qed.

Lemma resolver_perm (s : schedule) (ctx : Context) (K : N) (handlers : list CheckHandlerFunc) :
  K <> 0%N -> ctx_err ctx = None ->
  Permutation (resolver s ctx K handlers) (map (fun fn => fn ctx) handlers).
Proof.
  intros HK Hctx. unfold resolver. rewrite Hctx. apply Permutation_map.
  apply publish_order_perm; simpl; [lia|lia|reflexivity].
Qed.

Lemma resolver_in (s : schedule) (ctx : Context) (K : N)
      (handlers : list CheckHandlerFunc) (r : run checkOutcome) :
  In r (resolver s ctx K handlers) -> exists h, In h handlers /\ r = h ctx.
Proof.
  intros Hin. destruct (resolver_sub s ctx K handlers) as [rest Hrest].
  assert (Hin' : In r (map (fun fn => fn ctx) handlers)).
  { eapply Permutation_in; [exact Hrest|]. apply in_or_app. now left. }
  apply in_map_iff in Hin'. destruct Hin' as [h [<- Hh]]. now exists h.
Qed.

(** When the reducer received as many outcomes as it has handlers, every
    handler was heard. *)
Lemma resolver_full (s : schedule) (ctx : Context) (K : N)
      (handlers : list CheckHandlerFunc) :
  length handlers <= length (resolver s ctx K handlers) ->
  Permutation (resolver s ctx K handlers) (map (fun fn => fn ctx) handlers).
Proof.
  intros Hlen. destruct (resolver_sub s ctx K handlers) as [rest Hrest].
  assert (Hl := Permutation_length Hrest).
  rewrite length_app, length_map in Hl.
  destruct rest; [|unfold CheckHandlerFunc in *; simpl in Hl; lia].
  now rewrite app_nil_r in Hrest.
Qed.

Lemma selections_uncancelled (s : schedule) (ctx : Context) (rc : list (run checkOutcome)) :
  ctx_err ctx = None -> selections s ctx rc = map Received rc.
Proof. unfold selections. now intros ->. Qed.

Lemma selections_received (s : schedule) (ctx : Context)
      (rc : list (run checkOutcome)) (r : run checkOutcome) :
  In (Received r) (selections s ctx rc) -> In r rc.
Proof.
  unfold selections. intros Hin.
  assert (Hmap : forall l, In (Received r) (map Received l) -> In r l).
  { intros l H. apply in_map_iff in H. destruct H as [x [[= ->] Hx]]. exact Hx. }
  destruct (ctx_err ctx); [|auto].
  apply in_app_or in Hin. destruct Hin as [Hin|[Hin|[]]]; [|discriminate].
  apply Hmap in Hin. destruct (done_at s) as [n|]; [|exact Hin].
  rewrite <- (firstn_skipn n rc). apply in_or_app. now left.
Qed.


(** ** The reducer loops *)

Lemma answer_skipped_or_allowed (r : run checkOutcome) :
  is_answer r = true -> skipped_by_union r = negb (is_allowed r).
Proof.
  destruct r as [[[[[[]]|] [e|]]|x] t]; simpl; intros H; try discriminate; reflexivity.
Qed.

Lemma allowed_is_answer (r : run checkOutcome) : is_allowed r = true -> is_answer r = true.
Proof. destruct r as [[[[[[]]|] [e|]]|x] t]; simpl; intros H; try discriminate; reflexivity. Qed.

Lemma allowed_GetAllowed (o : checkOutcome) (t : list event) :
  err o = None -> is_allowed (Ret o, t) = GetAllowed (resp o).
Proof. destruct o as [[[[]]|] [e|]]; simpl; intros H; try discriminate; reflexivity. Qed.

Lemma union_loop_allowed (n : nat) (sel : list selected) :
  is_allowed (union_loop n sel) = true ->
  exists pre r post,
    sel = map Received pre ++ Received r :: post /\
    is_allowed r = true /\ forallb skipped_by_union pre = true /\ length pre < n.
Proof.
  revert sel. induction n as [|n IH]; intros sel H; simpl in H; [discriminate|].
  destruct sel as [|[[[o|x] t]|e] sel]; try discriminate.
  destruct o as [rsp [e|]]; simpl in H; [discriminate|].
  destruct (GetAllowed rsp) eqn:Hrsp.
  - exists [], (Ret {| resp := rsp; err := None |}, t), sel.
    repeat split; simpl; try lia.
    now rewrite allowed_GetAllowed.
  - rewrite is_allowed_traced in H. destruct (IH _ H) as (pre & r & post & -> & Hr & Hpre & Hlen).
    exists ((Ret {| resp := rsp; err := None |}, t) :: pre), r, post.
    repeat split; simpl; try lia; auto.
    unfold skipped_by_union at 1; simpl. now rewrite Hrsp.
Qed.

Lemma skipped_inv (r : run checkOutcome) :
  skipped_by_union r = true ->
  exists rsp t, r = (Ret {| resp := rsp; err := None |}, t) /\ GetAllowed rsp = false.
Proof.
  destruct r as [[[rsp [e|]]|x] t]; unfold skipped_by_union; simpl; intros H; try discriminate.
  exists rsp, t. split; [reflexivity|]. now destruct (GetAllowed rsp).
Qed.

Lemma union_loop_skips (n : nat) (pre : list (run checkOutcome)) (rest : list selected) :
  forallb skipped_by_union pre = true ->
  fst (union_loop (length pre + n) (map Received pre ++ rest)) = fst (union_loop n rest).
Proof.
  induction pre as [|r pre IH]; intros Hpre; simpl in *; [reflexivity|].
  apply andb_true_iff in Hpre. destruct Hpre as [Hr Hpre].
  destruct (skipped_inv _ Hr) as (rsp & t & -> & Hrsp). simpl.
  rewrite Hrsp. rewrite fst_traced. now apply IH.
Qed.

(** [union] returns allowed exactly when it receives an allowed outcome
    after nothing but outcomes it skips. *)
Lemma union_loop_allowed_iff (n : nat) (sel : list selected) :
  is_allowed (union_loop n sel) = true <->
  exists pre r post,
    sel = map Received pre ++ Received r :: post /\
    is_allowed r = true /\ forallb skipped_by_union pre = true /\ length pre < n.
Proof.
  split; [apply union_loop_allowed|].
  intros (pre & r & post & -> & Hr & Hpre & Hlen).
  replace n with (length pre + S (n - S (length pre))) by lia.
  unfold is_allowed at 1. rewrite union_loop_skips by exact Hpre.
  destruct r as [[[[[[]]|] [e|]]|x] t]; simpl in Hr; try discriminate. reflexivity.
Qed.

(** The first outcome [union] does not skip, when an error, is returned. *)
Lemma union_loop_error (n : nat) (pre : list (run checkOutcome)) (r : run checkOutcome)
      (post : list selected) (e : error) :
  forallb skipped_by_union pre = true -> error_of r = Some e -> length pre < n ->
  fst (union_loop n (map Received pre ++ Received r :: post)) = Ret (failed e).
Proof.
  intros Hpre He Hlen.
  replace n with (length pre + S (n - S (length pre))) by lia.
  rewrite union_loop_skips by exact Hpre.
  destruct r as [[[rsp [e'|]]|x] t]; simpl in He; try discriminate.
  injection He as ->. reflexivity.
Qed.

(** [union] answers denied only after it received a skipped outcome from
    every handler. *)
Lemma union_loop_denied (n : nat) (sel : list selected) :
  is_denied (union_loop n sel) = true ->
  exists rs rest,
    sel = map Received rs ++ rest /\ length rs = n /\ forallb skipped_by_union rs = true.
Proof.
  revert sel. induction n as [|n IH]; intros sel H; simpl in H.
  - exists [], sel. auto.
  - destruct sel as [|[[[o|x] t]|e] sel]; try discriminate.
    destruct o as [rsp [e|]]; simpl in H; [discriminate|].
    destruct (GetAllowed rsp) eqn:Hrsp.
    + destruct rsp as [[[]]|]; simpl in *; discriminate.
    + rewrite is_denied_traced in H. destruct (IH _ H) as (rs & rest & -> & Hl & Hrs).
      exists ((Ret {| resp := rsp; err := None |}, t) :: rs), rest.
      repeat split; simpl; auto.
      unfold skipped_by_union at 1; simpl. now rewrite Hrsp.
Qed.

Lemma intersection_loop_passes (n : nat) (rs : list (run checkOutcome)) (rest : list selected) :
  forallb is_allowed rs = true ->
  fst (intersection_loop (length rs + n) (map Received rs ++ rest))
  = fst (intersection_loop n rest).
Proof.
  induction rs as [|r rs IH]; intros Hrs; simpl in *; [reflexivity|].
  apply andb_true_iff in Hrs. destruct Hrs as [Hr Hrs].
  destruct r as [[[[[[]]|] [e|]]|x] t]; simpl in Hr; try discriminate.
  simpl. now apply IH.
Qed.

(** [intersection] returns allowed only after it received an allowed outcome
    from every handler. *)
Lemma intersection_loop_allowed (n : nat) (sel : list selected) :
  is_allowed (intersection_loop n sel) = true ->
  exists rs rest,
    sel = map Received rs ++ rest /\ length rs = n /\ forallb is_allowed rs = true.
Proof.
  revert sel. induction n as [|n IH]; intros sel H; simpl in H.
  - exists [], sel. auto.
  - destruct sel as [|[[[o|x] t]|e] sel]; try discriminate.
    destruct o as [rsp [e|]]; simpl in H; [discriminate|].
    destruct (GetAllowed rsp) eqn:Hrsp; simpl in H.
    + rewrite is_allowed_traced in H. destruct (IH _ H) as (rs & rest & -> & Hl & Hrs).
      exists ((Ret {| resp := rsp; err := None |}, t) :: rs), rest.
      repeat split; simpl; auto.
      rewrite Hrs, andb_true_r. now rewrite allowed_GetAllowed.
    + destruct rsp as [[[]]|]; simpl in *; discriminate.
Qed.

Lemma intersection_loop_error (n : nat) (pre : list (run checkOutcome))
      (r : run checkOutcome) (post : list selected) (e : error) :
  forallb is_allowed pre = true -> error_of r = Some e -> length pre < n ->
  fst (intersection_loop n (map Received pre ++ Received r :: post)) = Ret (failed e).
Proof.
  intros Hpre He Hlen.
  replace n with (length pre + S (n - S (length pre))) by lia.
  rewrite intersection_loop_passes by exact Hpre.
  destruct r as [[[rsp [e'|]]|x] t]; simpl in He; try discriminate.
  injection He as ->. reflexivity.
Qed.

(** An answer of [intersection] that is not allowed is the answer of one of
    its handlers. *)
Lemma intersection_loop_refusal (n : nat) (sel : list selected) :
  skipped_by_union (intersection_loop n sel) = true ->
  exists r, In (Received r) sel /\ skipped_by_union r = true.
Proof.
  revert sel. induction n as [|n IH]; intros sel H; simpl in H; [discriminate|].
  destruct sel as [|[[[o|x] t]|e] sel]; try discriminate.
  destruct o as [rsp [e|]]; simpl in H; [discriminate|].
  destruct (GetAllowed rsp) eqn:Hrsp; simpl in H.
  - destruct (IH sel) as (r & Hin & Hr).
    { unfold skipped_by_union in *. now rewrite fst_traced in H. }
    exists r. split; [now right|exact Hr].
  - exists (Ret {| resp := rsp; err := None |}, t). split; [now left|].
    unfold skipped_by_union; simpl. now rewrite Hrsp.
Qed.

(** [exclusion] *)

Lemma exclusion_order {A : Type} (b s : A) (picks : list nat) :
  publish_order 2 2 [] [b; s] picks = [b; s] \/ publish_order 2 2 [] [b; s] picks = [s; b].
Proof.
  assert (H : hd 0 picks mod 2 < 2) by (apply Nat.mod_upper_bound; lia).
  change (publish_order 2 2 [] [b; s] picks) with
    (match nth_error [b; s] (hd 0 picks mod 2) with
     | Some fn =>
         fn :: publish_order 1 2 (remove_nth (hd 0 picks mod 2) [b; s]) [] (tl picks)
     | None => []
     end).
  destruct (hd 0 picks mod 2) as [|[|p]]; [left|right|lia]; reflexivity.
Qed.

Lemma exclusion_loop_passes (n : nat) (rs rest : list exclusion_selected) :
  forallb passes_exclusion rs = true ->
  fst (exclusion_loop (length rs + n) (rs ++ rest)) = fst (exclusion_loop n rest).
Proof.
  induction rs as [|x rs IH]; intros Hrs; simpl in *; [reflexivity|].
  apply andb_true_iff in Hrs. destruct Hrs as [Hx Hrs].
  destruct x as [r|r|e]; simpl in Hx; try discriminate;
    destruct r as [[[[[[]]|] [e|]]|x] t]; simpl in Hx; try discriminate;
    simpl; now apply IH.
Qed.

(** [exclusion] returns allowed only after both the base allowed and the
    subtract denied. *)
Lemma exclusion_loop_allowed (n : nat) (sel : list exclusion_selected) :
  is_allowed (exclusion_loop n sel) = true ->
  exists rs rest,
    sel = rs ++ rest /\ length rs = n /\ forallb passes_exclusion rs = true.
Proof.
  revert sel. induction n as [|n IH]; intros sel H; simpl in H.
  - exists [], sel. auto.
  - destruct sel as [|[[[o|x] t]|[[o|x] t]|e] sel]; try discriminate;
      destruct o as [[[[]]|] [e|]]; simpl in H; try discriminate;
      rewrite is_allowed_traced in H; destruct (IH _ H) as (rs & rest & -> & Hl & Hrs).
    + exists (BaseResult (Ret {| resp := Some {| Allowed := true |}; err := None |}, t) :: rs), rest.
      repeat split; simpl; auto.
    + exists (SubResult (Ret {| resp := Some {| Allowed := false |}; err := None |}, t) :: rs), rest.
      repeat split; simpl; auto.
Qed.

(** ** What a reducer that ran its loop to the end has heard *)

Lemma selections_prefix (s : schedule) (ctx : Context)
      (rc rs : list (run checkOutcome)) (rest : list selected) :
  selections s ctx rc = map Received rs ++ rest -> exists rest', rc = rs ++ rest'.
Proof.
  assert (Hmap : forall l rs rest,
             map Received l = map Received rs ++ rest -> exists l2, l = rs ++ l2).
  { intros l rs0. revert l. induction rs0 as [|r rs0 IH]; intros l rest0 H.
    - now exists l.
    - destruct l as [|x l]; [discriminate|]. simpl in H. injection H as -> H.
      destruct (IH _ _ H) as [l2 ->]. now exists l2. }
  assert (Hdone : forall e l rs rest,
             map Received l ++ [CtxDone e] = map Received rs ++ rest ->
             exists l2, l = rs ++ l2).
  { intros e l rs0. revert l. induction rs0 as [|r rs0 IH]; intros l rest0 H.
    - now exists l.
    - destruct l as [|x l]; [discriminate|]. simpl in H. injection H as -> H.
      destruct (IH _ _ H) as [l2 ->]. now exists l2. }
  unfold selections. destruct (ctx_err ctx) as [e|], (done_at s) as [i|]; eauto.
  intros H. destruct (Hdone _ _ _ _ H) as [l2 Hl2].
  exists (l2 ++ skipn i rc). rewrite app_assoc, <- Hl2. now rewrite firstn_skipn.
Qed.

Lemma heard_all (s : schedule) (ctx : Context) (K : N) (handlers : list CheckHandlerFunc)
      (rs : list (run checkOutcome)) (rest : list selected) :
  selections s ctx (resolver s ctx K handlers) = map Received rs ++ rest ->
  length rs = length handlers ->
  Permutation rs (map (fun fn => fn ctx) handlers).
Proof.
  intros Hsel Hlen. destruct (selections_prefix _ _ _ _ _ Hsel) as [rest' Hrc].
  assert (Hfull : Permutation (resolver s ctx K handlers) (map (fun fn => fn ctx) handlers)).
  { apply resolver_full. rewrite Hrc, length_app. unfold CheckHandlerFunc in *. lia. }
  assert (Hl := Permutation_length Hfull).
  rewrite Hrc, length_app, length_map in Hl.
  destruct rest'; [|unfold CheckHandlerFunc in *; simpl in Hl; lia].
  rewrite app_nil_r in Hrc. now rewrite <- Hrc.
Qed.

Lemma forallb_perm {A : Type} (f : A -> bool) (l l' : list A) :
  Permutation l l' -> forallb f l = true -> forallb f l' = true.
Proof.
  intros Hp H. apply forallb_forall. intros x Hx.
  rewrite forallb_forall in H. apply H. eapply Permutation_in; [symmetry|]; eauto.
Qed.

Lemma first_allowed (rs : list (run checkOutcome)) :
  forallb is_answer rs = true -> existsb is_allowed rs = true ->
  exists pre r post,
    rs = pre ++ r :: post /\ is_allowed r = true /\ forallb skipped_by_union pre = true.
Proof.
  induction rs as [|x rs IH]; simpl; intros Hans Hex; [discriminate|].
  apply andb_true_iff in Hans. destruct Hans as [Hx Hans].
  destruct (is_allowed x) eqn:Hax.
  - exists [], x, rs. auto.
  - destruct (IH Hans Hex) as (pre & r & post & -> & Hr & Hpre).
    exists (x :: pre), r, post. repeat split; auto.
    simpl. rewrite Hpre, andb_true_r. rewrite answer_skipped_or_allowed by exact Hx.
    now rewrite Hax.
Qed.

(** ** The three reducers *)

Lemma union_sound (s : schedule) (ctx : Context) (K : N) (handlers : list CheckHandlerFunc) :
  is_allowed (union s ctx K handlers) = true ->
  exists h, In h handlers /\ is_allowed (h ctx) = true.
Proof.
  intros H. apply union_loop_allowed in H.
  destruct H as (pre & r & post & Hsel & Hr & _ & _).
  assert (Hin : In r (resolver s ctx K handlers)).
  { eapply selections_received. rewrite Hsel. apply in_or_app. right. now left. }
  destruct (resolver_in _ _ _ _ _ Hin) as (h & Hh & ->). now exists h.
Qed.

Lemma union_complete (s : schedule) (ctx : Context) (K : N)
      (handlers : list CheckHandlerFunc) :
  K <> 0%N -> ctx_err ctx = None ->
  (forall h, In h handlers -> is_answer (h ctx) = true) ->
  (exists h, In h handlers /\ is_allowed (h ctx) = true) ->
  is_allowed (union s ctx K handlers) = true.
Proof.
  intros HK Hctx Hans (h & Hh & Hallowed).
  assert (Hperm := @resolver_perm s ctx K handlers HK Hctx).
  unfold union. rewrite selections_uncancelled by exact Hctx.
  destruct (first_allowed (resolver s ctx K handlers)) as (pre & r & post & Hrs & Hr & Hpre).
  - apply forallb_perm with (l := map (fun fn => fn ctx) handlers); [now symmetry|].
    apply forallb_forall. intros x Hx. apply in_map_iff in Hx.
    destruct Hx as (h' & <- & Hh'). now apply Hans.
  - apply existsb_exists. exists (h ctx). split; [|exact Hallowed].
    eapply Permutation_in; [symmetry; exact Hperm|].
    exact (in_map (fun fn : CheckHandlerFunc => fn ctx) _ _ Hh).
  - apply union_loop_allowed_iff. exists pre, r, (map Received post).
    repeat split; auto.
    + rewrite Hrs, map_app. reflexivity.
    + apply Permutation_length in Hperm. rewrite length_map, Hrs, length_app in Hperm.
      unfold CheckHandlerFunc in *. simpl in Hperm. lia.
Qed.

(** A denied answer of [union] means every handler answered, none allowed
    and none with an error. *)
Lemma union_denied (s : schedule) (ctx : Context) (K : N) (handlers : list CheckHandlerFunc) :
  is_denied (union s ctx K handlers) = true ->
  forall h, In h handlers -> skipped_by_union (h ctx) = true.
Proof.
  intros H h Hh. apply union_loop_denied in H.
  destruct H as (rs & rest & Hsel & Hlen & Hrs).
  assert (Hperm := heard_all _ _ _ _ _ _ Hsel Hlen).
  assert (Hall := forallb_perm _ Hperm Hrs).
  rewrite forallb_forall in Hall. apply Hall.
  exact (in_map (fun fn : CheckHandlerFunc => fn ctx) _ _ Hh).
Qed.

Lemma intersection_sound (s : schedule) (ctx : Context) (K : N)
      (handlers : list CheckHandlerFunc) :
  is_allowed (intersection s ctx K handlers) = true ->
  forall h, In h handlers -> is_allowed (h ctx) = true.
Proof.
  intros H h Hh. apply intersection_loop_allowed in H.
  destruct H as (rs & rest & Hsel & Hlen & Hrs).
  assert (Hperm := heard_all _ _ _ _ _ _ Hsel Hlen).
  assert (Hall := forallb_perm _ Hperm Hrs).
  rewrite forallb_forall in Hall. apply Hall.
  exact (in_map (fun fn : CheckHandlerFunc => fn ctx) _ _ Hh).
Qed.

Lemma intersection_complete (s : schedule) (ctx : Context) (K : N)
      (handlers : list CheckHandlerFunc) :
  K <> 0%N -> ctx_err ctx = None ->
  (forall h, In h handlers -> is_allowed (h ctx) = true) ->
  fst (intersection s ctx K handlers) = Ret allowed.
Proof.
  intros HK Hctx Hall.
  assert (Hperm := @resolver_perm s ctx K handlers HK Hctx).
  unfold intersection. rewrite selections_uncancelled by exact Hctx.
  assert (Hlen : length handlers = length (resolver s ctx K handlers) + 0).
  { apply Permutation_length in Hperm. rewrite length_map in Hperm.
    unfold CheckHandlerFunc in *. lia. }
  rewrite Hlen, <- (app_nil_r (map Received _)).
  rewrite intersection_loop_passes; [reflexivity|].
  apply forallb_perm with (l := map (fun fn => fn ctx) handlers); [now symmetry|].
  apply forallb_forall. intros x Hx. apply in_map_iff in Hx.
  destruct Hx as (h' & <- & Hh'). now apply Hall.
Qed.

Lemma exclusion_selections_prefix (s : schedule) (ctx : Context)
      (chans rs rest : list exclusion_selected) :
  exclusion_selections s ctx chans = rs ++ rest ->
  forallb is_result rs = true ->
  exists rest', chans = rs ++ rest'.
Proof.
  assert (Hdone : forall e l rs rest,
             l ++ [ExclusionCtxDone e] = rs ++ rest ->
             forallb is_result rs = true -> exists l2, l = rs ++ l2).
  { intros e l rs0. revert l. induction rs0 as [|r rs0 IH]; intros l rest0 H Hp.
    - now exists l.
    - simpl in Hp. apply andb_true_iff in Hp. destruct Hp as [Hr Hp].
      destruct l as [|x l]; simpl in H; injection H as <- H.
      + discriminate.
      + destruct (IH _ _ H Hp) as [l2 ->]. now exists l2. }
  unfold exclusion_selections. destruct (ctx_err ctx) as [e|], (done_at s) as [i|]; eauto.
  intros H Hp. destruct (Hdone _ _ _ _ H Hp) as [l2 Hl2].
  exists (l2 ++ skipn i chans). rewrite app_assoc, <- Hl2. now rewrite firstn_skipn.
Qed.

Lemma passes_are_results (rs : list exclusion_selected) :
  forallb passes_exclusion rs = true -> forallb is_result rs = true.
Proof.
  intros H. apply forallb_forall. intros x Hx.
  rewrite forallb_forall in H. specialize (H x Hx). now destruct x.
Qed.

Lemma exclusion_sound (s : schedule) (ctx : Context) (K : N)
      (baseHandler subHandler : CheckHandlerFunc) :
  is_allowed (exclusion s ctx K [baseHandler; subHandler]) = true ->
  is_allowed (baseHandler ctx) = true /\ is_denied (subHandler ctx) = true.
Proof.
  unfold exclusion. destruct (K =? 0)%N; [discriminate|].
  intros H. apply exclusion_loop_allowed in H.
  destruct H as (rs & rest & Hsel & Hlen & Hrs).
  destruct (exclusion_selections_prefix _ _ _ _ _ Hsel (passes_are_results _ Hrs))
    as [rest' Hch].
  destruct (exclusion_order (BaseResult (baseHandler ctx)) (SubResult (subHandler ctx))
                            (picks s)) as [Ho|Ho];
    rewrite Ho in Hch;
    destruct rs as [|x [|y [|z rs]]]; try discriminate;
    injection Hch as <- <- _; simpl in Hrs;
    apply andb_true_iff in Hrs; destruct Hrs as [H1 H2];
    rewrite andb_true_r in H2; auto.
Qed.

Lemma exclusion_complete (s : schedule) (ctx : Context) (K : N)
      (baseHandler subHandler : CheckHandlerFunc) :
  K <> 0%N -> ctx_err ctx = None ->
  is_allowed (baseHandler ctx) = true -> is_denied (subHandler ctx) = true ->
  fst (exclusion s ctx K [baseHandler; subHandler]) = Ret allowed.
Proof.
  intros HK Hctx Hb Hs. unfold exclusion.
  apply N.eqb_neq in HK. rewrite HK.
  unfold exclusion_selections. rewrite Hctx.
  set (chans := publish_order 2 2 [] _ (picks s)).
  assert (Hall : forallb passes_exclusion chans = true /\ length chans = 2).
  { unfold chans.
    destruct (exclusion_order (BaseResult (baseHandler ctx)) (SubResult (subHandler ctx))
                              (picks s)) as [-> | ->]; simpl; now rewrite Hb, Hs. }
  destruct Hall as [Hall Hlen].
  assert (Hgoal : fst (exclusion_loop (length chans + 0) (chans ++ [])) = Ret allowed)
    by now rewrite exclusion_loop_passes.
  rewrite app_nil_r, Hlen in Hgoal. exact Hgoal.
Qed.

(** ** Errors in the reducers *)

Lemma resolver_length (s : schedule) (ctx : Context) (K : N)
      (handlers : list CheckHandlerFunc) :
  length (resolver s ctx K handlers) <= length handlers.
Proof.
  destruct (resolver_sub s ctx K handlers) as [rest Hrest].
  apply Permutation_length in Hrest. rewrite length_app, length_map in Hrest.
  unfold CheckHandlerFunc in *. lia.
Qed.

Lemma selections_position (s : schedule) (ctx : Context) (K : N)
      (handlers : list CheckHandlerFunc)
      (pre : list (run checkOutcome)) (r : run checkOutcome) (post : list selected) :
  selections s ctx (resolver s ctx K handlers) = map Received pre ++ Received r :: post ->
  length pre < length handlers.
Proof.
  intros Hsel.
  destruct (selections_prefix s ctx (resolver s ctx K handlers) (pre ++ [r]) post)
    as [rest' Hrc].
  { rewrite Hsel, map_app, <- app_assoc. reflexivity. }
  assert (Hl := resolver_length s ctx K handlers).
  rewrite Hrc, !length_app in Hl. simpl in Hl. unfold CheckHandlerFunc in *. lia.
Qed.

Lemma exclusion_loop_error (n : nat) (pre : list exclusion_selected)
      (x : exclusion_selected) (post : list exclusion_selected) (e : error) :
  forallb passes_exclusion pre = true -> exclusion_error x = Some e -> length pre < n ->
  fst (exclusion_loop n (pre ++ x :: post)) = Ret (failed e).
Proof.
  intros Hpre He Hlen.
  replace n with (length pre + S (n - S (length pre))) by lia.
  rewrite exclusion_loop_passes by exact Hpre.
  destruct x as [[[[rsp [e'|]]|a] t]|[[[rsp [e'|]]|a] t]|e']; simpl in He; try discriminate;
    injection He as ->; reflexivity.
Qed.

Lemma exclusion_loop_denied (n : nat) (sel : list exclusion_selected) :
  is_denied (exclusion_loop n sel) = true ->
  exists x, In x sel /\ refuses_exclusion x = true.
Proof.
  revert sel. induction n as [|n IH]; intros sel H; simpl in H; [discriminate|].
  destruct sel as [|[[[o|a] t]|[[o|a] t]|e] sel]; try discriminate;
    destruct o as [[[[]]|] [e|]]; simpl in H; try discriminate;
    try (rewrite is_denied_traced in H; destruct (IH _ H) as (x & Hin & Hx);
         exists x; split; [now right|exact Hx]).
  - exists (BaseResult (Ret {| resp := Some {| Allowed := false |}; err := None |}, t)).
    split; [now left|reflexivity].
  - exists (SubResult (Ret {| resp := Some {| Allowed := true |}; err := None |}, t)).
    split; [now left|reflexivity].
Qed.

Lemma exclusion_selections_in (s : schedule) (ctx : Context)
      (chans : list exclusion_selected) (x : exclusion_selected) :
  In x (exclusion_selections s ctx chans) -> is_result x = true -> In x chans.
Proof.
  unfold exclusion_selections. intros Hin Hx.
  destruct (ctx_err ctx), (done_at s); auto.
  apply in_app_or in Hin. destruct Hin as [Hin|[<-|[]]]; [|discriminate].
  rewrite <- (firstn_skipn n chans). apply in_or_app. now left.
Qed.

Lemma exclusion_chans (s : schedule) (ctx : Context)
      (baseHandler subHandler : CheckHandlerFunc) (x : exclusion_selected) :
  In x (publish_order 2 2 []
          [BaseResult (baseHandler ctx); SubResult (subHandler ctx)] (picks s)) ->
  x = BaseResult (baseHandler ctx) \/ x = SubResult (subHandler ctx).
Proof.
  destruct (exclusion_order (BaseResult (baseHandler ctx)) (SubResult (subHandler ctx))
                            (picks s)) as [-> | ->]; simpl; intuition auto.
Qed.

Lemma exclusion_denied (s : schedule) (ctx : Context) (K : N)
      (baseHandler subHandler : CheckHandlerFunc) :
  is_denied (exclusion s ctx K [baseHandler; subHandler]) = true ->
  is_denied (baseHandler ctx) = true \/ is_allowed (subHandler ctx) = true.
Proof.
  unfold exclusion. destruct (K =? 0)%N; [discriminate|].
  intros H. apply exclusion_loop_denied in H. destruct H as (x & Hin & Hx).
  apply exclusion_selections_in in Hin; [|now destruct x].
  apply exclusion_chans in Hin. destruct Hin as [-> | ->]; simpl in Hx; auto.
Qed.

Lemma allowed_no_error (r : run checkOutcome) : is_allowed r = true -> error_of r = None.
Proof. destruct r as [[[[[[]]|] [e|]]|x] t]; simpl; intros H; try discriminate; reflexivity. Qed.

Lemma denied_no_error (r : run checkOutcome) : is_denied r = true -> error_of r = None.
Proof. destruct r as [[[[[[]]|] [e|]]|x] t]; simpl; intros H; try discriminate; reflexivity. Qed.

Lemma skipped_no_error (r : run checkOutcome) :
  skipped_by_union r = true -> error_of r = None.
Proof. intros H. now destruct (skipped_inv _ H) as (rsp & t & -> & _). Qed.

(** ** The outcome that decides *)

Lemma intersection_loop_refuses (n : nat) (pre : list (run checkOutcome))
      (r : run checkOutcome) (post : list selected) :
  forallb is_allowed pre = true -> skipped_by_union r = true -> length pre < n ->
  fst (intersection_loop n (map Received pre ++ Received r :: post)) = fst r.
Proof.
  intros Hpre Hr Hlen.
  replace n with (length pre + S (n - S (length pre))) by lia.
  rewrite intersection_loop_passes by exact Hpre.
  destruct (skipped_inv _ Hr) as (rsp & t & -> & Hrsp). simpl. now rewrite Hrsp.
Qed.

Lemma exclusion_loop_refuses (n : nat) (pre : list exclusion_selected)
      (x : exclusion_selected) (post : list exclusion_selected) :
  forallb passes_exclusion pre = true -> refuses_exclusion x = true -> length pre < n ->
  fst (exclusion_loop n (pre ++ x :: post)) = Ret denied.
Proof.
  intros Hpre Hx Hlen.
  replace n with (length pre + S (n - S (length pre))) by lia.
  rewrite exclusion_loop_passes by exact Hpre.
  destruct x as [[[[[[[]]|] [e|]]|a] t]|[[[[[[]]|] [e|]]|a] t]|e]; simpl in Hx;
    try discriminate; reflexivity.
Qed.

Lemma exclusion_selections_position (s : schedule) (ctx : Context)
      (baseHandler subHandler : CheckHandlerFunc)
      (pre : list exclusion_selected) (x : exclusion_selected)
      (post : list exclusion_selected) :
  exclusion_selections s ctx
    (publish_order 2 2 []
       [BaseResult (baseHandler ctx); SubResult (subHandler ctx)] (picks s))
  = pre ++ x :: post ->
  forallb passes_exclusion pre = true -> is_result x = true ->
  length pre < 2.
Proof.
  intros Hsel Hpre Hx.
  destruct (exclusion_selections_prefix s ctx
              (publish_order 2 2 []
                 [BaseResult (baseHandler ctx); SubResult (subHandler ctx)] (picks s))
              (pre ++ [x]) post) as [rest' Hch].
  { rewrite Hsel, <- app_assoc. reflexivity. }
  { rewrite forallb_app, (passes_are_results _ Hpre). simpl. now rewrite Hx. }
  destruct (exclusion_order (BaseResult (baseHandler ctx)) (SubResult (subHandler ctx))
                            (picks s)) as [Ho|Ho];
    rewrite Ho in Hch; apply (f_equal (@length _)) in Hch;
    rewrite !length_app in Hch; simpl in Hch; lia.
Qed.

(** C1 (as amended).  Whatever the context, the limit and the schedule,
    [union] returns allowed only if some child resolves allowed,
    [intersection] only if every child resolves allowed, and [exclusion]
    over (base, subtract) only if the base resolves allowed and the subtract
    resolves denied.  Conversely, when the context is not cancelled and the
    limit is at least one, [intersection] returns allowed if every child
    resolves allowed, [exclusion] if the base resolves allowed and the
    subtract denied, and [union] if some child resolves allowed and every
    child answers without error.  Each reducer returns on the first outcome
    it receives that decides its result, whatever the outcomes after it:
    [union] on the first allowed outcome or error (an error received before
    the first allowed outcome ends [union] with that error), [intersection]
    on the first outcome that is not allowed or is an error, [exclusion] on
    the first outcome that is a denying base, an allowing subtract or an
    error. *)
Theorem reducers_decide :
  forall (s : schedule) (ctx : Context) (K : N)
         (handlers : list CheckHandlerFunc) (baseHandler subHandler : CheckHandlerFunc),
    (is_allowed (union s ctx K handlers) = true ->
     exists h, In h handlers /\ is_allowed (h ctx) = true)
    /\ (is_allowed (intersection s ctx K handlers) = true ->
        forall h, In h handlers -> is_allowed (h ctx) = true)
    /\ (is_allowed (exclusion s ctx K [baseHandler; subHandler]) = true ->
        is_allowed (baseHandler ctx) = true /\ is_denied (subHandler ctx) = true)
    /\ (K <> 0%N -> ctx_err ctx = None ->
        ((forall h, In h handlers -> is_answer (h ctx) = true) ->
         (exists h, In h handlers /\ is_allowed (h ctx) = true) ->
         fst (union s ctx K handlers) = Ret allowed)
        /\ ((forall h, In h handlers -> is_allowed (h ctx) = true) ->
            fst (intersection s ctx K handlers) = Ret allowed)
        /\ (is_allowed (baseHandler ctx) = true -> is_denied (subHandler ctx) = true ->
            fst (exclusion s ctx K [baseHandler; subHandler]) = Ret allowed))
    /\ (forall pre r post,
           selections s ctx (resolver s ctx K handlers)
           = map Received pre ++ Received r :: post ->
           (forallb skipped_by_union pre = true ->
            (is_allowed r = true -> fst (union s ctx K handlers) = Ret allowed)
            /\ (forall e, error_of r = Some e ->
                          fst (union s ctx K handlers) = Ret (failed e)))
           /\ (forallb is_allowed pre = true ->
               (skipped_by_union r = true ->
                fst (intersection s ctx K handlers) = fst r)
               /\ (forall e, error_of r = Some e ->
                             fst (intersection s ctx K handlers) = Ret (failed e))))
    /\ (forall pre x post,
           K <> 0%N ->
           exclusion_selections s ctx
             (publish_order 2 2 []
                [BaseResult (baseHandler ctx); SubResult (subHandler ctx)] (picks s))
           = pre ++ x :: post ->
           forallb passes_exclusion pre = true ->
           (refuses_exclusion x = true ->
            fst (exclusion s ctx K [baseHandler; subHandler]) = Ret denied)
           /\ (forall e, exclusion_error x = Some e ->
                         fst (exclusion s ctx K [baseHandler; subHandler])
                         = Ret (failed e))).
Proof.
  intros s ctx K handlers baseHandler subHandler.
  split; [apply union_sound|].
  split; [apply intersection_sound|].
  split; [apply exclusion_sound|].
  split; [|split].
  - intros HK Hctx. split; [|split].
    + intros Hans Hex.
      assert (H : is_allowed (union s ctx K handlers) = true)
        by now apply union_complete.
      unfold is_allowed in H.
      destruct (fst (union s ctx K handlers)) as [[[[[]]|] [e|]]|x];
        try discriminate; reflexivity.
    + now apply intersection_complete.
    + now apply exclusion_complete.
  - intros pre r post Hsel.
    assert (Hlen := selections_position _ _ _ _ _ _ _ Hsel).
    split; intros Hpre; split.
    + intros Hr.
      assert (H : is_allowed (union s ctx K handlers) = true).
      { unfold union. apply union_loop_allowed_iff. exists pre, r, post. auto. }
      unfold is_allowed in H.
      destruct (fst (union s ctx K handlers)) as [[[[[]]|] [e|]]|x];
        try discriminate; reflexivity.
    + intros e He. unfold union. rewrite Hsel. now apply union_loop_error.
    + intros Hr. unfold intersection. rewrite Hsel.
      now apply intersection_loop_refuses.
    + intros e He. unfold intersection. rewrite Hsel.
      now apply intersection_loop_error.
  - intros pre x post HK Hsel Hpre.
    assert (Hlen : is_result x = true -> length pre < 2)
      by (intros Hx; eapply exclusion_selections_position; eauto).
    unfold exclusion. apply N.eqb_neq in HK. rewrite HK, Hsel. split.
    + intros Hx. apply exclusion_loop_refuses; auto.
      apply Hlen. now destruct x.
    + intros e He. apply exclusion_loop_error; auto.
      simpl. apply Hlen. destruct x; simpl in *; try discriminate; reflexivity.
Qed.

Lemma reducers_decide_witness :
  2%N <> 0%N /\ ctx_err background = None
  /\ fst (intersection in_order background 2%N [allowing; allowing]) = Ret allowed
  /\ fst (exclusion in_order background 2%N [allowing; denying]) = Ret allowed
  /\ selections in_order background (resolver in_order background 2%N [denying; allowing])
     = map Received [denying background] ++ Received (allowing background) :: []
  /\ fst (union in_order background 2%N [denying; allowing]) = Ret allowed.
Proof.
  split; [discriminate|]. split; [reflexivity|].
  pose proof (reducers_decide in_order background 2%N [allowing; allowing]
                              allowing denying) as (_ & _ & _ & Hif & _ & _).
  destruct (Hif ltac:(discriminate) eq_refl) as (_ & Hintersection & Hexclusion).
  split; [apply Hintersection; intros h [<-|[<-|[]]]; reflexivity|].
  split; [now apply Hexclusion|].
  split; [reflexivity|].
  pose proof (reducers_decide in_order background 2%N [denying; allowing]
                              allowing denying) as (_ & _ & _ & _ & Hfirst & _).
  exact (proj1 (proj1 (Hfirst [denying background] (allowing background) [] eq_refl)
                      eq_refl)
               eq_refl).
Defined.

(** C1 (as stated) fails.  With a limit of one the first child publishes
    first: its error ends [union], although the second child resolves
    allowed.  With a limit of zero no worker is started, and under a
    cancelled context the reducer may take the cancellation first: in both
    cases [intersection] does not return allowed although its only child
    resolves allowed. *)
Lemma union_error_before_allowed :
  ~ (is_allowed (union in_order background 1%N [erring; allowing]) = true <->
     exists h, In h [erring; allowing] /\ is_allowed (h background) = true)
  /\ ~ (is_allowed (intersection in_order background 0%N [allowing]) = true <->
        forall h, In h [allowing] -> is_allowed (h background) = true)
  /\ ~ (is_allowed (intersection {| picks := []; skips := []; done_at := Some 0 |}
                                 {| ctx_typesys := None; ctx_err := Some ErrCanceled |}
                                 1%N [allowing]) = true <->
        forall h, In h [allowing] ->
                  is_allowed (h {| ctx_typesys := None; ctx_err := Some ErrCanceled |})
                  = true).
Proof.
  split; [|split].
  - intros [_ H].
    assert (Hex : exists h, In h [erring; allowing] /\ is_allowed (h background) = true).
    { exists allowing. split; [right; now left|reflexivity]. }
    specialize (H Hex). vm_compute in H. discriminate.
  - intros [_ H].
    assert (Hall : forall h, In h [allowing] -> is_allowed (h background) = true)
      by (intros h [<-|[]]; reflexivity).
    specialize (H Hall). vm_compute in H. discriminate.
  - intros [_ H].
    assert (Hall : forall h, In h [allowing] ->
                             is_allowed (h {| ctx_typesys := None;
                                              ctx_err := Some ErrCanceled |}) = true)
      by (intros h [<-|[]]; reflexivity).
    specialize (H Hall). vm_compute in H. discriminate.
Qed.

(** C3 (as amended).  For every reducer: when the first outcome it does not
    pass over is an error, it returns that error with [Allowed: false];
    [intersection] and [exclusion] return allowed only when no child returned
    an error; [union] returns allowed exactly when it receives an allowed
    outcome after nothing but outcomes it skips, whatever the children not
    yet heard return; and an answer that is not allowed, given without error,
    is the answer of children that returned no error. *)
Theorem reducers_propagate_errors :
  forall (s : schedule) (ctx : Context) (K : N)
         (handlers : list CheckHandlerFunc) (baseHandler subHandler : CheckHandlerFunc),
    (forall pre r post e,
        selections s ctx (resolver s ctx K handlers)
        = map Received pre ++ Received r :: post ->
        error_of r = Some e ->
        (forallb skipped_by_union pre = true ->
         fst (union s ctx K handlers) = Ret (failed e))
        /\ (forallb is_allowed pre = true ->
            fst (intersection s ctx K handlers) = Ret (failed e)))
    /\ (forall pre x post e,
           K <> 0%N ->
           exclusion_selections s ctx
             (publish_order 2 2 []
                [BaseResult (baseHandler ctx); SubResult (subHandler ctx)] (picks s))
           = pre ++ x :: post ->
           forallb passes_exclusion pre = true ->
           exclusion_error x = Some e ->
           fst (exclusion s ctx K [baseHandler; subHandler]) = Ret (failed e))
    /\ (is_allowed (intersection s ctx K handlers) = true ->
        forall h, In h handlers -> error_of (h ctx) = None)
    /\ (is_allowed (exclusion s ctx K [baseHandler; subHandler]) = true ->
        error_of (baseHandler ctx) = None /\ error_of (subHandler ctx) = None)
    /\ (is_allowed (union s ctx K handlers) = true <->
        exists pre r post,
          selections s ctx (resolver s ctx K handlers)
          = map Received pre ++ Received r :: post
          /\ is_allowed r = true /\ forallb skipped_by_union pre = true)
    /\ (is_denied (union s ctx K handlers) = true ->
        forall h, In h handlers -> error_of (h ctx) = None)
    /\ (skipped_by_union (intersection s ctx K handlers) = true ->
        exists h, In h handlers /\ skipped_by_union (h ctx) = true)
    /\ (is_denied (exclusion s ctx K [baseHandler; subHandler]) = true ->
        is_denied (baseHandler ctx) = true \/ is_allowed (subHandler ctx) = true).
Proof.
  intros s ctx K handlers baseHandler subHandler.
  split; [|split; [|split; [|split; [|split; [|split; [|split]]]]]].
  - intros pre r post e Hsel He.
    assert (Hlen := selections_position _ _ _ _ _ _ _ Hsel).
    split; intros Hpre.
    + unfold union. rewrite Hsel. now apply union_loop_error.
    + unfold intersection. rewrite Hsel. now apply intersection_loop_error.
  - intros pre x post e HK Hsel Hpre He.
    unfold exclusion. apply N.eqb_neq in HK. rewrite HK, Hsel.
    apply exclusion_loop_error; auto.
    destruct (exclusion_selections_prefix s ctx
                (publish_order 2 2 []
                   [BaseResult (baseHandler ctx); SubResult (subHandler ctx)] (picks s))
                (pre ++ [x]) post) as [rest' Hch].
    { rewrite Hsel, <- app_assoc. reflexivity. }
    { rewrite forallb_app, (passes_are_results _ Hpre). simpl.
      destruct x; simpl in *; try discriminate; reflexivity. }
    destruct (exclusion_order (BaseResult (baseHandler ctx)) (SubResult (subHandler ctx))
                              (picks s)) as [Ho|Ho];
      rewrite Ho in Hch; apply (f_equal (@length _)) in Hch;
      rewrite !length_app in Hch; simpl in Hch; simpl; lia.
  - intros H h Hh. apply allowed_no_error. eapply intersection_sound; eauto.
  - intros H. apply exclusion_sound in H. destruct H as [Hb Hs].
    split; [now apply allowed_no_error|now apply denied_no_error].
  - unfold union. rewrite union_loop_allowed_iff. split.
    + intros (pre & r & post & Hsel & Hr & Hpre & _). now exists pre, r, post.
    + intros (pre & r & post & Hsel & Hr & Hpre). exists pre, r, post.
      repeat split; auto. eapply selections_position; eauto.
  - intros H h Hh. apply skipped_no_error. eapply union_denied; eauto.
  - intros H. apply intersection_loop_refusal in H. destruct H as (r & Hin & Hr).
    apply selections_received in Hin. apply resolver_in in Hin.
    destruct Hin as (h & Hh & ->). now exists h.
  - apply exclusion_denied.
Qed.

Lemma reducers_propagate_errors_witness :
  selections in_order background (resolver in_order background 1%N [denying; erring; allowing])
  = map Received [denying background] ++ Received (erring background)
        :: [Received (allowing background)]
  /\ error_of (erring background) = Some (ErrStorage "unavailable")
  /\ forallb skipped_by_union [denying background] = true
  /\ fst (union in_order background 1%N [denying; erring; allowing])
     = Ret (failed (ErrStorage "unavailable")).
Proof.
  split; [reflexivity|]. split; [reflexivity|]. split; [reflexivity|].
  apply (proj1 (reducers_propagate_errors in_order background 1%N
                  [denying; erring; allowing] allowing denying)
           [denying background] (erring background) [Received (allowing background)]
           (ErrStorage "unavailable") eq_refl eq_refl).
  reflexivity.
Defined.

(** C3 (as stated) fails for [union]: both children are in flight, the second
    fails with a storage error, and [union] returns allowed on the outcome of
    the first. *)
Lemma union_allowed_beside_error :
  In erring [allowing; erring]
  /\ error_of (erring background) = Some (ErrStorage "unavailable")
  /\ fst (union in_order background 2%N [allowing; erring]) = Ret allowed.
Proof. split; [right; now left|]. split; reflexivity. Qed.

(** ** Empty reductions *)

(** C9.  [union] over no handlers returns [{Allowed: false}] without error
    and [intersection] over no handlers returns [{Allowed: true}] without
    error, whatever the context and the limit; the userset handler of
    [checkDirect] and the handler of [checkTTU] return denied without error
    when their iterator yields no tuple. *)
Theorem empty_reductions :
  forall (s : schedule) (ctx : Context) (K : N),
    union s ctx K [] = (Ret denied, [])
    /\ intersection s ctx K [] = (Ret allowed, [])
    /\ (forall (sched : scheduler) (c : ConcurrentChecker) (req : DispatchCheckRequest)
               (iter : TupleIterator),
           ReadUsersetTuples (ds c) (StoreId req) (TupleKey req) = inl iter ->
           exhausted iter = true ->
           fst (checkDirect_fn2 sched c req ctx) = Ret denied)
    /\ (forall (sched : scheduler) (c : ConcurrentChecker) (parentctx : Context)
               (req : DispatchCheckRequest) (rewrite : Userset) (typesys : TypeSystem)
               (iter : TupleIterator),
           ctx_typesys parentctx = Some typesys ->
           Read (ds c) (StoreId req)
                (NewTupleKey (Object (TupleKey req)) (GetTupleset rewrite) "") = inl iter ->
           exhausted iter = true ->
           exists handler,
             checkTTU sched c parentctx req rewrite = Ret handler
             /\ fst (handler ctx) = Ret denied).
Proof.
  intros s ctx K. split; [reflexivity|]. split; [reflexivity|]. split.
  - intros sched c req iter Hread Hiter. unfold checkDirect_fn2. rewrite Hread.
    destruct iter as [|[t|e] iter]; simpl in Hiter; try discriminate; simpl.
    + reflexivity.
    + now rewrite Hiter.
  - intros sched c parentctx req rewrite typesys iter Hts Hread Hiter.
    unfold checkTTU. rewrite Hts. eexists. split; [reflexivity|].
    cbv beta zeta. rewrite Hread.
    destruct iter as [|[t|e] iter]; simpl in Hiter; try discriminate; simpl.
    + reflexivity.
    + now rewrite Hiter.
Qed.

Lemma empty_reductions_witness :
  ReadUsersetTuples (ds (memory_checker [] 1 0)) "s"
                    (NewTupleKey "document:1" "viewer" "user:jon") = inl []
  /\ exhausted [] = true
  /\ fst (checkDirect_fn2 always_in_order (memory_checker [] 1 0)
            (check_request "document:1" "viewer" "user:jon" 1) background) = Ret denied.
Proof.
  split; [reflexivity|]. split; [reflexivity|].
  apply (proj1 (proj2 (proj2 (empty_reductions in_order background 1)))
           always_in_order (memory_checker [] 1 0)
           (check_request "document:1" "viewer" "user:jon" 1) []);
    reflexivity.
Defined.

(** ** Induction on rewrites *)

Lemma Userset_induction (P : Userset -> Prop) :
  P This ->
  (forall relation, P (ComputedUserset relation)) ->
  (forall tupleset computed, P (TupleToUserset tupleset computed)) ->
  (forall child, Forall P child -> P (Union child)) ->
  (forall child, Forall P child -> P (Intersection child)) ->
  (forall base subtract, P base -> P subtract -> P (Difference base subtract)) ->
  forall rewrite, P rewrite.
Proof.
  intros HThis HComputed HTTU HUnion HIntersection HDifference.
  fix IH 1. intros [ | relation | tupleset computed | child | child | base subtract].
  - exact HThis.
  - apply HComputed.
  - apply HTTU.
  - apply HUnion. induction child as [|u child IHchild]; constructor; [apply IH|exact IHchild].
  - apply HIntersection.
    induction child as [|u child IHchild]; constructor; [apply IH|exact IHchild].
  - apply HDifference; apply IH.
Qed.

(** ** Invariants of an evaluation

    Whatever holds of every dispatched sub-check and is not broken by the
    evaluator's own steps holds of the whole check. *)

Section Invariant.

Variable bad : abnormal -> Prop.
Variable ok : event -> Prop.

Hypothesis blocked_fine : ~ bad Blocked.
Hypothesis nil_dereference_fine : ~ bad (Panic nil_dereference).
Hypothesis typesystem_missing_fine : ~ bad (Panic typesystem_missing).
Hypothesis open_ok : forall op store tk, ok (EvOpen op store tk).
Hypothesis stop_ok : forall store tk, ok (EvStop OpRead store tk).

Local Abbreviation good := (good bad ok).

Lemma good_ret {A : Type} (a : A) : good (Ret a, []).
Proof. split; [discriminate|constructor]. Qed.

Lemma good_abort {A : Type} (x : abnormal) (t : list event) :
  ~ bad x -> Forall ok t -> good (@Abort A x, t).
Proof. intros Hx Ht. split; [|exact Ht]. simpl. now intros y [= <-]. Qed.

Lemma good_answer {A B : Type} (a : A) (r : run B) : good r -> good (Ret a, snd r).
Proof. intros [_ Ht]. split; [discriminate|exact Ht]. Qed.

Lemma good_traced {A : Type} (t : list event) (r : run A) :
  Forall ok t -> good r -> good (traced t r).
Proof.
  intros Ht [Hx Hr]. split; [exact Hx|]. simpl. apply Forall_app. now split.
Qed.

Lemma good_defer {A : Type} (ev : event) (r : run A) : ok ev -> good r -> good (defer ev r).
Proof.
  intros Hev [Hx Hr]. unfold defer.
  destruct r as [[a|[m|e| |]] t]; simpl in *; split; simpl; auto;
    apply Forall_app; split; auto.
Qed.

Lemma good_union_loop (n : nat) (sel : list selected) :
  (forall r, In (Received r) sel -> good r) -> good (union_loop n sel).
Proof.
  revert sel. induction n as [|n IH]; intros sel Hsel; simpl; [apply good_ret|].
  destruct sel as [|[[[o|x] t]|e] sel].
  - now apply good_abort.
  - assert (Hr := Hsel _ (or_introl eq_refl)).
    destruct (err o); [exact (good_answer _ Hr)|].
    destruct (GetAllowed (resp o)); [exact (good_answer _ Hr)|].
    apply good_traced; [apply Hr|]. apply IH. intros r Hin. apply Hsel. now right.
  - exact (Hsel _ (or_introl eq_refl)).
  - apply good_ret.
Qed.

Lemma good_intersection_loop (n : nat) (sel : list selected) :
  (forall r, In (Received r) sel -> good r) -> good (intersection_loop n sel).
Proof.
  revert sel. induction n as [|n IH]; intros sel Hsel; simpl; [apply good_ret|].
  destruct sel as [|[[[o|x] t]|e] sel].
  - now apply good_abort.
  - assert (Hr := Hsel _ (or_introl eq_refl)).
    destruct (err o); [exact (good_answer _ Hr)|].
    destruct (negb (GetAllowed (resp o))); [exact (good_answer _ Hr)|].
    apply good_traced; [apply Hr|]. apply IH. intros r Hin. apply Hsel. now right.
  - exact (Hsel _ (or_introl eq_refl)).
  - apply good_ret.
Qed.

Lemma good_exclusion_loop (n : nat) (sel : list exclusion_selected) :
  (forall r, In (BaseResult r) sel \/ In (SubResult r) sel -> good r) ->
  good (exclusion_loop n sel).
Proof.
  revert sel. induction n as [|n IH]; intros sel Hsel; simpl; [apply good_ret|].
  assert (Hrest : forall x sel', sel = x :: sel' ->
            forall r, In (BaseResult r) sel' \/ In (SubResult r) sel' -> good r).
  { intros x sel' -> r [H|H]; apply Hsel; [left|right]; now right. }
  destruct sel as [|[[[o|x] t]|[[o|x] t]|e] sel].
  - now apply good_abort.
  - assert (Hr := Hsel _ (or_introl (or_introl eq_refl))).
    destruct (err o); [exact (good_answer _ Hr)|].
    destruct (resp o) as [r|]; [|apply good_abort; [auto|apply Hr]].
    destruct (negb (Allowed r)); [exact (good_answer _ Hr)|].
    apply good_traced; [apply Hr|]. apply IH. eapply Hrest; reflexivity.
  - exact (Hsel _ (or_introl (or_introl eq_refl))).
  - assert (Hr := Hsel _ (or_intror (or_introl eq_refl))).
    destruct (err o); [exact (good_answer _ Hr)|].
    destruct (resp o) as [r|]; [|apply good_abort; [auto|apply Hr]].
    destruct (Allowed r); [exact (good_answer _ Hr)|].
    apply good_traced; [apply Hr|]. apply IH. eapply Hrest; reflexivity.
  - exact (Hsel _ (or_intror (or_introl eq_refl))).
  - apply good_ret.
Qed.

Lemma good_union (s : schedule) (ctx : Context) (K : N) (handlers : list CheckHandlerFunc) :
  (forall h, In h handlers -> good (h ctx)) -> good (union s ctx K handlers).
Proof.
  intros H. apply good_union_loop. intros r Hin.
  apply selections_received, resolver_in in Hin. destruct Hin as (h & Hh & ->). auto.
Qed.

Lemma good_intersection (s : schedule) (ctx : Context) (K : N)
      (handlers : list CheckHandlerFunc) :
  (forall h, In h handlers -> good (h ctx)) -> good (intersection s ctx K handlers).
Proof.
  intros H. apply good_intersection_loop. intros r Hin.
  apply selections_received, resolver_in in Hin. destruct Hin as (h & Hh & ->). auto.
Qed.

Lemma good_exclusion (s : schedule) (ctx : Context) (K : N)
      (baseHandler subHandler : CheckHandlerFunc) :
  good (baseHandler ctx) -> good (subHandler ctx) ->
  good (exclusion s ctx K [baseHandler; subHandler]).
Proof.
  intros Hb Hs. unfold exclusion.
  destruct (K =? 0)%N; [apply good_abort; [auto|constructor]|].
  apply good_exclusion_loop. intros r [Hin|Hin];
    (apply exclusion_selections_in in Hin; [|reflexivity]);
    apply exclusion_chans in Hin; destruct Hin as [[= ->]|[= ->]]; assumption.
Qed.

Variable sched : scheduler.
Variable c : ConcurrentChecker.
Variable req : DispatchCheckRequest.

(** What is assumed of the dispatcher: only of the sub-checks one level
    down. *)
Hypothesis dispatcher_good :
  forall ctx r,
    Depth (ResolutionMetadata_ r) = uint32_pred (Depth (ResolutionMetadata_ req)) ->
    good (dispatcher c ctx r).

Lemma good_dispatch (ctx0 ctx : Context) (r : DispatchCheckRequest) :
  Depth (ResolutionMetadata_ r) = uint32_pred (Depth (ResolutionMetadata_ req)) ->
  good (dispatch c ctx0 r ctx).
Proof.
  intros Hr. unfold dispatch. assert (H := dispatcher_good ctx r Hr).
  destruct (dispatcher c ctx r) as [[[[rsp|] [e|]]|x] t];
    try exact (good_answer _ H).
  - apply good_abort; [auto|apply H].
  - destruct H as [Hx Ht]. apply good_abort; [exact (Hx x eq_refl)|exact Ht].
Qed.

Lemma good_checkDirect_loop (ctx0 : Context) (iter : TupleIterator)
      (handlers handlers' : list CheckHandlerFunc) :
  (forall h, In h handlers -> forall ctx, good (h ctx)) ->
  checkDirect_loop c ctx0 req iter handlers = inl handlers' ->
  forall h, In h handlers' -> forall ctx, good (h ctx).
Proof.
  revert handlers. induction iter as [|[t|e] iter IH]; intros handlers Hh Hloop; simpl in Hloop.
  - now injection Hloop as <-.
  - destruct (SplitObjectRelation (User (Key t))) as [usersetObject usersetRelation].
    eapply IH; [|exact Hloop].
    intros h Hin. apply in_app_or in Hin. destruct Hin as [Hin|[<-|[]]]; [auto|].
    intros ctx. now apply good_dispatch.
  - destruct (error_eqb e ErrIteratorDone); [|discriminate]. now injection Hloop as <-.
Qed.

Lemma good_checkTTU_loop (ctx0 : Context) (computedRelation : string) (iter : TupleIterator)
      (handlers handlers' : list CheckHandlerFunc) :
  (forall h, In h handlers -> forall ctx, good (h ctx)) ->
  checkTTU_loop c ctx0 req computedRelation iter handlers = inl handlers' ->
  forall h, In h handlers' -> forall ctx, good (h ctx).
Proof.
  revert handlers. induction iter as [|[t|e] iter IH]; intros handlers Hh Hloop; simpl in Hloop.
  - now injection Hloop as <-.
  - destruct (SplitObjectRelation (User (Key t))) as [userObj ignored].
    eapply IH; [|exact Hloop].
    intros h Hin. apply in_app_or in Hin. destruct Hin as [Hin|[<-|[]]]; [auto|].
    intros ctx. now apply good_dispatch.
  - destruct (error_eqb e ErrIteratorDone); [|discriminate]. now injection Hloop as <-.
Qed.

Lemma good_checkDirect_fn1 (ctx : Context) : good (checkDirect_fn1 c req ctx).
Proof.
  unfold checkDirect_fn1.
  destruct (ReadUserTuple (ds c) (StoreId req) (TupleKey req)) as [[t|] [e|]];
    try destruct (error_eqb e ErrNotFound); apply good_ret.
Qed.

Lemma good_checkDirect_fn2 (ctx : Context) : good (checkDirect_fn2 sched c req ctx).
Proof.
  unfold checkDirect_fn2.
  destruct (ReadUsersetTuples (ds c) (StoreId req) (TupleKey req)) as [iter|e];
    [|apply good_ret].
  apply good_traced; [constructor; [apply open_ok|constructor]|].
  destruct (checkDirect_loop c ctx req iter []) as [handlers|e] eqn:Hloop; [|apply good_ret].
  destruct (0 <? length handlers)%nat; [|apply good_ret].
  apply good_union. intros h Hh.
  eapply good_checkDirect_loop; [|exact Hloop|exact Hh]. intros h' [].
Qed.

Lemma good_checkDirect (parentctx ctx : Context) : good (checkDirect sched c parentctx req ctx).
Proof.
  apply good_union. intros h [<-|[<-|[]]];
    [apply good_checkDirect_fn1|apply good_checkDirect_fn2].
Qed.

Lemma good_checkTTU (parentctx : Context) (rewrite : Userset) :
  match checkTTU sched c parentctx req rewrite with
  | Ret handler => forall ctx, good (handler ctx)
  | Abort x => x = Panic typesystem_missing
  end.
Proof.
  unfold checkTTU. destruct (ctx_typesys parentctx) as [typesys|]; [|reflexivity].
  intros ctx. cbv beta zeta.
  destruct (Read (ds c) (StoreId req) _) as [iter|e]; [|apply good_ret].
  apply good_traced; [constructor; [apply open_ok|constructor]|].
  apply good_defer; [apply stop_ok|].
  destruct (checkTTU_loop c _ req _ iter []) as [handlers|e] eqn:Hloop; [|apply good_ret].
  destruct (0 <? length handlers)%nat; [|apply good_ret].
  apply good_union. intros h Hh.
  eapply good_checkTTU_loop; [|exact Hloop|exact Hh]. intros h' [].
Qed.

Lemma good_sequence (l : list (call CheckHandlerFunc)) :
  Forall (builds_good bad ok) l ->
  match sequence l with
  | Ret handlers => forall h, In h handlers -> forall ctx, good (h ctx)
  | Abort x => x = Panic typesystem_missing
  end.
Proof.
  induction 1 as [|[h|x] l Hh Hl IH]; simpl.
  - intros h [].
  - destruct (sequence l) as [handlers|x]; [|exact IH].
    intros h' [<-|Hin]; [exact Hh|now apply IH].
  - exact Hh.
Qed.

Lemma good_checkRewrite (ctx : Context) (rewrite : Userset) :
  builds_good bad ok (checkRewrite sched c ctx req rewrite).
Proof.
  induction rewrite as [ | relation | tupleset computed | child IH | child IH
                         | base subtract IHb IHs ] using Userset_induction.
  - intros ctx'. apply good_checkDirect.
  - intros ctx'. now apply good_dispatch.
  - apply good_checkTTU.
  - simpl. unfold checkSetOperation.
    assert (H := good_sequence (l := map (checkRewrite sched c ctx req) child)).
    destruct (sequence _) as [handlers|x]; simpl.
    + intros ctx'. apply good_union. intros h Hh. apply H; [|exact Hh].
      apply Forall_map. exact IH.
    + apply H. apply Forall_map. exact IH.
  - simpl. unfold checkSetOperation.
    assert (H := good_sequence (l := map (checkRewrite sched c ctx req) child)).
    destruct (sequence _) as [handlers|x]; simpl.
    + intros ctx'. apply good_intersection. intros h Hh. apply H; [|exact Hh].
      apply Forall_map. exact IH.
    + apply H. apply Forall_map. exact IH.
  - simpl. unfold checkSetOperation. simpl.
    destruct (checkRewrite sched c ctx req base) as [hb|x]; [|exact IHb].
    destruct (checkRewrite sched c ctx req subtract) as [hs|x]; [|exact IHs].
    simpl. intros ctx'. apply good_exclusion; [apply IHb|apply IHs].
Qed.

End Invariant.

Lemma good_DispatchCheck (bad : abnormal -> Prop) (ok : event -> Prop)
      (sched : scheduler) (c : ConcurrentChecker) (ctx : Context)
      (req : DispatchCheckRequest) :
  ~ bad Blocked -> ~ bad (Panic nil_dereference) -> ~ bad (Panic typesystem_missing) ->
  (forall op store tk, ok (EvOpen op store tk)) ->
  (forall store tk, ok (EvStop OpRead store tk)) ->
  ok (EvDispatch req) ->
  (Depth (ResolutionMetadata_ req) <> 0%N ->
   forall ctx' r,
     Depth (ResolutionMetadata_ r) = uint32_pred (Depth (ResolutionMetadata_ req)) ->
     good bad ok (dispatcher c ctx' r)) ->
  good bad ok (DispatchCheck sched c ctx req).
Proof.
  intros Hblocked Hnil Hmissing Hopen Hstop Hdispatch Hsub.
  unfold DispatchCheck. apply good_traced; [constructor; [exact Hdispatch|constructor]|].
  destruct (Depth (ResolutionMetadata_ req) =? 0)%N eqn:Hdepth; [apply good_ret|].
  apply N.eqb_neq in Hdepth. specialize (Hsub Hdepth).
  destruct (ctx_typesys ctx) as [typesys|]; [|apply good_abort; [exact Hmissing|constructor]].
  destruct (SplitObject (Object (TupleKey req))) as [objectType ignored].
  destruct (GetRelation typesys objectType _) as [rel|e]; [|apply good_ret].
  assert (Hbuilt : builds_good bad ok (checkRewrite sched c ctx req (Rewrite rel)))
    by (apply good_checkRewrite; assumption).
  destruct (checkRewrite sched c ctx req (Rewrite rel)) as [handler|x]; simpl in Hbuilt.
  - assert (Hunion : good bad ok (union (sched req 1) ctx (concurrencyLimit c) [handler])).
    { apply good_union; auto. intros h [<-|[]]. apply Hbuilt. }
    destruct (union (sched req 1) ctx (concurrencyLimit c) [handler])
      as [[[[rsp|] [e|]]|x] t]; try exact (good_answer _ Hunion).
    + apply good_abort; [exact Hnil|apply Hunion].
    + destruct Hunion as [Hx Ht]. apply good_abort; [exact (Hx x eq_refl)|exact Ht].
  - subst x. apply good_abort; [exact Hmissing|constructor].
Qed.

Lemma good_checker (bad : abnormal -> Prop) (ok : event -> Prop)
      (sched : scheduler) (ds : OpenFGADatastore) (K : N) :
  ~ bad Blocked -> ~ bad (Panic nil_dereference) -> ~ bad (Panic typesystem_missing) ->
  ~ bad OutOfFuel ->
  (forall op store tk, ok (EvOpen op store tk)) ->
  (forall store tk, ok (EvStop OpRead store tk)) ->
  (forall req, ok (EvDispatch req)) ->
  forall fuel ctx req,
    good bad ok (DispatchCheck sched (NewConcurrentChecker sched fuel ds K) ctx req).
Proof.
  intros Hblocked Hnil Hmissing Hfuel Hopen Hstop Hdispatch.
  induction fuel as [|fuel IH]; intros ctx req;
    apply good_DispatchCheck; auto; intros _ ctx' r _; simpl.
  - apply good_abort; [exact Hfuel|constructor].
  - apply IH.
Qed.

(** ** The operands of exclusion *)

Lemma operands_panic_own :
  ~ operands_panic Blocked /\ ~ operands_panic (Panic nil_dereference)
  /\ ~ operands_panic (Panic typesystem_missing) /\ ~ operands_panic OutOfFuel.
Proof.
  repeat split; intros [n H]; try discriminate;
    injection H as H; unfold exclusion_panic in H; simpl in H; discriminate.
Qed.

Lemma good_not_panicking {A : Type} (r : run A) :
  good operands_panic (fun _ => True) r <-> ~ panics_on_operands r.
Proof.
  split.
  - intros [H _] (x & Hx & Hp). exact (H x Hx Hp).
  - intros H. split; [|apply Forall_forall; auto].
    intros x Hx Hp. apply H. now exists x.
Qed.

(** C10.  [exclusion] panics when it is given a number of handlers other
    than two, and with two handlers only if one of them does; the
    [Difference] case of [checkRewrite] hands it the base and the subtract
    handler and nothing else; and no check resolved by [DispatchCheck],
    whatever the model, the store, the schedule and the depth, ends in that
    panic. *)
Theorem exclusion_panic_unreachable :
  forall (sched : scheduler) (fuel : nat) (ds : OpenFGADatastore) (K : N)
         (ctx : Context) (req : DispatchCheckRequest),
    (forall s ctx' K' handlers,
        length handlers <> 2 ->
        exclusion s ctx' K' handlers
        = (Abort (Panic (exclusion_panic (length handlers))), []))
    /\ (forall s ctx' K' baseHandler subHandler,
           ~ panics_on_operands (baseHandler ctx') ->
           ~ panics_on_operands (subHandler ctx') ->
           ~ panics_on_operands (exclusion s ctx' K' [baseHandler; subHandler]))
    /\ (forall c base subtract baseHandler subHandler,
           checkRewrite sched c ctx req base = Ret baseHandler ->
           checkRewrite sched c ctx req subtract = Ret subHandler ->
           exists handler,
             checkRewrite sched c ctx req (Difference base subtract) = Ret handler
             /\ forall ctx',
                 handler ctx'
                 = exclusion (sched req 2) ctx' (concurrencyLimit c)
                             [baseHandler; subHandler])
    /\ ~ panics_on_operands
          (DispatchCheck sched (NewConcurrentChecker sched fuel ds K) ctx req).
Proof.
  intros sched fuel ds K ctx req.
  destruct operands_panic_own as (Hblocked & Hnil & Hmissing & Hfuel).
  split; [|split; [|split]].
  - intros s ctx' K' handlers Hlen. unfold exclusion.
    destruct handlers as [|b [|s' [|x handlers]]]; simpl in *; try reflexivity. lia.
  - intros s ctx' K' baseHandler subHandler Hb Hs.
    apply good_not_panicking. apply good_exclusion; auto; now apply good_not_panicking.
  - intros c base subtract baseHandler subHandler Hb Hs.
    simpl. unfold checkSetOperation. simpl. rewrite Hb, Hs. simpl.
    eexists. split; reflexivity.
  - apply good_not_panicking. apply good_checker; auto.
Qed.

(** ** The dispatcher is consulted one level down only *)

Section PublishOrderMap.

Context {A B : Type} (f : A -> B).

Lemma remove_nth_map (p : nat) (l : list A) :
  remove_nth p (map f l) = map f (remove_nth p l).
Proof.
  revert p. induction l as [|x l IH]; intros [|p]; simpl; try reflexivity.
  now rewrite IH.
Qed.

Lemma publish_order_map (n K : nat) (inflight pending : list A) (picks : list nat) :
  map f (publish_order n K inflight pending picks)
  = publish_order n K (map f inflight) (map f pending) picks.
Proof.
  revert inflight pending picks.
  induction n as [|n IH]; intros inflight pending picks; simpl; [reflexivity|].
  rewrite length_map, firstn_map, skipn_map, <- map_app, length_map.
  rewrite nth_error_map.
  destruct (nth_error _ _) as [fn|]; simpl; [|reflexivity].
  now rewrite IH, remove_nth_map.
Qed.

End PublishOrderMap.

Lemma Forall2_maps {A B : Type} (R : B -> B -> Prop) (f g : A -> B) (l : list A) :
  Forall (fun x => R (f x) (g x)) l -> Forall2 R (map f l) (map g l).
Proof. induction 1; simpl; constructor; auto. Qed.

Lemma same_handlers_run (ctx : Context) (hs hs' : list CheckHandlerFunc) :
  Forall2 same_handler hs hs' ->
  map (fun fn => fn ctx) hs = map (fun fn => fn ctx) hs'.
Proof. induction 1 as [|h h' hs hs' Hh _ IH]; simpl; [reflexivity|]. now rewrite Hh, IH. Qed.

Lemma resolver_ext (s : schedule) (ctx : Context) (K : N) (hs hs' : list CheckHandlerFunc) :
  Forall2 same_handler hs hs' -> resolver s ctx K hs = resolver s ctx K hs'.
Proof.
  intros H. unfold resolver. rewrite !publish_order_map.
  destruct (ctx_err ctx); rewrite ?started_map;
    now rewrite (Forall2_length H), (same_handlers_run ctx H).
Qed.

Lemma union_ext (s : schedule) (ctx : Context) (K : N) (hs hs' : list CheckHandlerFunc) :
  Forall2 same_handler hs hs' -> union s ctx K hs = union s ctx K hs'.
Proof. intros H. unfold union. now rewrite (resolver_ext s ctx K H), (Forall2_length H). Qed.

Lemma intersection_ext (s : schedule) (ctx : Context) (K : N)
      (hs hs' : list CheckHandlerFunc) :
  Forall2 same_handler hs hs' -> intersection s ctx K hs = intersection s ctx K hs'.
Proof.
  intros H. unfold intersection. now rewrite (resolver_ext s ctx K H), (Forall2_length H).
Qed.

Lemma exclusion_ext (s : schedule) (ctx : Context) (K : N) (hs hs' : list CheckHandlerFunc) :
  Forall2 same_handler hs hs' -> exclusion s ctx K hs = exclusion s ctx K hs'.
Proof.
  intros H. unfold exclusion.
  destruct H as [|b b' ? ? Hb [|s0 s0' ? ? Hs [|x x' hs hs' Hx H]]]; try reflexivity.
  - now rewrite Hb, Hs.
  - simpl. now rewrite (Forall2_length H).
Qed.

Section Agreement.

Variable sched : scheduler.
Variable c : ConcurrentChecker.
Variable d' : CheckDispatcher.
Variable req : DispatchCheckRequest.

Let c' := with_dispatcher c d'.

Hypothesis agree :
  forall ctx r,
    Depth (ResolutionMetadata_ r) = uint32_pred (Depth (ResolutionMetadata_ req)) ->
    dispatcher c ctx r = d' ctx r.

Lemma dispatch_ext (ctx0 : Context) (r : DispatchCheckRequest) :
  Depth (ResolutionMetadata_ r) = uint32_pred (Depth (ResolutionMetadata_ req)) ->
  same_handler (dispatch c ctx0 r) (dispatch c' ctx0 r).
Proof. intros Hr ctx. unfold dispatch. simpl. now rewrite (agree ctx r Hr). Qed.

Lemma checkDirect_loop_ext (ctx0 : Context) (iter : TupleIterator)
      (hs hs' : list CheckHandlerFunc) :
  Forall2 same_handler hs hs' ->
  same_handlers_or_error (checkDirect_loop c ctx0 req iter hs)
                         (checkDirect_loop c' ctx0 req iter hs').
Proof.
  revert hs hs'. induction iter as [|[t|e] iter IH]; intros hs hs' H; simpl.
  - exact H.
  - destruct (SplitObjectRelation (User (Key t))) as [usersetObject usersetRelation].
    apply IH. apply Forall2_app; [exact H|]. constructor; [|constructor].
    now apply dispatch_ext.
  - destruct (error_eqb e ErrIteratorDone); [exact H|reflexivity].
Qed.

Lemma checkTTU_loop_ext (ctx0 : Context) (computedRelation : string) (iter : TupleIterator)
      (hs hs' : list CheckHandlerFunc) :
  Forall2 same_handler hs hs' ->
  same_handlers_or_error (checkTTU_loop c ctx0 req computedRelation iter hs)
                         (checkTTU_loop c' ctx0 req computedRelation iter hs').
Proof.
  revert hs hs'. induction iter as [|[t|e] iter IH]; intros hs hs' H; simpl.
  - exact H.
  - destruct (SplitObjectRelation (User (Key t))) as [userObj ignored].
    apply IH. apply Forall2_app; [exact H|]. constructor; [|constructor].
    now apply dispatch_ext.
  - destruct (error_eqb e ErrIteratorDone); [exact H|reflexivity].
Qed.

Lemma checkDirect_ext (parentctx : Context) :
  same_handler (checkDirect sched c parentctx req) (checkDirect sched c' parentctx req).
Proof.
  intros ctx. unfold checkDirect. apply union_ext.
  constructor; [intros ctx'; reflexivity|]. constructor; [|constructor].
  intros ctx'. unfold checkDirect_fn2. simpl.
  destruct (ReadUsersetTuples (ds c) (StoreId req) (TupleKey req)) as [iter|e];
    [|reflexivity].
  f_equal.
  assert (H := checkDirect_loop_ext ctx' iter (Forall2_nil same_handler)).
  destruct (checkDirect_loop c ctx' req iter []) as [hs|e],
           (checkDirect_loop c' ctx' req iter []) as [hs'|e']; simpl in H; try contradiction.
  - rewrite (Forall2_length H). destruct (0 <? length hs')%nat; [|reflexivity].
    now apply union_ext.
  - now subst.
Qed.

Lemma checkTTU_ext (parentctx : Context) (rewrite : Userset) :
  same_built (checkTTU sched c parentctx req rewrite)
             (checkTTU sched c' parentctx req rewrite).
Proof.
  unfold checkTTU. destruct (ctx_typesys parentctx) as [typesys|]; [|reflexivity].
  intros ctx. cbv beta zeta. simpl.
  destruct (Read (ds c) (StoreId req) _) as [iter|e]; [|reflexivity].
  do 2 f_equal.
  set (ctx' := {| ctx_typesys := Some typesys; ctx_err := ctx_err ctx |}).
  assert (H := checkTTU_loop_ext ctx' (GetComputedUserset rewrite) iter
                                 (Forall2_nil same_handler)).
  destruct (checkTTU_loop c ctx' req _ iter []) as [hs|e],
           (checkTTU_loop c' ctx' req _ iter []) as [hs'|e']; simpl in H; try contradiction.
  - rewrite (Forall2_length H). destruct (0 <? length hs')%nat; [|reflexivity].
    now apply union_ext.
  - now subst.
Qed.

Lemma sequence_ext (l l' : list (call CheckHandlerFunc)) :
  Forall2 same_built l l' ->
  match sequence l, sequence l' with
  | Ret hs, Ret hs' => Forall2 same_handler hs hs'
  | Abort x, Abort x' => x = x'
  | _, _ => False
  end.
Proof.
  induction 1 as [|[h|x] [h'|x'] l l' Hh _ IH]; simpl in *; try contradiction; auto.
  destruct (sequence l) as [hs|x], (sequence l') as [hs'|x']; try contradiction; auto.
Qed.

Lemma checkRewrite_ext (ctx : Context) (rewrite : Userset) :
  same_built (checkRewrite sched c ctx req rewrite) (checkRewrite sched c' ctx req rewrite).
Proof.
  induction rewrite as [ | relation | tupleset computed | child IH | child IH
                         | base subtract IHb IHs ] using Userset_induction.
  - apply checkDirect_ext.
  - now apply dispatch_ext.
  - apply checkTTU_ext.
  - simpl. unfold checkSetOperation.
    assert (H := sequence_ext (Forall2_maps _ _ _ IH)).
    destruct (sequence _) as [hs|x], (sequence _) as [hs'|x']; simpl; try exact H.
    intros ctx'. rewrite (Forall2_length H). now apply union_ext.
  - simpl. unfold checkSetOperation.
    assert (H := sequence_ext (Forall2_maps _ _ _ IH)).
    destruct (sequence _) as [hs|x], (sequence _) as [hs'|x']; simpl; try exact H.
    intros ctx'. rewrite (Forall2_length H). now apply intersection_ext.
  - simpl. unfold checkSetOperation. simpl.
    destruct (checkRewrite sched c ctx req base) as [hb|x],
             (checkRewrite sched c' ctx req base) as [hb'|x']; try contradiction; auto.
    destruct (checkRewrite sched c ctx req subtract) as [hs|y],
             (checkRewrite sched c' ctx req subtract) as [hs'|y']; try contradiction; auto.
    cbn - [exclusion]. intros ctx'. apply exclusion_ext. repeat constructor; auto.
Qed.

Lemma DispatchCheck_ext (ctx : Context) :
  DispatchCheck sched c ctx req = DispatchCheck sched c' ctx req.
Proof.
  unfold DispatchCheck. f_equal.
  destruct (Depth (ResolutionMetadata_ req) =? 0)%N; [reflexivity|].
  destruct (ctx_typesys ctx) as [typesys|]; [|reflexivity].
  destruct (SplitObject (Object (TupleKey req))) as [objectType ignored].
  destruct (GetRelation typesys objectType _) as [rel|e]; [|reflexivity].
  assert (H := checkRewrite_ext ctx (Rewrite rel)).
  destruct (checkRewrite sched c ctx req (Rewrite rel)) as [h|x],
           (checkRewrite sched c' ctx req (Rewrite rel)) as [h'|x'];
    simpl in H; try contradiction; [|now subst].
  simpl. rewrite (union_ext (sched req 1) ctx (concurrencyLimit c) (hs := [h]) (hs' := [h']));
    [reflexivity|]. constructor; [exact H|constructor].
Qed.

End Agreement.

(** ** The depth counter *)

Lemma uint32_pred_exact (d : N) :
  d <> 0%N -> (d < 4294967296)%N -> uint32_pred d = (d - 1)%N.
Proof.
  intros Hd Hlt. unfold uint32_pred.
  replace (d + 4294967295)%N with (d - 1 + 1 * 4294967296)%N by lia.
  rewrite N.Div0.mod_add. apply N.mod_small. lia.
Qed.

Lemma uint32_pred_lt (d : N) : d <> 0%N -> (uint32_pred d < d)%N.
Proof.
  intros Hd. unfold uint32_pred.
  replace (d + 4294967295)%N with (d - 1 + 1 * 4294967296)%N by lia.
  rewrite N.Div0.mod_add.
  assert (H := N.Div0.mod_le (d - 1) 4294967296). lia.
Qed.

Lemma NewConcurrentChecker_fields (sched : scheduler) (fuel : nat)
      (ds0 : OpenFGADatastore) (K : N) :
  ds (NewConcurrentChecker sched fuel ds0 K) = ds0
  /\ concurrencyLimit (NewConcurrentChecker sched fuel ds0 K) = K.
Proof. destruct fuel; split; reflexivity. Qed.

Lemma DispatchCheck_depth_zero (sched : scheduler) (c : ConcurrentChecker)
      (ctx : Context) (req : DispatchCheckRequest) :
  Depth (ResolutionMetadata_ req) = 0%N ->
  DispatchCheck sched c ctx req
  = (Ret (None, Some ErrResolutionDepthExceeded), [EvDispatch req]).
Proof. intros H. unfold DispatchCheck. now rewrite H. Qed.

Lemma DispatchCheck_agree (sched : scheduler) (c : ConcurrentChecker) (d' : CheckDispatcher)
      (ctx : Context) (req : DispatchCheckRequest) :
  (Depth (ResolutionMetadata_ req) <> 0%N ->
   forall ctx' r,
     Depth (ResolutionMetadata_ r) = uint32_pred (Depth (ResolutionMetadata_ req)) ->
     dispatcher c ctx' r = d' ctx' r) ->
  DispatchCheck sched c ctx req = DispatchCheck sched (with_dispatcher c d') ctx req.
Proof.
  intros H. destruct (N.eq_dec (Depth (ResolutionMetadata_ req)) 0) as [Hd|Hd].
  - now rewrite !DispatchCheck_depth_zero.
  - apply DispatchCheck_ext. auto.
Qed.

(** A checker unrolled at least as often as the depth of the request never
    runs out of fuel, and unrolling it further changes nothing. *)
Lemma DispatchCheck_fuel (sched : scheduler) (ds0 : OpenFGADatastore) (K : N) (fuel : nat) :
  forall fuel' ctx req,
    N.to_nat (Depth (ResolutionMetadata_ req)) <= fuel ->
    N.to_nat (Depth (ResolutionMetadata_ req)) <= fuel' ->
    DispatchCheck sched (NewConcurrentChecker sched fuel ds0 K) ctx req
    = DispatchCheck sched (NewConcurrentChecker sched fuel' ds0 K) ctx req.
Proof.
  induction fuel as [|fuel IH]; intros fuel' ctx req Hfuel Hfuel'.
  - rewrite !DispatchCheck_depth_zero by lia. reflexivity.
  - rewrite (DispatchCheck_agree sched _
               (dispatcher (NewConcurrentChecker sched fuel' ds0 K)) ctx req).
    + f_equal. unfold with_dispatcher.
      destruct fuel'; reflexivity.
    + intros Hd ctx' r Hr. assert (Hlt := uint32_pred_lt Hd).
      destruct fuel' as [|fuel']; [lia|]. simpl. apply IH; lia.
Qed.

Lemma DispatchCheck_total (sched : scheduler) (ds0 : OpenFGADatastore) (K : N) (fuel : nat) :
  forall ctx req,
    N.to_nat (Depth (ResolutionMetadata_ req)) <= fuel ->
    fst (DispatchCheck sched (NewConcurrentChecker sched fuel ds0 K) ctx req)
    <> Abort OutOfFuel.
Proof.
  assert (Hgood : forall ctx req,
             N.to_nat (Depth (ResolutionMetadata_ req)) <= fuel ->
             good (fun x => x = OutOfFuel) (fun _ => True)
                  (DispatchCheck sched (NewConcurrentChecker sched fuel ds0 K) ctx req)).
  { induction fuel as [|fuel IH]; intros ctx req Hfuel;
      apply good_DispatchCheck; try discriminate; auto; intros Hd ctx' r Hr.
    - lia.
    - assert (Hlt := uint32_pred_lt Hd). simpl. apply IH. lia. }
  intros ctx req Hfuel Habs. exact (proj1 (Hgood ctx req Hfuel) _ Habs eq_refl).
Qed.

Lemma union_single (s : schedule) (ctx : Context) (K : N) (h : CheckHandlerFunc) :
  K <> 0%N -> ctx_err ctx = None ->
  union s ctx K [h] = union_loop 1 [Received (h ctx)].
Proof.
  intros HK Hctx. unfold union. rewrite selections_uncancelled by exact Hctx.
  assert (Hperm := @resolver_perm s ctx K [h] HK Hctx). simpl in Hperm.
  apply Permutation_sym, Permutation_length_1_inv in Hperm. now rewrite Hperm.
Qed.

Lemma descent_same_key (req req' : DispatchCheckRequest) (n : nat) :
  StoreId req' = StoreId req -> AuthorizationModelId req' = AuthorizationModelId req ->
  TupleKey req' = TupleKey req ->
  descent req' n = descent req n.
Proof.
  intros Hs Hm Hk. induction n as [|n IH]; simpl; [reflexivity|].
  rewrite IH. unfold at_depth. now rewrite Hs, Hm, Hk.
Qed.

(** A relation rewritten to itself: every level of the resolution dispatches
    the same tuple key one level down, until the depth is used up. *)
Lemma self_reference_descends (sched : scheduler) (ds0 : OpenFGADatastore) (K : N)
      (typesys : TypeSystem) (objectType relation : string) (rel : typesystem.Relation) :
  K <> 0%N ->
  GetRelation typesys objectType relation = inl rel ->
  Rewrite rel = ComputedUserset relation ->
  forall n fuel req,
    Depth (ResolutionMetadata_ req) = N.of_nat n ->
    (N.of_nat n < 4294967296)%N ->
    n <= fuel ->
    fst (SplitObject (Object (TupleKey req))) = objectType ->
    tuple.Relation (TupleKey req) = relation ->
    DispatchCheck sched (NewConcurrentChecker sched fuel ds0 K) (with_typesystem typesys) req
    = (Ret (None, Some ErrResolutionDepthExceeded), EvDispatch req :: descent req n).
Proof.
  intros HK Hrel Hrewrite.
  induction n as [|n IH]; intros fuel req Hdepth Hrange Hfuel Hobject Hrelation.
  - now apply DispatchCheck_depth_zero.
  - destruct fuel as [|fuel]; [lia|].
    unfold DispatchCheck at 1. rewrite Hdepth.
    replace (N.of_nat (S n) =? 0)%N with false by (symmetry; apply N.eqb_neq; lia).
    cbn [ctx_typesys with_typesystem].
    destruct (SplitObject (Object (TupleKey req))) as [objectType' id] eqn:Hsplit.
    simpl in Hobject. subst objectType'. rewrite Hrelation, Hrel, Hrewrite.
    cbn [checkRewrite]. rewrite Hdepth.
    destruct (NewConcurrentChecker_fields sched (S fuel) ds0 K) as [_ ->].
    rewrite union_single by (exact HK || reflexivity).
    match goal with
    | |- context [dispatch _ _ ?r] =>
        replace r with (at_depth req (N.of_nat n))
    end.
    2:{ unfold at_depth. f_equal.
        - unfold NewTupleKey. rewrite <- Hrelation. now destruct (TupleKey req).
        - f_equal. rewrite uint32_pred_exact by lia. lia. }
    assert (Hsub : dispatcher (NewConcurrentChecker sched (S fuel) ds0 K)
                              (with_typesystem typesys) (at_depth req (N.of_nat n))
                   = (Ret (None, Some ErrResolutionDepthExceeded),
                      EvDispatch (at_depth req (N.of_nat n))
                      :: descent (at_depth req (N.of_nat n)) n)).
    { change (dispatcher (NewConcurrentChecker sched (S fuel) ds0 K))
        with (DispatchCheck sched (NewConcurrentChecker sched fuel ds0 K)).
      apply IH.
      - reflexivity.
      - lia.
      - lia.
      - cbn [at_depth TupleKey]. now rewrite Hsplit.
      - exact Hrelation. }
    unfold dispatch. cbn [union_loop]. rewrite Hsub.
    cbn [err resp failed fst snd traced app descent].
    now rewrite (@descent_same_key req (at_depth req (N.of_nat n)) n).
Qed.

(** C2.  The sub-checks of a check at depth [d] are dispatched at depth
    [d - 1] and at no other depth: the result of [DispatchCheck] does not
    depend on what the dispatcher does elsewhere.  At depth 0
    [DispatchCheck] fails with "resolution depth exceeded" and does nothing
    else.  Hence a relation rewritten to itself by a computed userset returns
    that error after dispatching the same tuple key at each of the depths
    [d - 1], ..., [0] once. *)
Theorem depth_limit :
  forall (sched : scheduler) (c : ConcurrentChecker) (ctx : Context)
         (req : DispatchCheckRequest),
    (Depth (ResolutionMetadata_ req) < 4294967296)%N ->
    (forall d' : CheckDispatcher,
        (Depth (ResolutionMetadata_ req) <> 0%N ->
         forall ctx' r,
           Depth (ResolutionMetadata_ r) = (Depth (ResolutionMetadata_ req) - 1)%N ->
           dispatcher c ctx' r = d' ctx' r) ->
        DispatchCheck sched c ctx req = DispatchCheck sched (with_dispatcher c d') ctx req)
    /\ (Depth (ResolutionMetadata_ req) = 0%N ->
        DispatchCheck sched c ctx req
        = (Ret (None, Some ErrResolutionDepthExceeded), [EvDispatch req]))
    /\ (forall (ds0 : OpenFGADatastore) (K : N) (typesys : TypeSystem)
               (objectType relation : string) (rel : typesystem.Relation) (fuel : nat),
           K <> 0%N ->
           GetRelation typesys objectType relation = inl rel ->
           Rewrite rel = ComputedUserset relation ->
           fst (SplitObject (Object (TupleKey req))) = objectType ->
           tuple.Relation (TupleKey req) = relation ->
           N.to_nat (Depth (ResolutionMetadata_ req)) <= fuel ->
           DispatchCheck sched (NewConcurrentChecker sched fuel ds0 K)
                         (with_typesystem typesys) req
           = (Ret (None, Some ErrResolutionDepthExceeded),
              EvDispatch req :: descent req (N.to_nat (Depth (ResolutionMetadata_ req))))).
Proof.
  intros sched c ctx req Hrange. split; [|split].
  - intros d' Hagree. apply DispatchCheck_agree.
    intros Hd ctx' r Hr. apply Hagree; [exact Hd|].
    now rewrite Hr, uint32_pred_exact.
  - apply DispatchCheck_depth_zero.
  - intros ds0 K typesys objectType relation rel fuel HK Hrel Hrewrite Hobject Hrelation Hfuel.
    eapply self_reference_descends; eauto; lia.
Qed.

Lemma depth_limit_witness :
  (3 < 4294967296)%N
  /\ DispatchCheck always_in_order (memory_checker [] 1 3) (with_typesystem model)
                   (check_request "document:1" "self" "user:jon" 3)
     = (Ret (None, Some ErrResolutionDepthExceeded),
        EvDispatch (check_request "document:1" "self" "user:jon" 3)
        :: descent (check_request "document:1" "self" "user:jon" 3) 3).
Proof.
  split; [reflexivity|].
  refine (proj2 (proj2 (depth_limit always_in_order (memory_checker [] 1 3)
                          (with_typesystem model)
                          (check_request "document:1" "self" "user:jon" 3) eq_refl))
            (memory []) 1%N model "document" "self"
            {| Rewrite := ComputedUserset "self"; DirectlyRelatedUserTypes := [] |}
            3 _ eq_refl eq_refl eq_refl eq_refl _).
  - discriminate.
  - apply le_n.
Defined.

(** ** Iterators *)

(** The handler of [checkTTU] releases its iterator on every path on which it
    exits. *)
Lemma checkTTU_stops (sched : scheduler) (c : ConcurrentChecker) (parentctx ctx : Context)
      (req : DispatchCheckRequest) (rewrite : Userset) (handler : CheckHandlerFunc)
      (iter : TupleIterator) :
  checkTTU sched c parentctx req rewrite = Ret handler ->
  Read (ds c) (StoreId req)
       (NewTupleKey (Object (TupleKey req)) (GetTupleset rewrite) "") = inl iter ->
  exited (fst (handler ctx)) = true ->
  exists t,
    snd (handler ctx)
    = EvOpen OpRead (StoreId req)
             (NewTupleKey (Object (TupleKey req)) (GetTupleset rewrite) "")
      :: t ++ [EvStop OpRead (StoreId req)
                      (NewTupleKey (Object (TupleKey req)) (GetTupleset rewrite) "")].
Proof.
  unfold checkTTU. destruct (ctx_typesys parentctx) as [typesys|]; [|discriminate].
  intros [= <-] Hread. cbv beta zeta. rewrite Hread.
  match goal with
  | |- context [defer ?ev ?r] => generalize r
  end.
  intros [[o|[m|e| |]] t]; simpl; intros Hexit; try discriminate; now exists t.
Qed.

(** [expandDirect] and [expandTTU] release theirs on every path. *)
Lemma expand_stops (l : listusers.listUsersQuery)
      (expand : Context -> listusers.ListUsersRequest -> listusers.expansion)
      (ctx : Context) (req : listusers.ListUsersRequest)
      (tupleset computed : string) (typesys : TypeSystem) :
  listusers.typesystemResolver l ctx (listusers.StoreId req)
                               (listusers.AuthorizationModelId req) = inl typesys ->
  (forall iter key,
      key = {| Object := ObjectKey (listusers.Object req);
               tuple.Relation := listusers.Relation req; User := "" |} ->
      Read (listusers.ds l) (listusers.StoreId req) key = inl iter ->
      exists t,
        listusers.trace (listusers.expandDirect l expand ctx req)
        = EvOpen OpRead (listusers.StoreId req) key
          :: t ++ [EvStop OpRead (listusers.StoreId req) key])
  /\ (forall iter key,
         key = {| Object := ObjectKey (listusers.Object req);
                  tuple.Relation := tupleset; User := "" |} ->
         Read (listusers.ds l) (listusers.StoreId req) key = inl iter ->
         exists t,
           listusers.trace (listusers.expandTTU l expand ctx req tupleset computed)
           = EvOpen OpRead (listusers.StoreId req) key
             :: t ++ [EvStop OpRead (listusers.StoreId req) key]).
Proof.
  intros Hts. split; intros iter key -> Hread.
  - unfold listusers.expandDirect. rewrite Hts, Hread.
    destruct (listusers.expandDirect_loop _ _ _ _ _ _) as [p exit]. simpl.
    now exists (listusers.pool_trace p).
  - unfold listusers.expandTTU. rewrite Hts, Hread.
    destruct (listusers.expandTTU_loop _ _ _ _ _ _ _) as [p exit]. simpl.
    now exists (listusers.pool_trace p).
Qed.

Lemma not_userset_stop_in (t : list event) (store : string) (tk : tuple.TupleKey) :
  Forall not_userset_stop t -> ~ In (EvStop OpReadUsersetTuples store tk) t.
Proof.
  intros H Hin. rewrite Forall_forall in H. exact (H _ Hin).
Qed.

(** C6 fails in [checkDirect].  The userset handler obtains an iterator from
    [ReadUsersetTuples] and returns without releasing it: whenever the read
    succeeds its trace opens that iterator and no evaluation of the checker
    ever stops an iterator of [ReadUsersetTuples]; a check of
    [document:1#viewer@user:jon] on an empty store leaves the iterator open. *)
Theorem usersets_iterator_left_open :
  (forall (sched : scheduler) (fuel : nat) (ds0 : OpenFGADatastore) (K : N)
          (ctx : Context) (req : DispatchCheckRequest) (iter : TupleIterator),
      ReadUsersetTuples ds0 (StoreId req) (TupleKey req) = inl iter ->
      let t := snd (checkDirect_fn2 sched (NewConcurrentChecker sched fuel ds0 K) req ctx) in
      hd_error t = Some (EvOpen OpReadUsersetTuples (StoreId req) (TupleKey req))
      /\ forall store tk, ~ In (EvStop OpReadUsersetTuples store tk) t)
  /\ (forall (sched : scheduler) (fuel : nat) (ds0 : OpenFGADatastore) (K : N)
             (ctx : Context) (req : DispatchCheckRequest) store tk,
         ~ In (EvStop OpReadUsersetTuples store tk)
              (snd (DispatchCheck sched (NewConcurrentChecker sched fuel ds0 K) ctx req)))
  /\ DispatchCheck always_in_order (memory_checker [] 1 1) (with_typesystem model)
                   (check_request "document:1" "viewer" "user:jon" 1)
     = (Ret (Some {| dispatcher.Allowed := false |}, None),
        [EvDispatch (check_request "document:1" "viewer" "user:jon" 1);
         EvOpen OpReadUsersetTuples "s" (NewTupleKey "document:1" "viewer" "user:jon")]).
Proof.
  assert (Hchecker : forall sched fuel ds0 K ctx req,
             good (fun _ => False) not_userset_stop
                  (DispatchCheck sched (NewConcurrentChecker sched fuel ds0 K) ctx req)).
  { intros. apply good_checker; simpl; auto. }
  split; [|split].
  - intros sched fuel ds0 K ctx req iter Hread t. split.
    + unfold t, checkDirect_fn2.
      destruct (NewConcurrentChecker_fields sched fuel ds0 K) as [-> _].
      now rewrite Hread.
    + intros store tk. apply not_userset_stop_in.
      assert (Hgood : good (fun _ => False) not_userset_stop
                           (checkDirect_fn2 sched (NewConcurrentChecker sched fuel ds0 K)
                                            req ctx)).
      { apply good_checkDirect_fn2; simpl; auto.
        intros ctx' r _. destruct fuel as [|fuel]; simpl.
        - apply good_abort; [auto|constructor].
        - apply Hchecker. }
      apply Hgood.
  - intros sched fuel ds0 K ctx req store tk.
    apply not_userset_stop_in, Hchecker.
  - reflexivity.
Qed.

(** ** ListUsers: the target of the expansion *)

(** C5 fails through [ComputedUserset].  A level emits its object when its
    type and relation are the target the level was called with; the direct
    and the tuple-to-userset steps hand the target on, the computed-userset
    step hands on the target type with an empty target relation.
    [ListUsers(group:eng, can_view)] with target [group#member] reaches
    [(group:eng, member)] and does not find [group:eng], which the same
    request on [member] does. *)
Theorem computed_userset_drops_target_relation :
  (forall l fuel ctx req,
      Type_ (listusers.Object req) = listusers.TargetUserObjectType req ->
      listusers.Relation req = listusers.TargetUserRelation req ->
      hd_error (listusers.found (listusers.expand l (S fuel) ctx req))
      = Some (listusers.Object req))
  /\ (forall l fuel ctx req typesys relation computed,
         listusers.typesystemResolver l ctx (listusers.StoreId req)
                                      (listusers.AuthorizationModelId req) = inl typesys ->
         GetRelation typesys (Type_ (listusers.Object req)) (listusers.Relation req)
         = inl relation ->
         Rewrite relation = ComputedUserset computed ->
         exists emitted,
           listusers.expand l (S fuel) ctx req
           = listusers.emit emitted
               (listusers.expand l fuel ctx
                  {| listusers.StoreId := listusers.StoreId req;
                     listusers.AuthorizationModelId := listusers.AuthorizationModelId req;
                     listusers.Object := listusers.Object req;
                     listusers.Relation := computed;
                     listusers.TargetUserObjectType := listusers.TargetUserObjectType req;
                     listusers.TargetUserRelation := "";
                     listusers.ContextualTuples := listusers.ContextualTuples req |}))
  /\ listusers.ListUsers (listusers.NewListUsersQuery (memory [])) 3 (with_typesystem model)
                         (list_users_request group_eng "can_view" "group" "member")
     = Ret (Some [], None)
  /\ listusers.ListUsers (listusers.NewListUsersQuery (memory [])) 3 (with_typesystem model)
                         (list_users_request group_eng "member" "group" "member")
     = Ret (Some [group_eng], None).
Proof.
  split; [|split; [|split]].
  - intros l fuel ctx req Htype Hrel. simpl.
    rewrite Htype, Hrel, !String.eqb_refl. reflexivity.
  - intros l fuel ctx req typesys relation computed Hts Hrel Hrewrite.
    eexists. cbn [listusers.expand]. rewrite Hts, Hrel, Hrewrite. reflexivity.
  - reflexivity.
  - reflexivity.
Qed.

(** ** Invalid tuples *)

Section ListUsersFilter.

Import listusers.

Variable typesys : TypeSystem.
Variable tuples : list tuple.TupleKey.

Let valid := validation.FilterInvalidTuples typesys.
Let item (t : tuple.TupleKey) : Tuple + error := inl {| Key := t |}.

Lemma expandDirect_loop_filtered
      (expand expand' : Context -> ListUsersRequest -> expansion)
      (ctx : Context) (req : ListUsersRequest) (m : tuple.TupleKey -> bool) :
  (forall req', expand ctx req' = expand' ctx req') ->
  forall ts p,
    expandDirect_loop expand ctx req valid (map item (filter m ts)) p
    = expandDirect_loop expand' ctx req valid (map item (filter m (filter valid ts))) p.
Proof.
  intros Hexpand. induction ts as [|t ts IH]; intros p; [reflexivity|].
  cbn [filter]. destruct (valid t) eqn:Hvalid; cbn [filter];
    destruct (m t); cbn [map item expandDirect_loop Key]; rewrite ?Hvalid; auto.
  destruct (SplitObjectRelation (User t)) as [userObject userRelation].
  destruct (SplitObject userObject) as [userObjectType userObjectID].
  destruct (String.eqb userRelation "").
  - destruct (String.eqb userObjectType (TargetUserObjectType req)); apply IH.
  - rewrite Hexpand. apply IH.
Qed.

Lemma expandTTU_loop_filtered
      (expand expand' : Context -> ListUsersRequest -> expansion)
      (ctx : Context) (req : ListUsersRequest) (computed : string)
      (m : tuple.TupleKey -> bool) :
  (forall req', expand ctx req' = expand' ctx req') ->
  forall ts p,
    expandTTU_loop expand ctx req computed valid (map item (filter m ts)) p
    = expandTTU_loop expand' ctx req computed valid
                     (map item (filter m (filter valid ts))) p.
Proof.
  intros Hexpand. induction ts as [|t ts IH]; intros p; [reflexivity|].
  cbn [filter]. destruct (valid t) eqn:Hvalid; cbn [filter];
    destruct (m t); cbn [map item expandTTU_loop Key]; rewrite ?Hvalid; auto.
  destruct (SplitObject (User t)) as [userObjectType userObjectID].
  rewrite Hexpand. apply IH.
Qed.

(** The expansion over a store and over its valid tuples are the same. *)
Lemma expand_ignores_invalid (fuel : nat) (ctx : Context) (req : ListUsersRequest) :
  ctx_typesys ctx = Some typesys ->
  expand (NewListUsersQuery (memory tuples)) fuel ctx req
  = expand (NewListUsersQuery (memory (filter valid tuples))) fuel ctx req.
Proof.
  intros Hctx. revert req. induction fuel as [|fuel IH]; intros req; [reflexivity|].
  cbn [expand NewListUsersQuery typesystemResolver]. rewrite Hctx. f_equal.
  destruct (GetRelation typesys _ _) as [relation|e]; [|reflexivity].
  destruct (Rewrite relation) as [ | computed | tupleset computed | | | ];
    try reflexivity.
  - unfold expandDirect. cbn [typesystemResolver NewListUsersQuery ds Read memory].
    rewrite Hctx. do 2 f_equal. apply expandDirect_loop_filtered. exact IH.
  - apply IH.
  - unfold expandTTU. cbn [typesystemResolver NewListUsersQuery ds Read memory].
    rewrite Hctx. do 2 f_equal. apply expandTTU_loop_filtered. exact IH.
Qed.

End ListUsersFilter.

(** C4 fails for Check.  ListUsers filters what it reads, so its result over
    a store is its result over the valid tuples of the store.  The Check
    evaluator reads the store as it is: the invalid tuple
    [document:1#viewer@employee:bob] makes a check allowed that the store
    without it denies, and so does the invalid userset tuple
    [document:1#viewer@group:eng#member]. *)
Theorem check_reads_invalid_tuples :
  (forall typesys tuples fuel ctx req,
      ctx_typesys ctx = Some typesys ->
      listusers.ListUsers (listusers.NewListUsersQuery (memory tuples)) fuel ctx req
      = listusers.ListUsers
          (listusers.NewListUsersQuery
             (memory (filter (validation.FilterInvalidTuples typesys) tuples)))
          fuel ctx req)
  /\ validation.FilterInvalidTuples model invalid_tuple = false
  /\ fst (DispatchCheck always_in_order (memory_checker [invalid_tuple] 1 1)
            (with_typesystem model)
            (check_request "document:1" "viewer" "employee:bob" 1))
     = Ret (Some {| dispatcher.Allowed := true |}, None)
  /\ fst (DispatchCheck always_in_order
            (memory_checker (filter (validation.FilterInvalidTuples model) [invalid_tuple])
                            1 1)
            (with_typesystem model)
            (check_request "document:1" "viewer" "employee:bob" 1))
     = Ret (Some {| dispatcher.Allowed := false |}, None)
  /\ filter (validation.FilterInvalidTuples model) [invalid_userset_tuple; member_tuple]
     = [member_tuple]
  /\ fst (DispatchCheck always_in_order
            (memory_checker [invalid_userset_tuple; member_tuple] 1 2)
            (with_typesystem model)
            (check_request "document:1" "viewer" "user:jon" 2))
     = Ret (Some {| dispatcher.Allowed := true |}, None)
  /\ fst (DispatchCheck always_in_order (memory_checker [member_tuple] 1 2)
            (with_typesystem model)
            (check_request "document:1" "viewer" "user:jon" 2))
     = Ret (Some {| dispatcher.Allowed := false |}, None).
Proof.
  split.
  - intros typesys tuples fuel ctx req Hctx. unfold listusers.ListUsers.
    now rewrite (@expand_ignores_invalid typesys tuples fuel ctx req Hctx).
  - repeat split; reflexivity.
Qed.

(** ** The materialized difference *)

Lemma where_compared (b s : row) :
  where_holds (key_equal compared_columns) b s = Some (compared b s).
Proof.
  unfold where_holds.
  replace (split_on " AND " (String.length (key_equal compared_columns))
                    (key_equal compared_columns))
    with ["b.subject_type=s.subject_type"; "b.subject_id=s.subject_id";
          "b.object_type=s.object_type"; "b.object_id=s.object_id"]%string
    by (vm_compute; reflexivity).
  unfold compared. cbn. now rewrite andb_true_r, !andb_assoc.
Qed.

Lemma not_exists_spec (p : row -> row -> bool) (base subtract : list row) (b : row) :
  In b (not_exists p base subtract) <->
  In b base /\ ~ exists s, In s subtract /\ p b s = true.
Proof.
  unfold not_exists. rewrite filter_In, negb_true_iff. split; intros [Hb H]; split; auto.
  - intros Hex. apply existsb_exists in Hex. congruence.
  - destruct (existsb (p b) subtract) eqn:Hex; [|reflexivity].
    exfalso. apply H. now apply existsb_exists.
Qed.

Lemma not_exists_ext (p q : row -> row -> bool) (base subtract : list row) :
  (forall b s, p b s = q b s) -> not_exists p base subtract = not_exists q base subtract.
Proof.
  intros Hpq. unfold not_exists. apply filter_ext. intros b. f_equal.
  induction subtract as [|s subtract IH]; simpl; [reflexivity|]. now rewrite Hpq, IH.
Qed.

Lemma after_last_app (sep head tail rest : string) :
  after_last sep tail = Some rest -> after_last sep (head ++ tail) = Some rest.
Proof.
  intros Htail. induction head as [|c head IH]; [exact Htail|].
  change (String c head ++ tail)%string with (String c (head ++ tail)).
  cbn [after_last]. now rewrite IH.
Qed.

(** The condition read off a difference statement is the conjunction of the
    four equalities, whatever the statements of the operands. *)
Lemma not_exists_form_condition (base subtract relation : string) :
  subquery_condition (not_exists_form base subtract relation)
  = Some (key_equal compared_columns).
Proof.
  unfold subquery_condition.
  assert (Hlast : after_last "WHERE " (not_exists_form base subtract relation)
                  = Some (key_equal compared_columns ++ ")")%string).
  { unfold not_exists_form. do 6 apply after_last_app. vm_compute. reflexivity. }
  rewrite Hlast. vm_compute. reflexivity.
Qed.

Lemma compared_columnwise (b s : row) :
  compared b s = true <->
  subject_type b = subject_type s /\ subject_id b = subject_id s
  /\ object_type b = object_type s /\ object_id b = object_id s.
Proof.
  unfold compared. rewrite !andb_true_iff, !String.eqb_eq. tauto.
Qed.

(** C7 (as amended).  For a difference whose operands have a statement, the
    materializer returns the statement of the relation whose SQL binds the
    SQL of base and of subtract and selects from base where no row of
    subtract exists that meets the condition of the subquery; that
    condition, read off the statement returned, is the equality of the two
    rows on [subject_type], [subject_id], [object_type] and [object_id]
    ([subject_relation] is not compared), so the statement drops a row of
    base exactly when subtract has a row equal to it on these four
    columns. *)
Theorem difference_not_exists :
  forall (typesys : TypeSystem) (objectType relation : string) (base subtract : Userset)
         (baseStatement subtractStatement : materializer.namedSQLStatement),
    materializer.materializeInternalWithRewrite typesys objectType relation base
    = Ret baseStatement ->
    materializer.materializeInternalWithRewrite typesys objectType relation subtract
    = Ret subtractStatement ->
    exists statement,
      materializer.materializeInternalWithRewrite typesys objectType relation
                                                  (Difference base subtract)
      = Ret statement
      /\ materializer.name statement = (objectType ++ "_" ++ relation)%string
      /\ materializer.sql statement
         = not_exists_form (materializer.sql baseStatement)
                           (materializer.sql subtractStatement) relation
      /\ subquery_condition (materializer.sql statement)
         = Some "b.subject_type=s.subject_type AND b.subject_id=s.subject_id AND b.object_type=s.object_type AND b.object_id=s.object_id"%string
      /\ forall (rows_base rows_subtract : list row),
          exists kept,
            difference_rows (materializer.sql statement) rows_base rows_subtract
            = Some kept
            /\ forall b : row,
                In b kept <->
                In b rows_base
                /\ ~ exists s, In s rows_subtract
                               /\ subject_type b = subject_type s
                               /\ subject_id b = subject_id s
                               /\ object_type b = object_type s
                               /\ object_id b = object_id s.
Proof.
  intros typesys objectType relation base subtract baseStatement subtractStatement
         Hbase Hsubtract.
  cbn [materializer.materializeInternalWithRewrite]. rewrite Hbase, Hsubtract.
  eexists. split; [reflexivity|]. cbn [materializer.name materializer.sql].
  split; [reflexivity|]. split; [reflexivity|].
  change (_ ++ _)%string
    with (not_exists_form (materializer.sql baseStatement)
                          (materializer.sql subtractStatement) relation).
  split; [apply not_exists_form_condition|].
  intros rows_base rows_subtract. unfold difference_rows.
  rewrite not_exists_form_condition.
  exists (not_exists compared rows_base rows_subtract). split.
  - f_equal. apply not_exists_ext. intros b s. now rewrite where_compared.
  - intros b. rewrite not_exists_spec. split; intros [Hb Hnone]; split; auto;
      intros (s & Hs & Heq); apply Hnone; exists s; split; auto;
      now apply compared_columnwise.
Qed.

Lemma difference_not_exists_witness :
  materializer.materializeInternalWithRewrite [] "document" "viewer"
                                              (ComputedUserset "editor")
  = Ret (materializer.materializeComputedUserset "document" "viewer" "editor")
  /\ materializer.materializeInternalWithRewrite [] "document" "viewer"
                                                 (ComputedUserset "blocked")
     = Ret (materializer.materializeComputedUserset "document" "viewer" "blocked")
  /\ exists statement,
      materializer.materializeInternalWithRewrite
        [] "document" "viewer"
        (Difference (ComputedUserset "editor") (ComputedUserset "blocked"))
      = Ret statement
      /\ materializer.name statement = "document_viewer"%string.
Proof.
  split; [reflexivity|]. split; [reflexivity|].
  destruct (@difference_not_exists
              [] "document" "viewer" (ComputedUserset "editor") (ComputedUserset "blocked")
              (materializer.materializeComputedUserset "document" "viewer" "editor")
              (materializer.materializeComputedUserset "document" "viewer" "blocked")
              eq_refl eq_refl)
    as (statement & Hstatement & Hname & _).
  exists statement. split; [exact Hstatement|exact Hname].
Defined.

(** C7 (as stated) fails: the rows of [group:eng#member] and of [group:eng]
    differ in [subject_relation], a subject key column of the schema, and
    the statement of a difference drops the first from base on account of
    the second in subtract. *)
Lemma difference_ignores_subject_relation :
  exists statement,
    materializer.materializeInternalWithRewrite
      [] "document" "viewer"
      (Difference (ComputedUserset "editor") (ComputedUserset "blocked"))
    = Ret statement
    /\ difference_rows (materializer.sql statement) [userset_row] [object_row] = Some []
    /\ ~ (exists s, In s [object_row] /\ key_equal_rows userset_row s = true).
Proof.
  eexists. split; [reflexivity|]. split; [vm_compute; reflexivity|].
  intros (s & [<-|[]] & Heq). vm_compute in Heq. discriminate.
Qed.

(** ** No worker outlives its reducer *)

Lemma worker_step_drained (s s' : state) :
  worker_step s s' -> drained s -> drained s'.
Proof.
  intros Hstep [Hwg Hret].
  destruct Hstep as [s ws1 ws2 j Hws|s ws1 ws2 j Hws Hlim|s ws1 ws2 j Hws];
    unfold drained, accounted in *; simpl; rewrite Hws in Hwg;
    rewrite !length_app in *; simpl in *.
  - split; [lia|exact Hret].
  - split; [lia|exact Hret].
  - split; [lia|]. intros Hr. specialize (Hret Hr). lia.
Qed.

Lemma finish_step_drained (s s' : state) :
  finish_step s s' -> drained s -> drained s'.
Proof.
  intros Hstep [Hwg Hret].
  destruct Hstep as [s Hr|s Hr Hzero]; unfold drained, accounted in *; simpl;
    rewrite Hr in Hwg; simpl in Hwg.
  - split; [exact Hwg|discriminate].
  - split; [exact Hwg|auto].
Qed.

Lemma cancel_caller_drained (s : state) : drained s -> drained (cancel_caller s).
Proof. intros H. exact H. Qed.

Lemma resolver_step_drained (n K : nat) (decides : nat -> bool) (s s' : state) :
  resolver_step n K decides s s' -> drained s -> drained s'.
Proof.
  intros Hstep Hd.
  destruct Hstep as [s j Ho Hj Hlim|s j Ho Hj Hc|s j Ho|s j Ho|s Ho
                     |s i j rest Hr Hi Hch|s i Hr Hi Hdone|s Hr
                     |s s' Hf|s s' Hw|s];
    try (now apply (finish_step_drained Hf));
    try (now apply (worker_step_drained Hw));
    try (now apply cancel_caller_drained);
    destruct Hd as [Hwg Hret]; unfold drained, accounted in *; simpl;
    try rewrite Ho in *; try rewrite Hr in *; simpl in *;
    try rewrite length_app; simpl.
  - split; [exact Hwg|exact Hret].
  - split; [exact Hwg|exact Hret].
  - split; [lia|]. intros Hq. specialize (Hret Hq). lia.
  - split; [lia|]. intros Hq. specialize (Hret Hq). lia.
  - split; [lia|]. intros Hq. specialize (Hret Hq). lia.
  - split; [destruct (decides j); simpl; lia|destruct (decides j); discriminate].
  - split; [lia|discriminate].
  - split; [lia|discriminate].
Qed.

Lemma exclusion_step_drained (K : nat) (decides : nat -> bool) (s s' : state) :
  exclusion_step K decides s s' -> drained s -> drained s'.
Proof.
  intros Hstep Hd.
  destruct Hstep as [s k Hr Hlim|s k Hr|s k Hr|s i k c1 c2 Hr Hi Hch|s i Hr Hi Hdone|s Hr
                     |s s' Hf|s s' Hw|s];
    try (now apply (finish_step_drained Hf));
    try (now apply (worker_step_drained Hw));
    try (now apply cancel_caller_drained);
    destruct Hd as [Hwg Hret]; unfold drained, accounted in *; simpl;
    rewrite Hr in *; simpl in *; try rewrite length_app; simpl.
  - split; [lia|discriminate].
  - split; [lia|discriminate].
  - split; [destruct (k =? 0)%nat; simpl; lia|destruct (k =? 0)%nat; discriminate].
  - split; [destruct (decides k); simpl; lia|destruct (decides k); discriminate].
  - split; [lia|discriminate].
  - split; [lia|discriminate].
Qed.

Lemma reachable_drained (step : state -> state -> Prop) (s0 s : state) :
  (forall a b, step a b -> drained a -> drained b) ->
  drained s0 -> reachable step s0 s -> drained s.
Proof. intros Hstep H0. induction 1; eauto. Qed.

Lemma drained_quiescent (s : state) : drained s -> reducer s = Returned -> quiescent s.
Proof.
  intros [Hwg Hret] Hr. specialize (Hret Hr). rewrite Hret in Hwg.
  unfold accounted, quiescent in *.
  destruct (orchestrator s); destruct (workers s); simpl in *; try lia. auto.
Qed.

(** A run of [union] over one handler with limit one that returns. *)
Ltac advance H tac :=
  let H' := fresh "H" in
  pose proof (fun s' => @reachable_step _ _ _ s' H) as H';
  specialize (H' _ ltac:(tac)); clear H; rename H' into H.

Lemma resolver_run_returns :
  reachable (resolver_step 1 1 (fun _ => true)) (resolver_start false) returned_state.
Proof.
  pose proof (reachable_start (resolver_step 1 1 (fun _ => true)) (resolver_start false))
    as H.
  advance H ltac:(apply orchestrator_acquires with (j := 0); simpl; auto).
  advance H ltac:(apply orchestrator_counts with (j := 0); reflexivity).
  advance H ltac:(apply orchestrator_spawns with (j := 0); reflexivity).
  advance H ltac:(apply resolver_worker;
                  apply worker_sends with (ws1 := []) (ws2 := []) (j := 0); reflexivity).
  advance H ltac:(apply reducer_receives with (i := 0) (j := 0) (rest := []);
                  simpl; auto).
  advance H ltac:(apply resolver_finishes; apply reducer_cancels; reflexivity).
  advance H ltac:(apply resolver_worker;
                  apply worker_frees with (ws1 := []) (ws2 := []) (j := 0); simpl; auto).
  advance H ltac:(apply resolver_worker;
                  apply worker_exits with (ws1 := []) (ws2 := []) (j := 0); reflexivity).
  advance H ltac:(apply orchestrator_exits; reflexivity).
  advance H ltac:(apply resolver_finishes; apply reducer_returns; reflexivity).
  exact H.
Qed.

(** C8.  In every execution of [union] or [intersection] (any number of
    handlers, any limit, any rule for returning early, the caller's context
    cancelled at any moment or never) and in every execution of [exclusion],
    once the reducer has returned its orchestrator and all the workers it
    started have exited: the wait group counts every goroutine from before it
    starts until its last statement, and the deferred function returns only
    at a count of zero. *)
Theorem reducers_drain :
  forall (n K : nat) (decides : nat -> bool) (cancelled : bool) (s : state),
    (reachable (resolver_step n K decides) (resolver_start cancelled) s ->
     reducer s = Returned -> quiescent s)
    /\ (reachable (exclusion_step K decides) (exclusion_start cancelled) s ->
        reducer s = Returned -> quiescent s).
Proof.
  intros n K decides cancelled s. split; intros Hreach Hret;
    apply drained_quiescent; try exact Hret;
    eapply reachable_drained; try exact Hreach.
  - apply resolver_step_drained.
  - split; [reflexivity|discriminate].
  - apply exclusion_step_drained.
  - split; [reflexivity|discriminate].
Qed.

Lemma reducers_drain_witness :
  reachable (resolver_step 1 1 (fun _ => true)) (resolver_start false) returned_state
  /\ reducer returned_state = Returned
  /\ quiescent returned_state.
Proof.
  split; [exact resolver_run_returns|]. split; [reflexivity|].
  exact (proj1 (reducers_drain 1 1 (fun _ => true) false returned_state)
           resolver_run_returns eq_refl).
Defined.

(* ================================================================== *)
(** * Further properties *)

Import occupancy.

(** ** The limiter and the result channels *)

Lemma filter_middle {A : Type} (f : A -> bool) (l1 l2 : list A) (x : A) :
  length (filter f (l1 ++ x :: l2))
  = length (filter f l1) + (if f x then 1 else 0) + length (filter f l2).
Proof.
  rewrite filter_app, length_app. simpl. destruct (f x); simpl; lia.
Qed.

Lemma filter_without {A : Type} (f : A -> bool) (l1 l2 : list A) :
  length (filter f (l1 ++ l2)) = length (filter f l1) + length (filter f l2).
Proof. now rewrite filter_app, length_app. Qed.

Lemma worker_step_slots (K : nat) (s s' : state) :
  worker_step s s' -> slots_accounted K s -> slots_accounted K s'.
Proof.
  intros Hstep [Hlim HK].
  destruct Hstep as [s ws1 ws2 j Hws|s ws1 ws2 j Hws Hpos|s ws1 ws2 j Hws];
    unfold slots_accounted, reserved in *; simpl; rewrite Hws in Hlim;
    rewrite filter_middle in *; rewrite ?filter_without; simpl in *; lia.
Qed.

Lemma finish_step_slots (K : nat) (s s' : state) :
  finish_step s s' -> slots_accounted K s -> slots_accounted K s'.
Proof.
  intros Hstep [Hlim HK].
  destruct Hstep as [s Hr|s Hr Hzero]; unfold slots_accounted, reserved in *; simpl;
    rewrite Hr in Hlim; simpl in Hlim; lia.
Qed.

Lemma resolver_step_slots (n K : nat) (decides : nat -> bool) (s s' : state) :
  resolver_step n K decides s s' -> slots_accounted K s -> slots_accounted K s'.
Proof.
  intros Hstep Hd.
  destruct Hstep as [s j Ho Hj Hlim|s j Ho Hj Hc|s j Ho|s j Ho|s Ho
                     |s i j rest Hr Hi Hch|s i Hr Hi Hdone|s Hr
                     |s s' Hf|s s' Hw|s];
    try (now apply (finish_step_slots Hf));
    try (now apply (worker_step_slots Hw));
    try exact Hd;
    destruct Hd as [Hacc HK]; unfold slots_accounted, reserved in *; simpl;
    try rewrite Ho in *; try rewrite Hr in *; simpl in *;
    rewrite ?filter_without; simpl; try lia.
  destruct (decides j); simpl; lia.
Qed.

Lemma exclusion_step_slots (K : nat) (decides : nat -> bool) (s s' : state) :
  exclusion_step K decides s s' -> slots_accounted K s -> slots_accounted K s'.
Proof.
  intros Hstep Hd.
  destruct Hstep as [s k Hr Hlim|s k Hr|s k Hr|s i k c1 c2 Hr Hi Hch|s i Hr Hi Hdone|s Hr
                     |s s' Hf|s s' Hw|s];
    try (now apply (finish_step_slots Hf));
    try (now apply (worker_step_slots Hw));
    try exact Hd;
    destruct Hd as [Hacc HK]; unfold slots_accounted, reserved in *; simpl;
    rewrite Hr in *; simpl in *; rewrite ?filter_without; simpl; try lia.
  - destruct (k =? 0)%nat; simpl; lia.
  - destruct (decides k); simpl; lia.
Qed.

Lemma reachable_invariant (P : state -> Prop) (step : state -> state -> Prop)
      (s0 s : state) :
  (forall a b, step a b -> P a -> P b) -> P s0 -> reachable step s0 s -> P s.
Proof. intros Hstep H0. induction 1; eauto. Qed.

Lemma evaluating_holds_slot (ws : list (nat * worker_pc)) :
  length (filter evaluating ws) <= length (filter holds_slot ws).
Proof.
  induction ws as [|[j [| |]] ws IH]; simpl; unfold evaluating, holds_slot in *; simpl; lia.
Qed.

Lemma first_worker_run :
  reachable (resolver_step 2 1 (fun _ => true)) (resolver_start false) first_worker_started.
Proof.
  pose proof (reachable_start (resolver_step 2 1 (fun _ => true)) (resolver_start false))
    as H.
  advance H ltac:(apply orchestrator_acquires with (j := 0); simpl; auto).
  advance H ltac:(apply orchestrator_counts with (j := 0); reflexivity).
  advance H ltac:(apply orchestrator_spawns with (j := 0); reflexivity).
  exact H.
Qed.

(** X1.  At every moment of every execution of [union], [intersection] and
    [exclusion], whatever the handlers, the schedule and the cancellations,
    the handlers being evaluated are at most [concurrencyLimit]: a worker
    is started only with a token in the limiter, and takes it out only after
    its handler has returned and its outcome is sent. *)
Theorem limit_bounds_evaluations :
  forall (n K : nat) (decides : nat -> bool) (cancelled : bool) (s : state),
    (reachable (resolver_step n K decides) (resolver_start cancelled) s ->
     length (filter evaluating (workers s)) <= K)
    /\ (reachable (exclusion_step K decides) (exclusion_start cancelled) s ->
        length (filter evaluating (workers s)) <= K).
Proof.
  intros n K decides cancelled s.
  assert (Hbound : slots_accounted K s -> length (filter evaluating (workers s)) <= K).
  { intros [Hacc HK]. pose proof (evaluating_holds_slot (workers s)). lia. }
  split; intros Hreach; apply Hbound;
    eapply reachable_invariant; try exact Hreach.
  - apply resolver_step_slots.
  - unfold slots_accounted; simpl; lia.
  - apply exclusion_step_slots.
  - unfold slots_accounted; simpl; lia.
Qed.

Lemma limit_bounds_evaluations_witness :
  reachable (resolver_step 2 1 (fun _ => true)) (resolver_start false) first_worker_started
  /\ length (filter evaluating (workers first_worker_started)) <= 1.
Proof.
  split; [exact first_worker_run|].
  exact (proj1 (limit_bounds_evaluations 2 1 (fun _ => true) false first_worker_started)
           first_worker_run).
Defined.

Lemma worker_step_room (n : nat) (s s' : state) :
  worker_step s s' -> room_left n s -> room_left n s'.
Proof.
  intros Hstep (Hroom & Hn & Ho).
  destruct Hstep as [s ws1 ws2 j Hws|s ws1 ws2 j Hws Hpos|s ws1 ws2 j Hws];
    unfold room_left, passed in *; simpl; rewrite Hws in Hroom;
    rewrite filter_middle in *; rewrite ?filter_without, ?length_app; simpl in *;
    repeat split; try assumption; lia.
Qed.

Lemma finish_step_room (n : nat) (s s' : state) :
  finish_step s s' -> room_left n s -> room_left n s'.
Proof. intros Hstep H. destruct Hstep; exact H. Qed.

Lemma resolver_step_room (n K : nat) (decides : nat -> bool) (s s' : state) :
  resolver_step n K decides s s' -> room_left n s -> room_left n s'.
Proof.
  intros Hstep Hd.
  destruct Hstep as [s j Ho Hj Hlim|s j Ho Hj Hc|s j Ho|s j Ho|s Ho
                     |s i j rest Hr Hi Hch|s i Hr Hi Hdone|s Hr
                     |s s' Hf|s s' Hw|s];
    try (now apply (finish_step_room Hf));
    try (now apply (worker_step_room Hw));
    try exact Hd;
    destruct Hd as (Hroom & Hn & Hpc); unfold room_left, passed in *; simpl;
    try rewrite Ho in *; try rewrite Hch in *; simpl in *;
    rewrite ?filter_without; simpl; repeat split; try assumption; try lia.
Qed.

Lemma outstanding_workers (k : nat) (ws1 ws2 : list (nat * worker_pc)) (w : nat * worker_pc) :
  length (filter (fun w => (fst w =? k)%nat && evaluating w) (ws1 ++ w :: ws2))
  = length (filter (fun w => (fst w =? k)%nat && evaluating w) ws1)
    + (if (fst w =? k)%nat && evaluating w then 1 else 0)
    + length (filter (fun w => (fst w =? k)%nat && evaluating w) ws2).
Proof.
  exact (filter_middle (fun w => (fst w =? k)%nat && evaluating w) ws1 ws2 w).
Qed.

Lemma worker_step_outstanding (k : nat) (s s' : state) :
  worker_step s s' -> reducer s' = reducer s /\ outstanding k s' = outstanding k s.
Proof.
  intros Hstep.
  destruct Hstep as [s ws1 ws2 j Hws|s ws1 ws2 j Hws Hpos|s ws1 ws2 j Hws];
    unfold outstanding; simpl; rewrite Hws;
    rewrite ?count_occ_app, !outstanding_workers, ?filter_without; simpl;
    unfold evaluating; simpl; rewrite ?andb_false_r, ?andb_true_r; split; try reflexivity.
  all: try lia.
  destruct (Nat.eq_dec j k) as [->|Hjk].
  - rewrite Nat.eqb_refl. lia.
  - apply Nat.eqb_neq in Hjk. rewrite Hjk. lia.
Qed.

Lemma exclusion_step_outcomes (K : nat) (decides : nat -> bool) (s s' : state) :
  exclusion_step K decides s s' -> one_outcome_each s -> one_outcome_each s'.
Proof.
  intros Hstep [Hout Hpc].
  destruct Hstep as [s k Hr Hlim|s k Hr|s k Hr|s i k c1 c2 Hr Hi Hch|s i Hr Hi Hdone|s Hr
                     |s s' Hf|s s' Hw|s].
  - split; [|simpl; now rewrite Hr in Hpc].
    intros k'. specialize (Hout k'). unfold outstanding, spawned in *; simpl.
    now rewrite Hr in Hout.
  - split; [|simpl; now rewrite Hr in Hpc].
    intros k'. specialize (Hout k'). unfold outstanding, spawned in *; simpl.
    now rewrite Hr in Hout.
  - rewrite Hr in Hpc. split.
    + intros k'. specialize (Hout k'). unfold outstanding, spawned in *; simpl.
      rewrite Hr in Hout. rewrite filter_without. simpl.
      unfold evaluating at 2. simpl. rewrite andb_true_r.
      destruct k as [|[|k]]; [| |lia]; simpl;
        destruct k' as [|[|k']]; simpl in *; lia.
    + simpl. destruct (k =? 0)%nat; simpl; [lia|exact I].
  - split.
    + intros k'. specialize (Hout k'). unfold outstanding, spawned in *; simpl.
      rewrite Hr in Hout. rewrite Hch in Hout.
      rewrite count_occ_app in *. simpl in Hout.
      assert (Hsp : match (if decides k then Deferred else Looping (S i)) with
                    | Starting j | Slotted j | CountedFor j => (k' <? j)%nat
                    | _ => (k' <? 2)%nat
                    end = (k' <? 2)%nat) by now destruct (decides k).
      rewrite Hsp. destruct (Nat.eq_dec k k'); lia.
    + simpl. now destruct (decides k).
  - split; [|exact I].
    intros k'. specialize (Hout k'). unfold outstanding, spawned in *; simpl.
    now rewrite Hr in Hout.
  - split; [|exact I].
    intros k'. specialize (Hout k'). unfold outstanding, spawned in *; simpl.
    now rewrite Hr in Hout.
  - destruct Hf as [s Hr|s Hr Hzero]; (split; [|exact I]);
      intros k'; specialize (Hout k'); unfold outstanding, spawned in *; simpl;
      now rewrite Hr in Hout.
  - split.
    + intros k'. destruct (worker_step_outstanding k' Hw) as [Hr Ho].
      rewrite Ho. unfold spawned. rewrite Hr. apply Hout.
    + destruct (worker_step_outstanding 0 Hw) as [Hr _]. now rewrite Hr.
  - split; [exact Hout|exact Hpc].
Qed.

(** X2.  A worker never blocks on its send.  In every execution of [union]
    and [intersection] over [n] handlers the outcomes in [resultChan],
    together with those the started workers have still to send, are at most
    [n], the capacity of the channel; in every execution of [exclusion] each
    of the two workers has at most one outcome sent or to send, the capacity
    of [baseChan] and of [subChan]. *)
Theorem result_channel_has_room :
  forall (n K : nat) (decides : nat -> bool) (cancelled : bool) (s : state),
    (reachable (resolver_step n K decides) (resolver_start cancelled) s ->
     length (resultChan s) + length (filter evaluating (workers s)) <= n)
    /\ (reachable (exclusion_step K decides) (exclusion_start cancelled) s ->
        forall k, outstanding k s <= 1).
Proof.
  intros n K decides cancelled s. split; intros Hreach.
  - assert (H : room_left n s).
    { eapply reachable_invariant; try exact Hreach.
      - apply resolver_step_room.
      - unfold room_left, passed; simpl; repeat split; lia. }
    destruct H as (Hroom & Hn & _). lia.
  - assert (H : one_outcome_each s).
    { eapply reachable_invariant; try exact Hreach.
      - apply exclusion_step_outcomes.
      - split; [|simpl; lia]. intros k. unfold outstanding, spawned; simpl. lia. }
    intros k. destruct H as [H _]. specialize (H k). destruct (spawned k s); lia.
Qed.

Lemma result_channel_has_room_witness :
  reachable (resolver_step 2 1 (fun _ => true)) (resolver_start false) first_worker_started
  /\ length (resultChan first_worker_started)
     + length (filter evaluating (workers first_worker_started)) <= 2.
Proof.
  split; [exact first_worker_run|].
  exact (proj1 (result_channel_has_room 2 1 (fun _ => true) false first_worker_started)
           first_worker_run).
Defined.

Import conduct.

(** ** Reducers that cannot return *)

Lemma union_loop_returns (n : nat) (rs : list (run checkOutcome)) (tail : list selected) :
  forallb returns rs = true ->
  n <= length rs \/ (exists e tail', tail = CtxDone e :: tail') ->
  returns (union_loop n (map Received rs ++ tail)) = true.
Proof.
  revert rs. induction n as [|n IH]; intros rs Hrs Hn; [reflexivity|].
  destruct rs as [|[[o|x] t] rs]; simpl in Hrs; try discriminate.
  - destruct Hn as [Hn|(e & tail' & ->)]; [simpl in Hn; lia|reflexivity].
  - simpl. destruct (err o); [reflexivity|].
    destruct (GetAllowed (resp o)); [reflexivity|].
    unfold returns. rewrite fst_traced. apply IH; [exact Hrs|].
    destruct Hn as [Hn|Hn]; [left; simpl in Hn; lia|now right].
Qed.

Lemma intersection_loop_returns (n : nat) (rs : list (run checkOutcome))
      (tail : list selected) :
  forallb returns rs = true ->
  n <= length rs \/ (exists e tail', tail = CtxDone e :: tail') ->
  returns (intersection_loop n (map Received rs ++ tail)) = true.
Proof.
  revert rs. induction n as [|n IH]; intros rs Hrs Hn; [reflexivity|].
  destruct rs as [|[[o|x] t] rs]; simpl in Hrs; try discriminate.
  - destruct Hn as [Hn|(e & tail' & ->)]; [simpl in Hn; lia|reflexivity].
  - simpl. destruct (err o); [reflexivity|].
    destruct (negb (GetAllowed (resp o))); [reflexivity|].
    unfold returns. rewrite fst_traced. apply IH; [exact Hrs|].
    destruct Hn as [Hn|Hn]; [left; simpl in Hn; lia|now right].
Qed.

Lemma resolver_returns (s : schedule) (ctx : Context) (K : N)
      (handlers : list CheckHandlerFunc) :
  (forall h, In h handlers -> returns (h ctx) = true) ->
  forall l, (forall r, In r l -> In r (resolver s ctx K handlers)) ->
  forallb returns l = true.
Proof.
  intros Hret l Hl. apply forallb_forall. intros r Hr.
  destruct (resolver_in _ _ _ _ _ (Hl r Hr)) as (h & Hh & ->). now apply Hret.
Qed.

Lemma selections_shape (s : schedule) (ctx : Context) (K : N)
      (handlers : list CheckHandlerFunc) :
  (forall h, In h handlers -> returns (h ctx) = true) ->
  K <> 0%N \/ ctx_err ctx <> None ->
  exists rs tail,
    selections s ctx (resolver s ctx K handlers) = map Received rs ++ tail
    /\ forallb returns rs = true
    /\ (length handlers <= length rs \/ exists e tail', tail = CtxDone e :: tail').
Proof.
  intros Hret Hcase. unfold selections.
  destruct (ctx_err ctx) as [e|] eqn:Hctx.
  - eexists. exists [CtxDone e]. split; [reflexivity|]. split; [|right; eauto].
    apply (resolver_returns s ctx K handlers Hret).
    intros r Hr. destruct (done_at s) as [i|]; [|exact Hr].
    rewrite <- (firstn_skipn i (resolver s ctx K handlers)). apply in_or_app. now left.
  - exists (resolver s ctx K handlers), []. rewrite app_nil_r.
    split; [reflexivity|]. split.
    + apply (resolver_returns s ctx K handlers Hret). auto.
    + left. destruct Hcase as [HK|Hc]; [|congruence].
      assert (Hl := Permutation_length (@resolver_perm s ctx K handlers HK Hctx)).
      rewrite length_map in Hl. unfold CheckHandlerFunc in *. lia.
Qed.

Lemma exclusion_loop_returns_or_panics (s : schedule) (ctx : Context)
      (x y : exclusion_selected) :
  match x with
  | BaseResult r | SubResult r => returns r = true
  | ExclusionCtxDone _ => False
  end ->
  match y with
  | BaseResult r | SubResult r => returns r = true
  | ExclusionCtxDone _ => False
  end ->
  ~ blocks (exclusion_loop 2 (exclusion_selections s ctx [x; y])).
Proof.
  unfold blocks, exclusion_selections. intros Hx Hy.
  assert (Hshape : forall l, (exists e, l = [ExclusionCtxDone e]) \/ (exists e, l = [x; ExclusionCtxDone e])
                             \/ (exists tail, l = x :: y :: tail) ->
                             fst (exclusion_loop 2 l) <> Abort Blocked).
  { intros l [[e ->]|[[e ->]|[tail ->]]]; [discriminate| |].
    - destruct x as [[[o|a] t]|[[o|a] t]|e']; try contradiction; try discriminate;
        simpl; destruct (err o); try discriminate;
        destruct (resp o) as [[[]]|]; discriminate.
    - destruct x as [[[o|a] t]|[[o|a] t]|e']; try contradiction; try discriminate;
        destruct y as [[[o'|a'] t']|[[o'|a'] t']|e'']; try contradiction; try discriminate;
        simpl; destruct (err o); try discriminate;
        destruct (resp o) as [[[]]|]; try discriminate; simpl;
        destruct (err o'); try discriminate;
        destruct (resp o') as [[[]]|]; discriminate. }
  apply Hshape.
  destruct (ctx_err ctx) as [e|]; [|right; right; now exists []].
  destruct (done_at s) as [[|[|i]]|]; simpl; eauto.
Qed.

(** X3.  When its handlers return, a reducer fails to return only for want
    of a slot in the limiter: [union] and [intersection] over at least one
    handler block exactly when the limit is zero and the context is never
    cancelled, [exclusion] exactly when the limit is zero, cancelled or not;
    under a cancelled context with a limit of zero [union] and
    [intersection] return the error of the context. *)
Theorem reducers_block_without_slots :
  forall (s : schedule) (ctx : Context) (K : N)
         (handlers : list CheckHandlerFunc) (baseHandler subHandler : CheckHandlerFunc),
    handlers <> [] ->
    (forall h, In h handlers -> returns (h ctx) = true) ->
    returns (baseHandler ctx) = true -> returns (subHandler ctx) = true ->
    (blocks (union s ctx K handlers) <-> K = 0%N /\ ctx_err ctx = None)
    /\ (blocks (intersection s ctx K handlers) <-> K = 0%N /\ ctx_err ctx = None)
    /\ (blocks (exclusion s ctx K [baseHandler; subHandler]) <-> K = 0%N)
    /\ (forall e, K = 0%N -> ctx_err ctx = Some e ->
        fst (union s ctx K handlers) = Ret {| resp := None; err := Some e |}
        /\ fst (intersection s ctx K handlers) = Ret {| resp := None; err := Some e |}).
Proof.
  intros s ctx K handlers baseHandler subHandler Hne Hret Hb Hs.
  assert (Hzero : K = 0%N -> resolver s ctx K handlers = []).
  { intros ->. unfold resolver. simpl. now rewrite publish_order_zero. }
  assert (Hpos : exists n, length handlers = S n).
  { destruct handlers as [|h hs]; [contradiction|]. now exists (length hs). }
  destruct Hpos as [n Hn].
  assert (Hcase : K = 0%N /\ ctx_err ctx = None \/ (K <> 0%N \/ ctx_err ctx <> None)).
  { destruct (N.eq_dec K 0) as [HK|HK]; [|now right; left].
    destruct (ctx_err ctx); [right; right; discriminate|now left]. }
  split; [|split; [|split]].
  - split.
    + intros Hblock. destruct Hcase as [H|H]; [exact H|exfalso].
      destruct (@selections_shape s ctx K handlers Hret H) as (rs & tail & Hsel & Hrs & Hlen).
      unfold blocks, union in Hblock. rewrite Hsel in Hblock.
      pose proof (@union_loop_returns (length handlers) rs tail Hrs Hlen) as Hr.
      unfold returns in Hr. now rewrite Hblock in Hr.
    + intros [HK Hctx]. unfold blocks, union, selections.
      rewrite (Hzero HK), Hctx, Hn. reflexivity.
  - split.
    + intros Hblock. destruct Hcase as [H|H]; [exact H|exfalso].
      destruct (@selections_shape s ctx K handlers Hret H) as (rs & tail & Hsel & Hrs & Hlen).
      unfold blocks, intersection in Hblock. rewrite Hsel in Hblock.
      pose proof (@intersection_loop_returns (length handlers) rs tail Hrs Hlen) as Hr.
      unfold returns in Hr. now rewrite Hblock in Hr.
    + intros [HK Hctx]. unfold blocks, intersection, selections.
      rewrite (Hzero HK), Hctx, Hn. reflexivity.
  - unfold exclusion. destruct (K =? 0)%N eqn:HK.
    + apply N.eqb_eq in HK. split; [auto|reflexivity].
    + apply N.eqb_neq in HK. split; [|contradiction]. intros Hblock. exfalso.
      revert Hblock.
      destruct (exclusion_order (BaseResult (baseHandler ctx)) (SubResult (subHandler ctx))
                                (picks s)) as [-> | ->];
        now apply exclusion_loop_returns_or_panics.
  - intros e HK Hctx. unfold union, intersection, selections.
    rewrite (Hzero HK), Hctx, Hn. destruct (done_at s); simpl; rewrite ?firstn_nil; auto.
Qed.

Lemma reducers_block_without_slots_witness :
  [denying] <> []
  /\ (forall h, In h [denying] -> returns (h background) = true)
  /\ returns (allowing background) = true /\ returns (denying background) = true
  /\ (blocks (union in_order background 0%N [denying]) <-> 0%N = 0%N /\ ctx_err background = None).
Proof.
  assert (H1 : [denying] <> []) by discriminate.
  assert (H2 : forall h, In h [denying] -> returns (h background) = true).
  { intros h [<-|[]]. reflexivity. }
  split; [exact H1|]. split; [exact H2|]. split; [reflexivity|]. split; [reflexivity|].
  exact (proj1 (@reducers_block_without_slots in_order background 0%N [denying]
                  allowing denying H1 H2 eq_refl eq_refl)).
Defined.
Import shapes.

(** ** A limit of one *)

Lemma resolver_one (s : schedule) (ctx : Context) (handlers : list CheckHandlerFunc) :
  ctx_err ctx = None ->
  resolver s ctx 1%N handlers = map (fun h => h ctx) handlers.
Proof.
  intros Hctx. unfold resolver. rewrite Hctx.
  change (N.to_nat 1) with 1. now rewrite publish_order_one.
Qed.

(** X4.  With a concurrency limit of one and a context that is never
    cancelled, the workers of [resolver] send their outcomes in the order of
    the handlers, so that the outcome of [union] and of [intersection]
    (response or error) does not depend on the schedule. *)
Theorem limit_one_in_order :
  forall (s : schedule) (ctx : Context) (handlers : list CheckHandlerFunc),
    ctx_err ctx = None ->
    map fst (resolver s ctx 1%N handlers) = map (fun h => fst (h ctx)) handlers
    /\ (forall s' : schedule,
           fst (union s ctx 1%N handlers) = fst (union s' ctx 1%N handlers)
           /\ fst (intersection s ctx 1%N handlers)
              = fst (intersection s' ctx 1%N handlers)).
Proof.
  intros s ctx handlers Hctx. split.
  - rewrite resolver_one by exact Hctx. now rewrite map_map.
  - intros s'. unfold union, intersection.
    rewrite !selections_uncancelled by exact Hctx.
    now rewrite !resolver_one by exact Hctx.
Qed.

Lemma limit_one_in_order_witness :
  ctx_err background = None
  /\ map fst (resolver in_order background 1%N [erring; allowing])
     = map (fun h => fst (h background)) [erring; allowing]
  /\ fst (union in_order background 1%N [erring; allowing])
     = fst (union {| picks := [1]; skips := []; done_at := None |} background 1%N
                  [erring; allowing]).
Proof.
  split; [reflexivity|].
  pose proof (@limit_one_in_order in_order background [erring; allowing] eq_refl)
    as [Horder Hsame].
  split; [exact Horder|].
  exact (proj1 (Hsame {| picks := [1]; skips := []; done_at := None |})).
Defined.

Lemma same_live_run (typesys : TypeSystem) (ctx : Context) (hs hs' : list CheckHandlerFunc) :
  ctx_err ctx = None -> ctx_typesys ctx = Some typesys ->
  Forall2 (same_when_live typesys) hs hs' ->
  map (fun fn => fn ctx) hs = map (fun fn => fn ctx) hs'.
Proof.
  intros Hctx Hts. induction 1 as [|h h' hs hs' Hh _ IH]; simpl; [reflexivity|].
  now rewrite (Hh ctx Hctx Hts), IH.
Qed.

Lemma union_one_live (typesys : TypeSystem) (s s' : schedule) (ctx : Context)
      (hs hs' : list CheckHandlerFunc) :
  ctx_err ctx = None -> ctx_typesys ctx = Some typesys ->
  Forall2 (same_when_live typesys) hs hs' ->
  union s ctx 1%N hs = union s' ctx 1%N hs'.
Proof.
  intros Hctx Hts H. unfold union. rewrite !selections_uncancelled by exact Hctx.
  rewrite !resolver_one by exact Hctx.
  now rewrite (@same_live_run typesys ctx hs hs' Hctx Hts H), (Forall2_length H).
Qed.

Lemma intersection_one_live (typesys : TypeSystem) (s s' : schedule) (ctx : Context)
      (hs hs' : list CheckHandlerFunc) :
  ctx_err ctx = None -> ctx_typesys ctx = Some typesys ->
  Forall2 (same_when_live typesys) hs hs' ->
  intersection s ctx 1%N hs = intersection s' ctx 1%N hs'.
Proof.
  intros Hctx Hts H. unfold intersection. rewrite !selections_uncancelled by exact Hctx.
  rewrite !resolver_one by exact Hctx.
  now rewrite (@same_live_run typesys ctx hs hs' Hctx Hts H), (Forall2_length H).
Qed.

Section LimitOne.

Variables sched sched' : scheduler.
Variables c c' : ConcurrentChecker.
Variable typesys : TypeSystem.
Variable req : DispatchCheckRequest.

Hypothesis same_store : ds c' = ds c.
Hypothesis limit_one : concurrencyLimit c = 1%N.
Hypothesis limit_one' : concurrencyLimit c' = 1%N.
Hypothesis agree :
  forall ctx r, ctx_err ctx = None -> ctx_typesys ctx = Some typesys ->
                dispatcher c ctx r = dispatcher c' ctx r.

Lemma dispatch_live (ctx0 : Context) (r : DispatchCheckRequest) :
  same_when_live typesys (dispatch c ctx0 r) (dispatch c' ctx0 r).
Proof. intros ctx Hctx Hts. unfold dispatch. now rewrite (agree ctx r Hctx Hts). Qed.

Lemma checkDirect_loop_live (ctx0 : Context) (iter : TupleIterator)
      (hs hs' : list CheckHandlerFunc) :
  Forall2 (same_when_live typesys) hs hs' ->
  same_handlers_when_live typesys (checkDirect_loop c ctx0 req iter hs)
                          (checkDirect_loop c' ctx0 req iter hs').
Proof.
  revert hs hs'. induction iter as [|[t|e] iter IH]; intros hs hs' H; simpl.
  - exact H.
  - destruct (SplitObjectRelation (User (Key t))) as [usersetObject usersetRelation].
    apply IH. apply Forall2_app; [exact H|]. constructor; [|constructor].
    apply dispatch_live.
  - destruct (error_eqb e ErrIteratorDone); [exact H|reflexivity].
Qed.

Lemma checkTTU_loop_live (ctx0 : Context) (computedRelation : string)
      (iter : TupleIterator) (hs hs' : list CheckHandlerFunc) :
  Forall2 (same_when_live typesys) hs hs' ->
  same_handlers_when_live typesys (checkTTU_loop c ctx0 req computedRelation iter hs)
                          (checkTTU_loop c' ctx0 req computedRelation iter hs').
Proof.
  revert hs hs'. induction iter as [|[t|e] iter IH]; intros hs hs' H; simpl.
  - exact H.
  - destruct (SplitObjectRelation (User (Key t))) as [userObj ignored].
    apply IH. apply Forall2_app; [exact H|]. constructor; [|constructor].
    apply dispatch_live.
  - destruct (error_eqb e ErrIteratorDone); [exact H|reflexivity].
Qed.

Lemma checkDirect_live (parentctx : Context) :
  same_when_live typesys (checkDirect sched c parentctx req)
                 (checkDirect sched' c' parentctx req).
Proof.
  intros ctx Hctx Hts. unfold checkDirect. rewrite limit_one, limit_one'.
  apply (@union_one_live typesys _ _ ctx _ _ Hctx Hts).
  constructor.
  { intros ctx' _ _. unfold checkDirect_fn1. now rewrite same_store. }
  constructor; [|constructor].
  intros ctx' Hctx' Hts'. unfold checkDirect_fn2. rewrite same_store.
  destruct (ReadUsersetTuples (ds c) (StoreId req) (TupleKey req)) as [iter|e];
    [|reflexivity].
  f_equal.
  assert (H := @checkDirect_loop_live ctx' iter [] [] (Forall2_nil (same_when_live typesys))).
  destruct (checkDirect_loop c ctx' req iter []) as [hs|e],
           (checkDirect_loop c' ctx' req iter []) as [hs'|e']; simpl in H; try contradiction.
  - rewrite (Forall2_length H). destruct (0 <? length hs')%nat; [|reflexivity].
    rewrite limit_one, limit_one'. now apply (@union_one_live typesys).
  - now subst.
Qed.

Lemma checkTTU_live (parentctx : Context) (rewrite : Userset) :
  ctx_typesys parentctx = Some typesys ->
  same_built_when_live typesys (checkTTU sched c parentctx req rewrite)
                       (checkTTU sched' c' parentctx req rewrite).
Proof.
  intros Hparent. unfold checkTTU. rewrite Hparent.
  intros ctx Hctx Hts. cbv beta zeta. rewrite same_store.
  destruct (Read (ds c) (StoreId req) _) as [iter|e]; [|reflexivity].
  do 2 f_equal.
  set (ctx' := {| ctx_typesys := Some typesys; ctx_err := ctx_err ctx |}).
  assert (H := @checkTTU_loop_live ctx' (GetComputedUserset rewrite) iter [] []
                                   (Forall2_nil (same_when_live typesys))).
  destruct (checkTTU_loop c ctx' req _ iter []) as [hs|e],
           (checkTTU_loop c' ctx' req _ iter []) as [hs'|e']; simpl in H; try contradiction.
  - rewrite (Forall2_length H). destruct (0 <? length hs')%nat; [|reflexivity].
    rewrite limit_one, limit_one'. now apply (@union_one_live typesys).
  - now subst.
Qed.

Lemma sequence_live (l l' : list (call CheckHandlerFunc)) :
  Forall2 (same_built_when_live typesys) l l' ->
  match sequence l, sequence l' with
  | Ret hs, Ret hs' => Forall2 (same_when_live typesys) hs hs'
  | Abort x, Abort x' => x = x'
  | _, _ => False
  end.
Proof.
  induction 1 as [|[h|x] [h'|x'] l l' Hh _ IH]; simpl in *; try contradiction; auto.
  destruct (sequence l) as [hs|x], (sequence l') as [hs'|x']; try contradiction; auto.
Qed.

Lemma checkRewrite_live (ctx : Context) (rewrite : Userset) :
  ctx_typesys ctx = Some typesys ->
  exclusion_free rewrite = true ->
  same_built_when_live typesys (checkRewrite sched c ctx req rewrite)
                       (checkRewrite sched' c' ctx req rewrite).
Proof.
  intros Hts.
  induction rewrite as [ | relation | tupleset computed | child IH | child IH
                         | base subtract IHb IHs ] using Userset_induction;
    intros Hfree.
  - apply checkDirect_live.
  - apply dispatch_live.
  - now apply checkTTU_live.
  - simpl. unfold checkSetOperation.
    assert (Hall : Forall (fun x => same_built_when_live typesys
                                      (checkRewrite sched c ctx req x)
                                      (checkRewrite sched' c' ctx req x)) child).
    { simpl in Hfree. rewrite forallb_forall in Hfree. rewrite Forall_forall in *.
      intros x Hx. apply IH; auto. }
    assert (H := sequence_live (Forall2_maps _ _ _ Hall)).
    destruct (sequence _) as [hs|x], (sequence _) as [hs'|x']; simpl; try exact H.
    intros ctx' Hctx' Hts'. rewrite (Forall2_length H), limit_one, limit_one'.
    now apply (@union_one_live typesys).
  - simpl. unfold checkSetOperation.
    assert (Hall : Forall (fun x => same_built_when_live typesys
                                      (checkRewrite sched c ctx req x)
                                      (checkRewrite sched' c' ctx req x)) child).
    { simpl in Hfree. rewrite forallb_forall in Hfree. rewrite Forall_forall in *.
      intros x Hx. apply IH; auto. }
    assert (H := sequence_live (Forall2_maps _ _ _ Hall)).
    destruct (sequence _) as [hs|x], (sequence _) as [hs'|x']; simpl; try exact H.
    intros ctx' Hctx' Hts'. rewrite (Forall2_length H), limit_one, limit_one'.
    now apply (@intersection_one_live typesys).
  - discriminate.
Qed.

Lemma model_exclusion_free_relation (objectType relation : string)
      (rel : typesystem.Relation) :
  model_exclusion_free typesys = true ->
  GetRelation typesys objectType relation = inl rel ->
  exclusion_free (Rewrite rel) = true.
Proof.
  assert (Hlookup : forall (A : Type) k (m : list (string * A)) v,
             lookup k m = Some v -> exists k', In (k', v) m).
  { intros A k m. induction m as [|[k' v'] m IH]; intros v H; simpl in H; [discriminate|].
    destruct (String.eqb k k').
    - injection H as ->. exists k'. now left.
    - destruct (IH _ H) as [k'' Hin]. exists k''. now right. }
  unfold model_exclusion_free, GetRelation. intros Hfree H.
  destruct (lookup objectType typesys) as [rels|] eqn:Ht; [|discriminate].
  destruct (lookup relation rels) as [r|] eqn:Hr; [|discriminate].
  injection H as ->.
  destruct (Hlookup _ _ _ _ Ht) as [t Hin]. destruct (Hlookup _ _ _ _ Hr) as [r Hin'].
  rewrite forallb_forall in Hfree. specialize (Hfree _ Hin). simpl in Hfree.
  rewrite forallb_forall in Hfree. exact (Hfree _ Hin').
Qed.

Lemma DispatchCheck_live (ctx : Context) :
  ctx_err ctx = None -> ctx_typesys ctx = Some typesys ->
  model_exclusion_free typesys = true ->
  DispatchCheck sched c ctx req = DispatchCheck sched' c' ctx req.
Proof.
  intros Hctx Hts Hfree. unfold DispatchCheck. f_equal.
  destruct (Depth (ResolutionMetadata_ req) =? 0)%N; [reflexivity|].
  rewrite Hts.
  destruct (SplitObject (Object (TupleKey req))) as [objectType ignored].
  destruct (GetRelation typesys objectType _) as [rel|e] eqn:Hrel; [|reflexivity].
  assert (H := @checkRewrite_live ctx (Rewrite rel) Hts
                 (@model_exclusion_free_relation _ _ rel Hfree Hrel)).
  destruct (checkRewrite sched c ctx req (Rewrite rel)) as [h|x],
           (checkRewrite sched' c' ctx req (Rewrite rel)) as [h'|x'];
    simpl in H; try contradiction; [|now subst].
  rewrite limit_one, limit_one'.
  rewrite (@union_one_live typesys (sched req 1) (sched' req 1) ctx [h] [h'] Hctx Hts);
    [reflexivity|]. constructor; [exact H|constructor].
Qed.

End LimitOne.

Lemma DispatchCheck_one (sched sched' : scheduler) (fuel : nat) (ds0 : OpenFGADatastore)
      (typesys : TypeSystem) (ctx : Context) (req : DispatchCheckRequest) :
  ctx_err ctx = None -> ctx_typesys ctx = Some typesys ->
  model_exclusion_free typesys = true ->
  DispatchCheck sched (NewConcurrentChecker sched fuel ds0 1%N) ctx req
  = DispatchCheck sched' (NewConcurrentChecker sched' fuel ds0 1%N) ctx req.
Proof.
  intros Hctx Hts Hfree.
  revert ctx req Hctx Hts.
  induction fuel as [|fuel IH]; intros ctx req Hctx Hts;
    apply (@DispatchCheck_live sched sched' _ _ typesys); auto;
    rewrite ?NewConcurrentChecker_fields; try reflexivity.
Qed.

(** X5.  The answer of a Check is deterministic at a concurrency limit of
    one.  For a model none of whose relations is defined with a
    [Difference], under a context that is never cancelled, [DispatchCheck]
    returns the same outcome (response or error) under any two schedules. *)
Theorem check_deterministic_at_limit_one :
  forall (sched sched' : scheduler) (fuel : nat) (ds0 : OpenFGADatastore)
         (typesys : TypeSystem) (ctx : Context) (req : DispatchCheckRequest),
    ctx_err ctx = None -> ctx_typesys ctx = Some typesys ->
    model_exclusion_free typesys = true ->
    fst (DispatchCheck sched (NewConcurrentChecker sched fuel ds0 1%N) ctx req)
    = fst (DispatchCheck sched' (NewConcurrentChecker sched' fuel ds0 1%N) ctx req).
Proof.
  intros sched sched' fuel ds0 typesys ctx req Hctx Hts Hfree.
  now rewrite (@DispatchCheck_one sched sched' fuel ds0 typesys ctx req Hctx Hts Hfree).
Qed.

Lemma check_deterministic_at_limit_one_witness :
  ctx_err (with_typesystem model) = None
  /\ ctx_typesys (with_typesystem model) = Some model
  /\ model_exclusion_free model = true
  /\ fst (DispatchCheck always_in_order
            (NewConcurrentChecker always_in_order 2 (memory [member_tuple]) 1%N)
            (with_typesystem model) (check_request "group:eng" "can_view" "user:jon" 2))
     = fst (DispatchCheck (fun _ _ => {| picks := [1]; skips := []; done_at := None |})
              (NewConcurrentChecker
                 (fun _ _ => {| picks := [1]; skips := []; done_at := None |})
                 2 (memory [member_tuple]) 1%N)
              (with_typesystem model) (check_request "group:eng" "can_view" "user:jon" 2)).
Proof.
  split; [reflexivity|]. split; [reflexivity|]. split; [reflexivity|].
  apply (@check_deterministic_at_limit_one always_in_order
           (fun _ _ => {| picks := [1]; skips := []; done_at := None |})
           2 (memory [member_tuple]) model); reflexivity.
Defined.

Import requests.

(** ** Direct tuples and computed usersets *)

Lemma DispatchCheck_unfold (sched : scheduler) (c : ConcurrentChecker) (ctx : Context)
      (typesys : TypeSystem) (req : DispatchCheckRequest) (rel : typesystem.Relation) :
  Depth (ResolutionMetadata_ req) <> 0%N ->
  ctx_typesys ctx = Some typesys ->
  relation_of typesys req = inl rel ->
  DispatchCheck sched c ctx req
  = traced [EvDispatch req]
      match checkRewrite sched c ctx req (Rewrite rel) with
      | Abort x => (Abort x, [])
      | Ret handler =>
          match union (sched req 1) ctx (concurrencyLimit c) [handler] with
          | (Abort x, t) => (Abort x, t)
          | (Ret {| resp := _; err := Some e |}, t) => (Ret (None, Some e), t)
          | (Ret {| resp := Some resp; err := None |}, t) =>
              (Ret (Some {| dispatcher.Allowed := Allowed resp |}, None), t)
          | (Ret {| resp := None; err := None |}, t) => (Abort (Panic nil_dereference), t)
          end
      end.
Proof.
  intros Hd Hts Hrel. unfold DispatchCheck, relation_of in *.
  apply N.eqb_neq in Hd. rewrite Hd, Hts.
  destruct (SplitObject (Object (TupleKey req))) as [objectType ignored].
  simpl in Hrel. now rewrite Hrel.
Qed.

(** X6.  With a concurrency limit of one, a tuple that the store holds is
    allowed under a directly assignable relation, whatever else the store
    holds and whatever the usersets of the relation resolve to: the direct
    lookup is the first outcome [union] receives. *)
Theorem stored_tuple_allowed_at_limit_one :
  forall (sched : scheduler) (c : ConcurrentChecker) (ctx : Context)
         (typesys : TypeSystem) (req : DispatchCheckRequest)
         (rel : typesystem.Relation) (t : Tuple),
    concurrencyLimit c = 1%N ->
    ctx_err ctx = None -> ctx_typesys ctx = Some typesys ->
    Depth (ResolutionMetadata_ req) <> 0%N ->
    relation_of typesys req = inl rel -> Rewrite rel = This ->
    ReadUserTuple (ds c) (StoreId req) (TupleKey req) = (Some t, None) ->
    dispatch_allowed (DispatchCheck sched c ctx req) = true.
Proof.
  intros sched c ctx typesys req rel t HK Hctx Hts Hd Hrel Hrw Hread.
  rewrite (DispatchCheck_unfold sched c ctx req Hd Hts Hrel), Hrw. simpl.
  rewrite HK. rewrite union_single by (try discriminate; exact Hctx).
  unfold checkDirect. rewrite HK.
  unfold union at 1. rewrite selections_uncancelled by exact Hctx.
  rewrite resolver_one by exact Hctx. simpl.
  unfold checkDirect_fn1. rewrite Hread. reflexivity.
Qed.

Lemma stored_tuple_allowed_at_limit_one_witness :
  concurrencyLimit (memory_checker [member_tuple; invalid_tuple] 1 1) = 1%N
  /\ Depth (ResolutionMetadata_ (check_request "group:eng" "member" "user:jon" 1)) <> 0%N
  /\ ReadUserTuple (ds (memory_checker [member_tuple; invalid_tuple] 1 1)) "s"
                   (TupleKey (check_request "group:eng" "member" "user:jon" 1))
     = (Some {| Key := member_tuple |}, None)
  /\ dispatch_allowed
       (DispatchCheck always_in_order (memory_checker [member_tuple; invalid_tuple] 1 1)
          (with_typesystem model) (check_request "group:eng" "member" "user:jon" 1))
     = true.
Proof.
  split; [reflexivity|]. split; [discriminate|]. split; [reflexivity|].
  apply (@stored_tuple_allowed_at_limit_one always_in_order
           (memory_checker [member_tuple; invalid_tuple] 1 1)
           (with_typesystem model) model
           (check_request "group:eng" "member" "user:jon" 1)
           {| Rewrite := This; DirectlyRelatedUserTypes := [user_type; group_member] |}
           {| Key := member_tuple |});
    try reflexivity. discriminate.
Defined.

Lemma DispatchCheck_shape (sched : scheduler) (c : ConcurrentChecker) (ctx : Context)
      (req : DispatchCheckRequest) :
  match fst (DispatchCheck sched c ctx req) with
  | Abort _ | Ret (None, Some _) | Ret (Some _, None) => True
  | Ret _ => False
  end.
Proof.
  unfold DispatchCheck. rewrite fst_traced.
  destruct (Depth (ResolutionMetadata_ req) =? 0)%N; [exact I|].
  destruct (ctx_typesys ctx) as [typesys|]; [|exact I].
  destruct (SplitObject (Object (TupleKey req))) as [objectType ignored].
  destruct (GetRelation typesys objectType _) as [rel|e]; [|exact I].
  destruct (checkRewrite sched c ctx req (Rewrite rel)) as [h|x]; [|exact I].
  destruct (union _ _ _ _) as [[[[r|] [e|]]|x] t]; exact I.
Qed.



Import contextual.

(** ** Contextual tuples *)

Section SameFields.

Variable sched : scheduler.
Variable c : ConcurrentChecker.
Variables req req' : DispatchCheckRequest.

Hypothesis same_store : StoreId req' = StoreId req.
Hypothesis same_model : AuthorizationModelId req' = AuthorizationModelId req.
Hypothesis same_key : TupleKey req' = TupleKey req.
Hypothesis same_metadata : ResolutionMetadata_ req' = ResolutionMetadata_ req.
Hypothesis same_schedule : sched req' = sched req.

Lemma checkDirect_loop_fields (ctx0 : Context) (iter : TupleIterator)
      (hs : list CheckHandlerFunc) :
  checkDirect_loop c ctx0 req' iter hs = checkDirect_loop c ctx0 req iter hs.
Proof.
  revert hs. induction iter as [|[t|e] iter IH]; intros hs; simpl; try reflexivity.
  destruct (SplitObjectRelation (User (Key t))) as [usersetObject usersetRelation].
  now rewrite IH, same_store, same_model, same_key, same_metadata.
Qed.

Lemma checkTTU_loop_fields (ctx0 : Context) (computedRelation : string)
      (iter : TupleIterator) (hs : list CheckHandlerFunc) :
  checkTTU_loop c ctx0 req' computedRelation iter hs
  = checkTTU_loop c ctx0 req computedRelation iter hs.
Proof.
  revert hs. induction iter as [|[t|e] iter IH]; intros hs; simpl; try reflexivity.
  destruct (SplitObjectRelation (User (Key t))) as [userObj ignored].
  now rewrite IH, same_store, same_model, same_key, same_metadata.
Qed.

Lemma checkDirect_fields (parentctx ctx : Context) :
  checkDirect sched c parentctx req' ctx = checkDirect sched c parentctx req ctx.
Proof.
  unfold checkDirect. rewrite same_schedule. apply union_ext.
  constructor.
  { intros ctx'. unfold checkDirect_fn1. now rewrite same_store, same_key. }
  constructor; [|constructor].
  intros ctx'. unfold checkDirect_fn2. rewrite same_store, same_key.
  destruct (ReadUsersetTuples (ds c) (StoreId req) (TupleKey req)) as [iter|e];
    [|reflexivity].
  now rewrite checkDirect_loop_fields, same_schedule.
Qed.

Lemma checkTTU_fields (parentctx : Context) (rewrite : Userset) :
  same_built (checkTTU sched c parentctx req' rewrite)
             (checkTTU sched c parentctx req rewrite).
Proof.
  unfold checkTTU. destruct (ctx_typesys parentctx) as [typesys|]; [|reflexivity].
  intros ctx. cbv beta zeta. rewrite same_store, same_key.
  destruct (Read (ds c) (StoreId req) _) as [iter|e]; [|reflexivity].
  now rewrite checkTTU_loop_fields, same_schedule.
Qed.

Lemma checkRewrite_fields (ctx : Context) (rewrite : Userset) :
  same_built (checkRewrite sched c ctx req' rewrite) (checkRewrite sched c ctx req rewrite).
Proof.
  induction rewrite as [ | relation | tupleset computed | child IH | child IH
                         | base subtract IHb IHs ] using Userset_induction.
  - intros ctx'. apply checkDirect_fields.
  - intros ctx'. simpl. now rewrite same_store, same_model, same_key, same_metadata.
  - apply checkTTU_fields.
  - simpl. unfold checkSetOperation.
    assert (H := sequence_ext (Forall2_maps _ _ _ IH)).
    destruct (sequence _) as [hs|x], (sequence _) as [hs'|x']; simpl; try exact H.
    intros ctx'. rewrite (Forall2_length H), same_schedule. now apply union_ext.
  - simpl. unfold checkSetOperation.
    assert (H := sequence_ext (Forall2_maps _ _ _ IH)).
    destruct (sequence _) as [hs|x], (sequence _) as [hs'|x']; simpl; try exact H.
    intros ctx'. rewrite (Forall2_length H), same_schedule. now apply intersection_ext.
  - simpl. unfold checkSetOperation. simpl.
    destruct (checkRewrite sched c ctx req' base) as [hb|x],
             (checkRewrite sched c ctx req base) as [hb'|x']; try contradiction; auto.
    destruct (checkRewrite sched c ctx req' subtract) as [hs|y],
             (checkRewrite sched c ctx req subtract) as [hs'|y']; try contradiction; auto.
    cbn - [exclusion]. intros ctx'. rewrite same_schedule.
    apply exclusion_ext. repeat constructor; auto.
Qed.

Lemma DispatchCheck_fields (ctx : Context) :
  fst (DispatchCheck sched c ctx req') = fst (DispatchCheck sched c ctx req)
  /\ after_first (DispatchCheck sched c ctx req') = after_first (DispatchCheck sched c ctx req).
Proof.
  unfold DispatchCheck, after_first, traced. simpl.
  rewrite same_metadata, same_key.
  destruct (Depth (ResolutionMetadata_ req) =? 0)%N; [split; reflexivity|].
  destruct (ctx_typesys ctx) as [typesys|]; [|split; reflexivity].
  destruct (SplitObject (Object (TupleKey req))) as [objectType ignored].
  destruct (GetRelation typesys objectType _) as [rel|e]; [|split; reflexivity].
  assert (H := checkRewrite_fields ctx (Rewrite rel)).
  destruct (checkRewrite sched c ctx req' (Rewrite rel)) as [h|x],
           (checkRewrite sched c ctx req (Rewrite rel)) as [h'|x'];
    simpl in H; try contradiction; [|subst; split; reflexivity].
  rewrite same_schedule.
  rewrite (@union_ext (sched req 1) ctx (concurrencyLimit c) [h] [h']);
    [split; reflexivity|]. constructor; [exact H|constructor].
Qed.

End SameFields.

(** X8.  The answer of a Check never depends on the contextual tuples of
    the request: with any other contextual tuples, under the same schedule,
    [DispatchCheck] returns the same outcome (response or error). *)
Theorem contextual_tuples_ignored :
  forall (sched : scheduler) (c : ConcurrentChecker) (ctx : Context)
         (req : DispatchCheckRequest) (tuples : list tuple.TupleKey),
    sched (with_contextual_tuples req tuples) = sched req ->
    fst (DispatchCheck sched c ctx (with_contextual_tuples req tuples))
    = fst (DispatchCheck sched c ctx req).
Proof.
  intros sched c ctx req tuples Hsched.
  now apply DispatchCheck_fields.
Qed.

Lemma contextual_tuples_ignored_witness :
  always_in_order (with_contextual_tuples
                     (check_request "document:1" "viewer" "user:jon" 1)
                     [NewTupleKey "document:1" "viewer" "user:jon"])
  = always_in_order (check_request "document:1" "viewer" "user:jon" 1)
  /\ fst (DispatchCheck always_in_order (memory_checker [] 1 1) (with_typesystem model)
            (with_contextual_tuples
               (check_request "document:1" "viewer" "user:jon" 1)
               [NewTupleKey "document:1" "viewer" "user:jon"]))
     = fst (DispatchCheck always_in_order (memory_checker [] 1 1) (with_typesystem model)
              (check_request "document:1" "viewer" "user:jon" 1)).
Proof.
  split; [reflexivity|].
  exact (@contextual_tuples_ignored always_in_order (memory_checker [] 1 1)
           (with_typesystem model)
           (check_request "document:1" "viewer" "user:jon" 1)
           [NewTupleKey "document:1" "viewer" "user:jon"] eq_refl).
Defined.


(** ** A check and the other stores *)

Import isolation.

Section OwnStore.

Variable sched : scheduler.
Variables c c' : ConcurrentChecker.
Variable req : DispatchCheckRequest.

Hypothesis same_limit : concurrencyLimit c' = concurrencyLimit c.
Hypothesis same_reads : same_content (StoreId req) (ds c) (ds c').
Hypothesis agree :
  forall ctx r, StoreId r = StoreId req -> dispatcher c ctx r = dispatcher c' ctx r.

Lemma dispatch_own (ctx0 : Context) (r : DispatchCheckRequest) :
  StoreId r = StoreId req -> same_handler (dispatch c ctx0 r) (dispatch c' ctx0 r).
Proof. intros Hr ctx. unfold dispatch. now rewrite (agree ctx r Hr). Qed.

Lemma checkDirect_loop_own (ctx0 : Context) (iter : TupleIterator)
      (hs hs' : list CheckHandlerFunc) :
  Forall2 same_handler hs hs' ->
  same_handlers_or_error (checkDirect_loop c ctx0 req iter hs)
                         (checkDirect_loop c' ctx0 req iter hs').
Proof.
  revert hs hs'. induction iter as [|[t|e] iter IH]; intros hs hs' H; simpl.
  - exact H.
  - destruct (SplitObjectRelation (User (Key t))) as [usersetObject usersetRelation].
    apply IH. apply Forall2_app; [exact H|]. constructor; [|constructor].
    now apply dispatch_own.
  - destruct (error_eqb e ErrIteratorDone); [exact H|reflexivity].
Qed.

Lemma checkTTU_loop_own (ctx0 : Context) (computedRelation : string) (iter : TupleIterator)
      (hs hs' : list CheckHandlerFunc) :
  Forall2 same_handler hs hs' ->
  same_handlers_or_error (checkTTU_loop c ctx0 req computedRelation iter hs)
                         (checkTTU_loop c' ctx0 req computedRelation iter hs').
Proof.
  revert hs hs'. induction iter as [|[t|e] iter IH]; intros hs hs' H; simpl.
  - exact H.
  - destruct (SplitObjectRelation (User (Key t))) as [userObj ignored].
    apply IH. apply Forall2_app; [exact H|]. constructor; [|constructor].
    now apply dispatch_own.
  - destruct (error_eqb e ErrIteratorDone); [exact H|reflexivity].
Qed.

Lemma checkDirect_own (parentctx : Context) :
  same_handler (checkDirect sched c parentctx req) (checkDirect sched c' parentctx req).
Proof.
  destruct same_reads as (Hread & Huser & Husersets).
  intros ctx. unfold checkDirect. rewrite same_limit. apply union_ext.
  constructor; [|constructor; [|constructor]].
  - intros ctx'. unfold checkDirect_fn1. now rewrite Huser.
  - intros ctx'. unfold checkDirect_fn2. rewrite Husersets, same_limit.
    destruct (ReadUsersetTuples (ds c') (StoreId req) (TupleKey req)) as [iter|e];
      [|reflexivity].
    f_equal.
    assert (H := checkDirect_loop_own ctx' iter (Forall2_nil same_handler)).
    destruct (checkDirect_loop c ctx' req iter []) as [hs|e],
             (checkDirect_loop c' ctx' req iter []) as [hs'|e']; simpl in H;
      try contradiction.
    + rewrite (Forall2_length H). destruct (0 <? length hs')%nat; [|reflexivity].
      now apply union_ext.
    + now subst.
Qed.

Lemma checkTTU_own (parentctx : Context) (rewrite : Userset) :
  same_built (checkTTU sched c parentctx req rewrite)
             (checkTTU sched c' parentctx req rewrite).
Proof.
  destruct same_reads as (Hread & Huser & Husersets).
  unfold checkTTU. destruct (ctx_typesys parentctx) as [typesys|]; [|reflexivity].
  intros ctx. cbv beta zeta. rewrite Hread, same_limit.
  destruct (Read (ds c') (StoreId req) _) as [iter|e]; [|reflexivity].
  do 2 f_equal.
  set (ctx' := {| ctx_typesys := Some typesys; ctx_err := ctx_err ctx |}).
  assert (H := checkTTU_loop_own ctx' (GetComputedUserset rewrite) iter
                                 (Forall2_nil same_handler)).
  destruct (checkTTU_loop c ctx' req _ iter []) as [hs|e],
           (checkTTU_loop c' ctx' req _ iter []) as [hs'|e']; simpl in H;
    try contradiction.
  - rewrite (Forall2_length H). destruct (0 <? length hs')%nat; [|reflexivity].
    now apply union_ext.
  - now subst.
Qed.

Lemma checkRewrite_own (ctx : Context) (rewrite : Userset) :
  same_built (checkRewrite sched c ctx req rewrite) (checkRewrite sched c' ctx req rewrite).
Proof.
  induction rewrite as [ | relation | tupleset computed | child IH | child IH
                         | base subtract IHb IHs ] using Userset_induction.
  - apply checkDirect_own.
  - now apply dispatch_own.
  - apply checkTTU_own.
  - simpl. unfold checkSetOperation.
    assert (H := sequence_ext (Forall2_maps _ _ _ IH)).
    destruct (sequence _) as [hs|x], (sequence _) as [hs'|x']; simpl; try exact H.
    intros ctx'. rewrite (Forall2_length H), same_limit. now apply union_ext.
  - simpl. unfold checkSetOperation.
    assert (H := sequence_ext (Forall2_maps _ _ _ IH)).
    destruct (sequence _) as [hs|x], (sequence _) as [hs'|x']; simpl; try exact H.
    intros ctx'. rewrite (Forall2_length H), same_limit. now apply intersection_ext.
  - simpl. unfold checkSetOperation. simpl.
    destruct (checkRewrite sched c ctx req base) as [hb|x],
             (checkRewrite sched c' ctx req base) as [hb'|x']; try contradiction; auto.
    destruct (checkRewrite sched c ctx req subtract) as [hs|y],
             (checkRewrite sched c' ctx req subtract) as [hs'|y']; try contradiction; auto.
    cbn - [exclusion]. intros ctx'. rewrite same_limit.
    apply exclusion_ext. repeat constructor; auto.
Qed.

Lemma DispatchCheck_own (ctx : Context) :
  DispatchCheck sched c ctx req = DispatchCheck sched c' ctx req.
Proof.
  unfold DispatchCheck. f_equal.
  destruct (Depth (ResolutionMetadata_ req) =? 0)%N; [reflexivity|].
  destruct (ctx_typesys ctx) as [typesys|]; [|reflexivity].
  destruct (SplitObject (Object (TupleKey req))) as [objectType ignored].
  destruct (GetRelation typesys objectType _) as [rel|e]; [|reflexivity].
  assert (H := checkRewrite_own ctx (Rewrite rel)).
  destruct (checkRewrite sched c ctx req (Rewrite rel)) as [h|x],
           (checkRewrite sched c' ctx req (Rewrite rel)) as [h'|x'];
    simpl in H; try contradiction; [|now subst].
  simpl. rewrite same_limit.
  rewrite (union_ext (sched req 1) ctx (concurrencyLimit c) (hs := [h]) (hs' := [h']));
    [reflexivity|]. constructor; [exact H|constructor].
Qed.

End OwnStore.

Lemma NewConcurrentChecker_own (sched : scheduler) (fuel : nat)
      (ds1 ds2 : OpenFGADatastore) (K : N) (store : string) :
  same_content store ds1 ds2 ->
  forall ctx req,
    StoreId req = store ->
    DispatchCheck sched (NewConcurrentChecker sched fuel ds1 K) ctx req
    = DispatchCheck sched (NewConcurrentChecker sched fuel ds2 K) ctx req.
Proof.
  intros Hsame.
  induction fuel as [|fuel IH]; intros ctx req Hreq; apply DispatchCheck_own;
    rewrite ?(proj1 (NewConcurrentChecker_fields _ _ _ _)),
            ?(proj2 (NewConcurrentChecker_fields _ _ _ _));
    try reflexivity; try (rewrite Hreq; exact Hsame).
  intros ctx' r Hr. simpl. apply IH. now rewrite Hr.
Qed.

(** X9.  The answer of a Check depends on its own store only.  Two
    datastores that answer alike for the store of the request ([Read],
    [ReadUserTuple] and [ReadUsersetTuples]) give the same outcome of
    [DispatchCheck] under the same schedule, whatever they hold for other
    stores; for any model, limit and depth. *)
Theorem check_answers_from_its_store :
  forall (sched : scheduler) (fuel : nat) (ds1 ds2 : OpenFGADatastore) (K : N)
         (ctx : Context) (req : DispatchCheckRequest),
    same_content (StoreId req) ds1 ds2 ->
    fst (DispatchCheck sched (NewConcurrentChecker sched fuel ds1 K) ctx req)
    = fst (DispatchCheck sched (NewConcurrentChecker sched fuel ds2 K) ctx req).
Proof.
  intros sched fuel ds1 ds2 K ctx req Hsame.
  now rewrite (@NewConcurrentChecker_own sched fuel ds1 ds2 K (StoreId req) Hsame ctx req
                                         eq_refl).
Qed.

Lemma check_answers_from_its_store_witness :
  same_content "s" (memory [member_tuple])
               (beside "s" (memory [member_tuple]) (memory [invalid_tuple]))
  /\ fst (DispatchCheck always_in_order
            (NewConcurrentChecker always_in_order 2 (memory [member_tuple]) 1%N)
            (with_typesystem model) (check_request "group:eng" "can_view" "user:jon" 2))
     = fst (DispatchCheck always_in_order
              (NewConcurrentChecker always_in_order 2
                 (beside "s" (memory [member_tuple]) (memory [invalid_tuple])) 1%N)
              (with_typesystem model) (check_request "group:eng" "can_view" "user:jon" 2)).
Proof.
  assert (Hsame : same_content "s" (memory [member_tuple])
                               (beside "s" (memory [member_tuple]) (memory [invalid_tuple])))
    by (repeat split; intros tk; reflexivity).
  split; [exact Hsame|].
  exact (@check_answers_from_its_store always_in_order 2 (memory [member_tuple])
           (beside "s" (memory [member_tuple]) (memory [invalid_tuple])) 1%N
           (with_typesystem model) (check_request "group:eng" "can_view" "user:jon" 2)
           Hsame).
Defined.

Import listusers expansions.

(** ** ListUsers *)

Section Expansion.

Variable l : listUsersQuery.

Lemma expandDirect_loop_typed (expand : Context -> ListUsersRequest -> expansion)
      (ctx : Context) (req : ListUsersRequest) (filter : tuple.TupleKey -> bool)
      (iter : TupleIterator) (p : pool) (target : string) :
  TargetUserObjectType req = target ->
  (forall ctx' r, TargetUserObjectType r = target ->
                  Forall (fun o => Type_ o = target) (found (expand ctx' r))) ->
  Forall (fun o => Type_ o = target) (pool_found p) ->
  Forall (fun o => Type_ o = target)
         (pool_found (fst (expandDirect_loop expand ctx req filter iter p))).
Proof.
  intros Hreq Hexp. revert p.
  induction iter as [|[t|e] iter IH]; intros p Hp; simpl.
  - exact Hp.
  - destruct (filter (Key t)); [|now apply IH].
    destruct (SplitObjectRelation (User (Key t))) as [userObject userRelation].
    destruct (SplitObject userObject) as [userObjectType userObjectID].
    destruct (String.eqb userRelation "").
    + destruct (String.eqb userObjectType (TargetUserObjectType req)) eqn:Heq;
        [|now apply IH].
      apply IH. simpl. apply Forall_app. split; [exact Hp|].
      constructor; [|constructor]. simpl. apply String.eqb_eq in Heq. congruence.
    + apply IH. simpl. apply Forall_app. split; [exact Hp|].
      now apply Hexp.
  - destruct (error_eqb e ErrIteratorDone); exact Hp.
Qed.

Lemma expandTTU_loop_typed (expand : Context -> ListUsersRequest -> expansion)
      (ctx : Context) (req : ListUsersRequest) (computedRelation : string)
      (filter : tuple.TupleKey -> bool)
      (iter : TupleIterator) (p : pool) (target : string) :
  TargetUserObjectType req = target ->
  (forall ctx' r, TargetUserObjectType r = target ->
                  Forall (fun o => Type_ o = target) (found (expand ctx' r))) ->
  Forall (fun o => Type_ o = target) (pool_found p) ->
  Forall (fun o => Type_ o = target)
         (pool_found (fst (expandTTU_loop expand ctx req computedRelation filter iter p))).
Proof.
  intros Hreq Hexp. revert p.
  induction iter as [|[t|e] iter IH]; intros p Hp; simpl.
  - exact Hp.
  - destruct (filter (Key t)); [|now apply IH].
    destruct (SplitObject (User (Key t))) as [userObjectType userObjectID].
    apply IH. simpl. apply Forall_app. split; [exact Hp|].
    now apply Hexp.
  - destruct (error_eqb e ErrIteratorDone); exact Hp.
Qed.

Lemma found_finish (stop : event) (r : pool * option error) :
  found (finish stop r) = pool_found (fst r).
Proof. now destruct r. Qed.

Lemma expand_typed (fuel : nat) :
  forall ctx req,
    Forall (fun o => Type_ o = TargetUserObjectType req) (found (expand l fuel ctx req)).
Proof.
  induction fuel as [|fuel IH]; intros ctx req; [constructor|].
  cbn [expand]. unfold emit. cbn [found]. apply Forall_app. split.
  { destruct (String.eqb (Type_ (Object req)) (TargetUserObjectType req)) eqn:Heq;
      simpl; [|constructor].
    destruct (String.eqb (Relation req) (TargetUserRelation req)); simpl; constructor;
      [now apply String.eqb_eq|constructor]. }
  destruct (typesystemResolver l ctx _ _) as [typesys|e] eqn:Hts; [|constructor].
  destruct (GetRelation typesys _ _) as [relation|e]; [|constructor].
  destruct (Rewrite relation) as [ |computed|tupleset computed| | | ]; try constructor.
  - unfold expandDirect. rewrite Hts.
    destruct (Read (ds l) _ _) as [iter|e]; [|constructor].
    cbn [log found]. rewrite found_finish.
    apply expandDirect_loop_typed; [reflexivity| |constructor].
    intros ctx' r <-. apply IH.
  - match goal with |- Forall _ (found (expand l fuel ctx ?r)) => exact (IH ctx r) end.
  - unfold expandTTU. rewrite Hts.
    destruct (Read (ds l) _ _) as [iter|e]; [|constructor].
    cbn [log found]. rewrite found_finish.
    apply expandTTU_loop_typed; [reflexivity| |constructor].
    intros ctx' r <-. apply IH.
Qed.

End Expansion.

(** X10.  ListUsers returns objects of the requested type only: whatever the
    model, the tuples and the depth of the expansion, every object [expand]
    sends on the channel of found objects, and so every object of the
    response, has the target user object type of the request. *)
Theorem list_users_of_target_type :
  forall (l : listUsersQuery) (fuel : nat) (ctx : Context) (req : ListUsersRequest),
    Forall (fun o => Type_ o = TargetUserObjectType req) (found (expand l fuel ctx req))
    /\ match ListUsers l fuel ctx req with
       | Ret (Some objects, _) =>
           Forall (fun o => Type_ o = TargetUserObjectType req) objects
       | _ => True
       end.
Proof.
  intros l fuel ctx req. split; [apply expand_typed|].
  unfold ListUsers. destruct (returned (expand l fuel ctx req)) as [[e|]|x]; try exact I.
  apply expand_typed.
Qed.


Lemma lookup_In {A : Type} (k : string) (m : list (string * A)) (v : A) :
  lookup k m = Some v -> exists k', In (k', v) m.
Proof.
  induction m as [|[k' v'] m IH]; intros H; simpl in H; [discriminate|].
  destruct (String.eqb k k').
  - injection H as ->. exists k'. now left.
  - destruct (IH H) as [k'' Hin]. exists k''. now right.
Qed.

Lemma model_expandable_relation (typesys : TypeSystem) (objectType relation : string)
      (rel : typesystem.Relation) :
  model_expandable typesys = true ->
  GetRelation typesys objectType relation = inl rel ->
  expandable (Rewrite rel) = true.
Proof.
  unfold model_expandable, GetRelation. intros Hall H.
  destruct (lookup objectType typesys) as [rels|] eqn:Ht; [|discriminate].
  destruct (lookup relation rels) as [r|] eqn:Hr; [|discriminate].
  injection H as ->.
  destruct (@lookup_In _ _ _ _ Ht) as [t Hin]. destruct (@lookup_In _ _ _ _ Hr) as [r Hin'].
  rewrite forallb_forall in Hall. specialize (Hall _ Hin). simpl in Hall.
  rewrite forallb_forall in Hall. exact (Hall _ Hin').
Qed.

Lemma pool_Wait_calm (tasks : list (call (option error))) :
  Forall (fun r => panicked r = false) tasks -> panicked (pool_Wait tasks) = false.
Proof.
  induction 1 as [|[[e|]|x] tasks Hr _ IH]; simpl; auto.
Qed.

Section Calm.

Variable l : listUsersQuery.

Lemma expandDirect_loop_calm (expand : Context -> ListUsersRequest -> expansion)
      (ctx : Context) (req : ListUsersRequest) (filter : tuple.TupleKey -> bool)
      (iter : TupleIterator) (p : pool) :
  (forall ctx' r, panicked (returned (expand ctx' r)) = false) ->
  Forall (fun r => panicked r = false) (pool_tasks p) ->
  Forall (fun r => panicked r = false)
         (pool_tasks (fst (expandDirect_loop expand ctx req filter iter p))).
Proof.
  intros Hexp. revert p.
  induction iter as [|[t|e] iter IH]; intros p Hp; simpl.
  - exact Hp.
  - destruct (filter (Key t)); [|now apply IH].
    destruct (SplitObjectRelation (User (Key t))) as [userObject userRelation].
    destruct (SplitObject userObject) as [userObjectType userObjectID].
    destruct (String.eqb userRelation "").
    + destruct (String.eqb userObjectType (TargetUserObjectType req)); now apply IH.
    + apply IH. simpl. apply Forall_app. split; [exact Hp|].
      constructor; [apply Hexp|constructor].
  - destruct (error_eqb e ErrIteratorDone); exact Hp.
Qed.

Lemma expandTTU_loop_calm (expand : Context -> ListUsersRequest -> expansion)
      (ctx : Context) (req : ListUsersRequest) (computedRelation : string)
      (filter : tuple.TupleKey -> bool) (iter : TupleIterator) (p : pool) :
  (forall ctx' r, panicked (returned (expand ctx' r)) = false) ->
  Forall (fun r => panicked r = false) (pool_tasks p) ->
  Forall (fun r => panicked r = false)
         (pool_tasks (fst (expandTTU_loop expand ctx req computedRelation filter iter p))).
Proof.
  intros Hexp. revert p.
  induction iter as [|[t|e] iter IH]; intros p Hp; simpl.
  - exact Hp.
  - destruct (filter (Key t)); [|now apply IH].
    destruct (SplitObject (User (Key t))) as [userObjectType userObjectID].
    apply IH. simpl. apply Forall_app. split; [exact Hp|].
    constructor; [apply Hexp|constructor].
  - destruct (error_eqb e ErrIteratorDone); exact Hp.
Qed.

Lemma finish_calm (stop : event) (r : pool * option error) :
  Forall (fun r => panicked r = false) (pool_tasks (fst r)) ->
  panicked (returned (finish stop r)) = false.
Proof.
  destruct r as [p [e|]]; simpl; [reflexivity|]. apply pool_Wait_calm.
Qed.

Hypothesis models_expandable :
  forall ctx store model typesys,
    typesystemResolver l ctx store model = inl typesys -> model_expandable typesys = true.

Lemma expand_calm (fuel : nat) :
  forall ctx req, panicked (returned (expand l fuel ctx req)) = false.
Proof.
  induction fuel as [|fuel IH]; intros ctx req; [reflexivity|].
  cbn [expand]. unfold emit. cbn [returned].
  destruct (typesystemResolver l ctx _ _) as [typesys|e] eqn:Hts; [|reflexivity].
  destruct (GetRelation typesys _ _) as [relation|e] eqn:Hrel; [|reflexivity].
  pose proof (@model_expandable_relation typesys _ _ relation
                (models_expandable _ _ _ Hts) Hrel) as Hok.
  destruct (Rewrite relation) as [ |computed|tupleset computed| | | ]; try discriminate.
  - unfold expandDirect. rewrite Hts.
    destruct (Read (ds l) _ _) as [iter|e]; [|reflexivity].
    cbn [log returned]. apply finish_calm.
    apply expandDirect_loop_calm; [apply IH|constructor].
  - apply IH.
  - unfold expandTTU. rewrite Hts.
    destruct (Read (ds l) _ _) as [iter|e]; [|reflexivity].
    cbn [log returned]. apply finish_calm.
    apply expandTTU_loop_calm; [apply IH|constructor].
Qed.

End Calm.



(** ** The users related directly *)

Section Direct.

Variable expand' : Context -> ListUsersRequest -> expansion.
Variable ctx : Context.
Variable req : ListUsersRequest.
Variable filter : tuple.TupleKey -> bool.

Lemma expandDirect_loop_keeps (iter : TupleIterator) (p : pool) (o : ObjectRef) :
  In o (pool_found p) ->
  In o (pool_found (fst (expandDirect_loop expand' ctx req filter iter p))).
Proof.
  revert p. induction iter as [|[t|e] iter IH]; intros p Hp; simpl.
  - exact Hp.
  - destruct (filter (Key t)); [|now apply IH].
    destruct (SplitObjectRelation (User (Key t))) as [userObject userRelation].
    destruct (SplitObject userObject) as [userObjectType userObjectID].
    destruct (String.eqb userRelation "").
    + destruct (String.eqb userObjectType (TargetUserObjectType req)); apply IH;
        [simpl; apply in_or_app; now left|exact Hp].
    + apply IH. simpl. apply in_or_app. now left.
  - destruct (error_eqb e ErrIteratorDone); exact Hp.
Qed.

Lemma expandDirect_loop_finds (tuples : list Tuple) (p : pool) (t : Tuple) (o : ObjectRef) :
  In t tuples -> filter (Key t) = true ->
  user_object (User (Key t)) = Some o -> Type_ o = TargetUserObjectType req ->
  In o (pool_found (fst (expandDirect_loop expand' ctx req filter (map inl tuples) p))).
Proof.
  intros Hin Hvalid Huser Htype. revert p.
  induction tuples as [|t' tuples IH]; intros p; [contradiction|].
  destruct Hin as [->|Hin]; [|simpl; destruct (filter (Key t')); [|now apply IH]].
  - simpl. rewrite Hvalid. unfold user_object in Huser.
    destruct (SplitObjectRelation (User (Key t))) as [userObject userRelation].
    destruct (SplitObject userObject) as [userObjectType userObjectID].
    destruct (String.eqb userRelation ""); [|discriminate].
    injection Huser as <-. simpl in Htype. subst userObjectType.
    rewrite String.eqb_refl. apply expandDirect_loop_keeps.
    simpl. apply in_or_app. right. now left.
  - destruct (SplitObjectRelation (User (Key t'))) as [userObject userRelation].
    destruct (SplitObject userObject) as [userObjectType userObjectID].
    destruct (String.eqb userRelation "");
      [destruct (String.eqb userObjectType (TargetUserObjectType req))|]; apply IH; exact Hin.
Qed.

End Direct.

(** X12.  ListUsers finds the users related directly.  Under a directly
    assignable relation, every tuple the reader yields for the object and
    relation that is valid under the model and whose user is an object of
    the target type contributes that object: [expand] sends it on the
    channel of found objects, and it is in the response when [ListUsers]
    returns one. *)
Theorem list_users_finds_direct_users :
  forall (l : listUsersQuery) (fuel : nat) (ctx : Context) (req : ListUsersRequest)
         (typesys : TypeSystem) (rel : typesystem.Relation)
         (tuples : list Tuple) (t : Tuple) (o : ObjectRef),
    typesystemResolver l ctx (StoreId req) (AuthorizationModelId req) = inl typesys ->
    GetRelation typesys (Type_ (Object req)) (Relation req) = inl rel ->
    Rewrite rel = This ->
    Read (ds l) (StoreId req) (direct_key req) = inl (map inl tuples) ->
    In t tuples ->
    validation.FilterInvalidTuples typesys (Key t) = true ->
    user_object (User (Key t)) = Some o ->
    Type_ o = TargetUserObjectType req ->
    In o (found (expand l (S fuel) ctx req))
    /\ match ListUsers l (S fuel) ctx req with
       | Ret (Some objects, _) => In o objects
       | _ => True
       end.
Proof.
  intros l fuel ctx req typesys rel tuples t o Hts Hrel Hrw Hread Hin Hvalid Huser Htype.
  assert (H : In o (found (expand l (S fuel) ctx req))).
  { cbn [expand]. unfold emit. cbn [found]. apply in_or_app. right.
    rewrite Hts, Hrel, Hrw. unfold expandDirect. rewrite Hts.
    fold (direct_key req). rewrite Hread. cbn [log found]. rewrite found_finish.
    now apply expandDirect_loop_finds with (t := t). }
  split; [exact H|]. unfold ListUsers.
  destruct (returned (expand l (S fuel) ctx req)) as [[e|]|x]; auto.
Qed.

Lemma list_users_finds_direct_users_witness :
  Read (ds (NewListUsersQuery (memory [member_tuple]))) "s"
       (direct_key (list_users_request group_eng "member" "user" ""))
  = inl (map inl [{| Key := member_tuple |}])
  /\ validation.FilterInvalidTuples model member_tuple = true
  /\ user_object (User member_tuple) = Some scenarios.user_jon
  /\ In scenarios.user_jon
        (found (expand (NewListUsersQuery (memory [member_tuple])) 1 (with_typesystem model)
                       (list_users_request group_eng "member" "user" ""))).
Proof.
  split; [reflexivity|]. split; [reflexivity|]. split; [reflexivity|].
  exact (proj1 (@list_users_finds_direct_users
                  (NewListUsersQuery (memory [member_tuple])) 0 (with_typesystem model)
                  (list_users_request group_eng "member" "user" "")
                  model
                  {| Rewrite := This; DirectlyRelatedUserTypes := [user_type; group_member] |}
                  [{| Key := member_tuple |}] {| Key := member_tuple |} scenarios.user_jon
                  eq_refl eq_refl eq_refl eq_refl (or_introl eq_refl)
                  eq_refl eq_refl eq_refl)).
Defined.

Import materializer statements.

(** ** The statements of the materializer *)

Lemma union_children_returns (materialize : Userset -> call namedSQLStatement)
      (childRewrites : list Userset) :
  returned_value (union_children materialize childRewrites)
  = forallb (fun child => returned_value (materialize child)) childRewrites.
Proof.
  induction childRewrites as [|child rest IH]; [reflexivity|].
  cbn [union_children forallb]. destruct (materialize child) as [s|x]; [|reflexivity].
  simpl. destruct rest as [|child' rest]; [reflexivity|].
  rewrite <- IH. now destruct (union_children materialize (child' :: rest)).
Qed.

Lemma intersection_operands_returns (materialize : Userset -> call namedSQLStatement)
      (childRewrites : list Userset) (i : nat) :
  returned_value (intersection_operands materialize i childRewrites)
  = forallb (fun child => returned_value (materialize child)) childRewrites.
Proof.
  revert i. induction childRewrites as [|child rest IH]; intros i; [reflexivity|].
  cbn [intersection_operands forallb]. destruct (materialize child) as [s|x]; [|reflexivity].
  simpl. destruct rest as [|child' rest]; [reflexivity|].
  rewrite <- (IH (S i)). now destruct (intersection_operands materialize (S i) (child' :: rest)).
Qed.

Lemma forallb_agree {A : Type} (f g : A -> bool) (l : list A) :
  Forall (fun x => f x = g x) l -> forallb f l = forallb g l.
Proof. induction 1 as [|x l Hx _ IH]; simpl; [reflexivity|]. now rewrite Hx, IH. Qed.

Lemma materializable_returns (typesys : TypeSystem) (objectType relation : string)
      (rewrite : Userset) :
  returned_value (materializeInternalWithRewrite typesys objectType relation rewrite)
  = materializable typesys objectType relation rewrite.
Proof.
  induction rewrite as [ | computed | tupleset computed | child IH | child IH
                         | base subtract IHb IHs ] using Userset_induction.
  - simpl. unfold materializeDirect.
    destruct (GetRelation typesys objectType relation) as [rel|e]; [|reflexivity].
    now destruct (direct_refs _ _ _ _ _).
  - reflexivity.
  - simpl. unfold materializeTupleToUserset, GetDirectlyRelatedUserTypes.
    now destruct (GetRelation typesys objectType tupleset).
  - cbn [materializeInternalWithRewrite materializable].
    rewrite <- (forallb_agree _ _ IH), <- union_children_returns.
    now destruct (union_children _ child).
  - cbn [materializeInternalWithRewrite materializable].
    destruct child as [|c child]; [reflexivity|].
    rewrite <- (forallb_agree _ _ IH), <- (intersection_operands_returns _ _ 0).
    destruct (intersection_operands _ 0 (c :: child)); [|reflexivity].
    unfold operand_names. cbn [length seq map intersection_select].
    now destruct (map _ (seq 1 (length child))).
  - cbn [materializeInternalWithRewrite materializable]. rewrite <- IHb, <- IHs.
    destruct (materializeInternalWithRewrite typesys objectType relation base);
      [|reflexivity].
    now destruct (materializeInternalWithRewrite typesys objectType relation subtract).
Qed.

Lemma union_children_panic (materialize : Userset -> call namedSQLStatement)
      (childRewrites : list Userset) :
  Forall (fun child => lookup_panic (materialize child)) childRewrites ->
  lookup_panic (union_children materialize childRewrites).
Proof.
  induction 1 as [|child rest Hc _ IH]; [exact I|].
  cbn [union_children]. destruct (materialize child) as [s|x]; [|exact Hc].
  destruct rest as [|child' rest]; [exact I|].
  now destruct (union_children materialize (child' :: rest)).
Qed.

Lemma intersection_operands_panic (materialize : Userset -> call namedSQLStatement)
      (childRewrites : list Userset) (i : nat) :
  Forall (fun child => lookup_panic (materialize child)) childRewrites ->
  lookup_panic (intersection_operands materialize i childRewrites).
Proof.
  intros H. revert i. induction H as [|child rest Hc _ IH]; intros i; [exact I|].
  cbn [intersection_operands]. destruct (materialize child) as [s|x]; [|exact Hc].
  destruct rest as [|child' rest]; [exact I|].
  specialize (IH (S i)).
  now destruct (intersection_operands materialize (S i) (child' :: rest)).
Qed.

Lemma materializer_lookup_panic (typesys : TypeSystem) (objectType relation : string)
      (rewrite : Userset) :
  lookup_panic (materializeInternalWithRewrite typesys objectType relation rewrite).
Proof.
  induction rewrite as [ | computed | tupleset computed | child IH | child IH
                         | base subtract IHb IHs ] using Userset_induction.
  - simpl. unfold materializeDirect.
    destruct (GetRelation typesys objectType relation) as [rel|e]; [|right; eauto].
    now destruct (direct_refs _ _ _ _ _).
  - exact I.
  - simpl. unfold materializeTupleToUserset, GetDirectlyRelatedUserTypes.
    destruct (GetRelation typesys objectType tupleset); [exact I|right; eauto].
  - cbn [materializeInternalWithRewrite].
    pose proof (union_children_panic _ IH) as H.
    now destruct (union_children _ child).
  - cbn [materializeInternalWithRewrite].
    pose proof (intersection_operands_panic _ 0 IH) as H.
    destruct (intersection_operands _ 0 child); [|exact H].
    destruct child as [|c child]; [left; reflexivity|].
    unfold operand_names. cbn [length seq map intersection_select].
    now destruct (map _ (seq 1 (length child))).
  - cbn [materializeInternalWithRewrite].
    destruct (materializeInternalWithRewrite typesys objectType relation base);
      [|exact IHb].
    now destruct (materializeInternalWithRewrite typesys objectType relation subtract).
Qed.

(** X13.  The materializer panics exactly on what it cannot look up: the
    statement of a rewrite is produced if and only if, throughout the
    rewrite, the relation is defined wherever it is taken as direct, the
    tupleset relation of every tuple-to-userset is defined on the object
    type, and every intersection has an operand (an intersection without
    operand indexes an empty slice).  A computed userset is never looked up:
    it is materialized whether or not the relation it names exists. *)
Theorem materializer_panics_on_missing :
  forall (typesys : TypeSystem) (objectType relation : string) (rewrite : Userset),
    ((exists statement,
         materializeInternalWithRewrite typesys objectType relation rewrite = Ret statement)
     <-> materializable typesys objectType relation rewrite = true)
    /\ (materializable typesys objectType relation rewrite = false ->
        exists x, materializeInternalWithRewrite typesys objectType relation rewrite
                  = Abort x
                  /\ (x = Panic index_out_of_range \/ exists e, x = PanicErr e)).
Proof.
  intros typesys objectType relation rewrite. split.
  - rewrite <- materializable_returns.
    destruct (materializeInternalWithRewrite typesys objectType relation rewrite) as [st|x];
      simpl; split; try discriminate; eauto. intros [st H]. discriminate.
  - rewrite <- materializable_returns.
    pose proof (materializer_lookup_panic typesys objectType relation rewrite) as Hkind.
    destruct (materializeInternalWithRewrite typesys objectType relation rewrite) as [st|x];
      [discriminate|]. intros _. now exists x.
Qed.

Lemma materializer_panics_on_missing_witness :
  materializable model "document" "viewer" (Intersection []) = false
  /\ exists x, materializeInternalWithRewrite model "document" "viewer" (Intersection [])
               = Abort x
               /\ (x = Panic index_out_of_range \/ exists e, x = PanicErr e).
Proof.
  split; [reflexivity|].
  exact (proj2 (materializer_panics_on_missing model "document" "viewer" (Intersection []))
               eq_refl).
Defined.

Lemma union_children_sql (materialize : Userset -> call namedSQLStatement)
      (childRewrites : list Userset) (statements : list namedSQLStatement) :
  Forall2 (fun child statement => materialize child = Ret statement)
          childRewrites statements ->
  union_children materialize childRewrites
  = Ret (String.concat " UNION " (map sql statements)).
Proof.
  induction 1 as [|child statement rest statements Hc Hrest IH]; [reflexivity|].
  cbn [union_children]. rewrite Hc.
  destruct Hrest as [|child' statement' rest statements Hc' Hrest]; [reflexivity|].
  rewrite IH. reflexivity.
Qed.

(** X14.  The statement of a union is the statements of its children joined
    by [UNION], in the order of the children, under the name of the
    relation; a union without child has the empty statement. *)
Theorem union_joins_children :
  forall (typesys : TypeSystem) (objectType relation : string)
         (childRewrites : list Userset) (statements : list namedSQLStatement),
    Forall2 (fun child statement =>
               materializeInternalWithRewrite typesys objectType relation child
               = Ret statement)
            childRewrites statements ->
    materializeInternalWithRewrite typesys objectType relation (Union childRewrites)
    = Ret {| name := underscore objectType relation;
             sql := String.concat " UNION " (map sql statements) |}.
Proof.
  intros typesys objectType relation childRewrites statements H.
  cbn [materializeInternalWithRewrite].
  now rewrite (@union_children_sql _ childRewrites statements H).
Qed.

Lemma union_joins_children_witness :
  Forall2 (fun child statement =>
             materializeInternalWithRewrite model "document" "viewer" child = Ret statement)
          [ComputedUserset "a"; ComputedUserset "b"]
          [materializeComputedUserset "document" "viewer" "a";
           materializeComputedUserset "document" "viewer" "b"]
  /\ materializeInternalWithRewrite model "document" "viewer"
       (Union [ComputedUserset "a"; ComputedUserset "b"])
     = Ret {| name := underscore "document" "viewer";
              sql := String.concat " UNION "
                       (map sql [materializeComputedUserset "document" "viewer" "a";
                                 materializeComputedUserset "document" "viewer" "b"]) |}.
Proof.
  assert (H : Forall2 (fun child statement =>
                         materializeInternalWithRewrite model "document" "viewer" child
                         = Ret statement)
                      [ComputedUserset "a"; ComputedUserset "b"]
                      [materializeComputedUserset "document" "viewer" "a";
                       materializeComputedUserset "document" "viewer" "b"]).
  { repeat constructor. }
  split; [exact H|].
  exact (@union_joins_children model "document" "viewer" _ _ H).
Defined.

Lemma string_app_assoc (a b c : string) : ((a ++ b) ++ c = a ++ (b ++ c))%string.
Proof. induction a as [|x a IH]; simpl; [reflexivity|]. now rewrite IH. Qed.

Lemma materialized_name (typesys : TypeSystem) (objectType relation : string)
      (rewrite : Userset) (statement : namedSQLStatement) :
  materializeInternalWithRewrite typesys objectType relation rewrite = Ret statement ->
  name statement = underscore objectType relation.
Proof.
  destruct rewrite as [ | computed | tupleset computed | child | child | base subtract ];
    cbn [materializeInternalWithRewrite].
  - unfold materializeDirect.
    destruct (GetRelation typesys objectType relation); [|discriminate].
    destruct (direct_refs _ _ _ _ _). now intros [= <-].
  - now intros [= <-].
  - unfold materializeTupleToUserset.
    destruct (GetDirectlyRelatedUserTypes typesys objectType tupleset); [|discriminate].
    now intros [= <-].
  - destruct (union_children _ child); [|discriminate]. now intros [= <-].
  - destruct (intersection_operands _ 0 child); [|discriminate].
    destruct (intersection_select _); [|discriminate]. now intros [= <-].
  - destruct (materializeInternalWithRewrite typesys objectType relation base);
      [|discriminate].
    destruct (materializeInternalWithRewrite typesys objectType relation subtract);
      [|discriminate].
    now intros [= <-].
Qed.

Lemma materializeInternal_name (typesys : TypeSystem) (objectType relation : string)
      (statement : namedSQLStatement) :
  materializeInternal typesys objectType relation = Ret statement ->
  name statement = underscore objectType relation.
Proof.
  unfold materializeInternal.
  destruct (GetRelation typesys objectType relation) as [rel|e]; [|discriminate].
  apply materialized_name.
Qed.

(** X15.  Every statement carries the name of its relation, the object type
    and the relation joined by an underscore, whatever the rewrite; the name
    does not tell where the type ends, so that two relations can have the
    same statement name. *)
Theorem statement_names :
  forall (typesys : TypeSystem) (objectType relation : string),
    (forall rewrite statement,
        materializeInternalWithRewrite typesys objectType relation rewrite = Ret statement ->
        name statement = underscore objectType relation)
    /\ (forall statement,
           materializeInternal typesys objectType relation = Ret statement ->
           name statement = underscore objectType relation)
    /\ (forall a b : string,
           underscore (underscore objectType a) b = underscore objectType (underscore a b)).
Proof.
  intros typesys objectType relation.
  split; [intros rewrite statement; apply materialized_name|].
  split; [intros statement; apply materializeInternal_name|].
  intros a b. unfold underscore. now rewrite !string_app_assoc.
Qed.

Lemma statement_names_witness :
  materializeInternal model "document" "can_read"
  = Ret (materializeComputedUserset "document" "can_read" "viewer")
  /\ name (materializeComputedUserset "document" "can_read" "viewer")
     = underscore "document" "can_read".
Proof.
  split; [reflexivity|].
  exact (proj1 (proj2 (statement_names model "document" "can_read"))
               (materializeComputedUserset "document" "can_read" "viewer") eq_refl).
Defined.

Import tuple typesystem storage dispatcher graph provenance.

(** ** Where errors come from *)

Lemma union_loop_errors (P : error -> Prop) (n : nat) (sel : list selected) :
  (forall x, In x sel ->
             match x with
             | Received r => errors_within P r
             | CtxDone e => P e
             end) ->
  errors_within P (union_loop n sel).
Proof.
  revert sel. induction n as [|n IH]; intros sel Hsel e; simpl; [discriminate|].
  destruct sel as [|[[[o|x] t]|e'] sel]; simpl; try contradiction.
  - destruct (err o) as [e0|] eqn:Ho.
    + simpl. intros [= <-]. apply (Hsel _ (or_introl eq_refl)). exact Ho.
    + destruct (GetAllowed (resp o)); simpl; [discriminate|].
      apply IH. intros x Hx. apply Hsel. now right.
  - intros [= <-]. exact (Hsel _ (or_introl eq_refl)).
Qed.

Lemma intersection_loop_errors (P : error -> Prop) (n : nat) (sel : list selected) :
  (forall x, In x sel ->
             match x with
             | Received r => errors_within P r
             | CtxDone e => P e
             end) ->
  errors_within P (intersection_loop n sel).
Proof.
  revert sel. induction n as [|n IH]; intros sel Hsel e; simpl; [discriminate|].
  destruct sel as [|[[[o|x] t]|e'] sel]; simpl; try contradiction.
  - destruct (err o) as [e0|] eqn:Ho.
    + simpl. intros [= <-]. apply (Hsel _ (or_introl eq_refl)). exact Ho.
    + destruct (negb (GetAllowed (resp o))); simpl; [congruence|].
      apply IH. intros x Hx. apply Hsel. now right.
  - intros [= <-]. exact (Hsel _ (or_introl eq_refl)).
Qed.

Lemma exclusion_loop_errors (P : error -> Prop) (n : nat) (sel : list exclusion_selected) :
  (forall x, In x sel ->
             match x with
             | BaseResult r | SubResult r => errors_within P r
             | ExclusionCtxDone e => P e
             end) ->
  errors_within P (exclusion_loop n sel).
Proof.
  revert sel. induction n as [|n IH]; intros sel Hsel e; simpl; [discriminate|].
  destruct sel as [|[[[o|x] t]|[[o|x] t]|e'] sel]; simpl; try contradiction.
  - destruct (err o) as [e0|] eqn:Ho.
    + simpl. intros [= <-]. apply (Hsel _ (or_introl eq_refl)). exact Ho.
    + destruct (resp o) as [r|]; simpl; [|contradiction].
      destruct (negb (Allowed r)); simpl; [discriminate|].
      apply IH. intros x Hx. apply Hsel. now right.
  - destruct (err o) as [e0|] eqn:Ho.
    + simpl. intros [= <-]. apply (Hsel _ (or_introl eq_refl)). exact Ho.
    + destruct (resp o) as [r|]; simpl; [|contradiction].
      destruct (Allowed r); simpl; [discriminate|].
      apply IH. intros x Hx. apply Hsel. now right.
  - intros [= <-]. exact (Hsel _ (or_introl eq_refl)).
Qed.

Lemma selections_errors (P : error -> Prop) (s : schedule) (ctx : Context) (K : N)
      (handlers : list CheckHandlerFunc) :
  (forall e, ctx_err ctx = Some e -> P e) ->
  (forall h, In h handlers -> errors_within P (h ctx)) ->
  forall x, In x (selections s ctx (resolver s ctx K handlers)) ->
            match x with
            | Received r => errors_within P r
            | CtxDone e => P e
            end.
Proof.
  intros Hctx Hh [r|e] Hin.
  - apply selections_received, resolver_in in Hin. destruct Hin as (h & Hin & ->). auto.
  - unfold selections in Hin. destruct (ctx_err ctx) as [e'|].
    + apply in_app_or in Hin. destruct Hin as [Hin|[[= <-]|[]]]; [|auto].
      apply in_map_iff in Hin. destruct Hin as (x & Hx & _). discriminate.
    + apply in_map_iff in Hin. destruct Hin as (x & Hx & _). discriminate.
Qed.

Lemma union_errors (P : error -> Prop) (s : schedule) (ctx : Context) (K : N)
      (handlers : list CheckHandlerFunc) :
  (forall e, ctx_err ctx = Some e -> P e) ->
  (forall h, In h handlers -> errors_within P (h ctx)) ->
  errors_within P (union s ctx K handlers).
Proof.
  intros Hctx Hh. apply union_loop_errors. now apply selections_errors.
Qed.

Lemma intersection_errors (P : error -> Prop) (s : schedule) (ctx : Context) (K : N)
      (handlers : list CheckHandlerFunc) :
  (forall e, ctx_err ctx = Some e -> P e) ->
  (forall h, In h handlers -> errors_within P (h ctx)) ->
  errors_within P (intersection s ctx K handlers).
Proof.
  intros Hctx Hh. apply intersection_loop_errors. now apply selections_errors.
Qed.

Lemma exclusion_errors (P : error -> Prop) (s : schedule) (ctx : Context) (K : N)
      (handlers : list CheckHandlerFunc) :
  (forall e, ctx_err ctx = Some e -> P e) ->
  (forall h, In h handlers -> errors_within P (h ctx)) ->
  errors_within P (exclusion s ctx K handlers).
Proof.
  intros Hctx Hh. unfold exclusion.
  destruct handlers as [|b [|sub [|x handlers]]]; try (intros e []).
  destruct (K =? 0)%N; [intros e []|].
  apply exclusion_loop_errors. intros x Hin.
  destruct x as [r|r|e].
  - apply exclusion_selections_in in Hin; [|reflexivity].
    apply exclusion_chans in Hin. destruct Hin as [[= ->]|[=]]. apply Hh. now left.
  - apply exclusion_selections_in in Hin; [|reflexivity].
    apply exclusion_chans in Hin. destruct Hin as [[=]|[= ->]]. apply Hh. right. now left.
  - unfold exclusion_selections in Hin.
    destruct (ctx_err ctx) as [e'|] eqn:He'.
    + destruct (done_at s) as [i|].
      * apply in_app_or in Hin. destruct Hin as [Hin|[[= <-]|[]]]; [|auto].
        assert (Hin' : In (ExclusionCtxDone e)
                          (publish_order 2 2 []
                             [BaseResult (b ctx); SubResult (sub ctx)] (picks s))).
        { rewrite <- (firstn_skipn i (publish_order _ _ _ _ _)). apply in_or_app. now left. }
        apply exclusion_chans in Hin'. destruct Hin' as [[=]|[=]].
      * apply exclusion_chans in Hin. destruct Hin as [[=]|[=]].
    + apply exclusion_chans in Hin. destruct Hin as [[=]|[=]].
Qed.

(** X16.  A reducer invents no error: every error [union], [intersection]
    or [exclusion] returns is the error of its context or an error one of
    its handlers returned, whatever the limit and the schedule. *)
Theorem reducers_invent_no_error :
  forall (s : schedule) (ctx : Context) (K : N) (handlers : list CheckHandlerFunc)
         (reducer : CheckFuncReducer) (e : error),
    reducer = union \/ reducer = intersection \/ reducer = exclusion ->
    error_of (reducer s ctx K handlers) = Some e ->
    ctx_err ctx = Some e \/ exists h, In h handlers /\ error_of (h ctx) = Some e.
Proof.
  intros s ctx K handlers reducer e Hreducer He.
  set (P := fun e => ctx_err ctx = Some e
                     \/ exists h, In h handlers /\ error_of (h ctx) = Some e).
  assert (Hctx : forall e, ctx_err ctx = Some e -> P e) by (intros e' H; now left).
  assert (Hh : forall h, In h handlers -> errors_within P (h ctx)).
  { intros h Hin e' H'. right. exists h. split; [exact Hin|].
    unfold error_of. destruct (fst (h ctx)); [exact H'|contradiction]. }
  assert (H : errors_within P (reducer s ctx K handlers)).
  { destruct Hreducer as [->|[->| ->]];
      [now apply union_errors|now apply intersection_errors|now apply exclusion_errors]. }
  apply H. unfold error_of in He. destruct (fst (reducer s ctx K handlers)); [exact He|discriminate].
Qed.

Lemma reducers_invent_no_error_witness :
  error_of (union in_order background 1%N [erring; allowing])
  = Some (ErrStorage "unavailable")
  /\ (ctx_err background = Some (ErrStorage "unavailable")
      \/ exists h, In h [erring; allowing]
                   /\ error_of (h background) = Some (ErrStorage "unavailable")).
Proof.
  split; [reflexivity|].
  exact (@reducers_invent_no_error in_order background 1%N [erring; allowing] union
           (ErrStorage "unavailable") (or_introl eq_refl) eq_refl).
Defined.

Section Provenance.

Variable sched : scheduler.
Variable c : ConcurrentChecker.
Variable req : DispatchCheckRequest.

Let P (ctx : Context) := check_error (ds c) ctx.

Hypothesis dispatcher_errors :
  forall ctx r e, dispatch_error (dispatcher c ctx r) = Some e -> P ctx e.

Lemma context_error_known (ctx : Context) (e : error) : ctx_err ctx = Some e -> P ctx e.
Proof. intros H. right. right. now left. Qed.

Lemma errors_dispatch (ctx0 ctx : Context) (r : DispatchCheckRequest) :
  errors_within (P ctx) (dispatch c ctx0 r ctx).
Proof.
  intros e. unfold dispatch. pose proof (@dispatcher_errors ctx r e) as H.
  unfold dispatch_error in H.
  destruct (dispatcher c ctx r) as [[[[rsp|] [e'|]]|x] t]; simpl in *;
    try discriminate; try contradiction; auto.
Qed.

Lemma errors_checkDirect_loop (ctx0 : Context) (iter : TupleIterator)
      (handlers : list CheckHandlerFunc) :
  (forall h, In h handlers -> forall ctx, errors_within (P ctx) (h ctx)) ->
  match checkDirect_loop c ctx0 req iter handlers with
  | inl handlers' => forall h, In h handlers' -> forall ctx, errors_within (P ctx) (h ctx)
  | inr e => In (inr e) iter
  end.
Proof.
  revert handlers. induction iter as [|[t|e] iter IH]; intros handlers Hh; simpl.
  - exact Hh.
  - destruct (SplitObjectRelation (User (Key t))) as [usersetObject usersetRelation].
    match goal with
    | |- match checkDirect_loop _ _ _ _ ?hs with _ => _ end =>
        specialize (IH hs); destruct (checkDirect_loop c ctx0 req iter hs)
    end.
    + apply IH. intros h Hin. apply in_app_or in Hin.
      destruct Hin as [Hin|[<-|[]]]; [auto|]. intros ctx. apply errors_dispatch.
    + right. apply IH. intros h Hin. apply in_app_or in Hin.
      destruct Hin as [Hin|[<-|[]]]; [auto|]. intros ctx. apply errors_dispatch.
  - destruct (error_eqb e ErrIteratorDone); [exact Hh|now left].
Qed.

Lemma errors_checkTTU_loop (ctx0 : Context) (computedRelation : string)
      (iter : TupleIterator) (handlers : list CheckHandlerFunc) :
  (forall h, In h handlers -> forall ctx, errors_within (P ctx) (h ctx)) ->
  match checkTTU_loop c ctx0 req computedRelation iter handlers with
  | inl handlers' => forall h, In h handlers' -> forall ctx, errors_within (P ctx) (h ctx)
  | inr e => In (inr e) iter
  end.
Proof.
  revert handlers. induction iter as [|[t|e] iter IH]; intros handlers Hh; simpl.
  - exact Hh.
  - destruct (SplitObjectRelation (User (Key t))) as [userObj ignored].
    match goal with
    | |- match checkTTU_loop _ _ _ _ _ ?hs with _ => _ end =>
        specialize (IH hs); destruct (checkTTU_loop c ctx0 req computedRelation iter hs)
    end.
    + apply IH. intros h Hin. apply in_app_or in Hin.
      destruct Hin as [Hin|[<-|[]]]; [auto|]. intros ctx. apply errors_dispatch.
    + right. apply IH. intros h Hin. apply in_app_or in Hin.
      destruct Hin as [Hin|[<-|[]]]; [auto|]. intros ctx. apply errors_dispatch.
  - destruct (error_eqb e ErrIteratorDone); [exact Hh|now left].
Qed.

Lemma errors_traced (Q : error -> Prop) (t : list event) (r : run checkOutcome) :
  errors_within Q r -> errors_within Q (traced t r).
Proof. intros H e. exact (H e). Qed.

Lemma errors_defer (Q : error -> Prop) (ev : event) (r : run checkOutcome) :
  errors_within Q r -> errors_within Q (defer ev r).
Proof.
  intros H e. unfold defer. destruct r as [[o|[m|e'| |]] t]; simpl; try contradiction;
    exact (H e).
Qed.

Lemma errors_failed (Q : error -> Prop) (e : error) (t : list event) :
  Q e -> errors_within Q (Ret (failed e), t).
Proof. intros H e'. simpl. now intros [= <-]. Qed.

Lemma errors_none (Q : error -> Prop) (rsp : option CheckResponse) (t : list event) :
  errors_within Q (Ret {| resp := rsp; err := None |}, t).
Proof. intros e. discriminate. Qed.

Lemma errors_checkDirect (parentctx ctx : Context) :
  errors_within (P ctx) (checkDirect sched c parentctx req ctx).
Proof.
  apply union_errors; [apply context_error_known|]. intros h [<-|[<-|[]]].
  - unfold checkDirect_fn1.
    destruct (ReadUserTuple (ds c) (StoreId req) (TupleKey req)) as [[t|] [e|]] eqn:Hread;
      try apply errors_none;
      (destruct (error_eqb e ErrNotFound); [apply errors_none|]);
      apply errors_failed; right; right; right; right; right; left; eauto.
  - unfold checkDirect_fn2.
    destruct (ReadUsersetTuples (ds c) (StoreId req) (TupleKey req)) as [iter|e] eqn:Hread.
    + apply errors_traced.
      pose proof (@errors_checkDirect_loop ctx iter []) as Hloop.
      destruct (checkDirect_loop c ctx req iter []) as [handlers|e].
      * destruct (0 <? length handlers)%nat; [|apply errors_none].
        apply union_errors; [apply context_error_known|].
        intros h Hh. apply Hloop; [intros h' []|exact Hh].
      * apply errors_failed. right. right. right. do 4 right.
        exists (StoreId req), (TupleKey req), iter. split; [exact Hread|].
        apply Hloop. intros h' [].
    + apply errors_failed. right. right. right. right. left. eauto.
Qed.

Lemma errors_checkTTU (parentctx : Context) (rewrite : Userset) :
  match checkTTU sched c parentctx req rewrite with
  | Ret handler => forall ctx, errors_within (P ctx) (handler ctx)
  | Abort _ => True
  end.
Proof.
  unfold checkTTU. destruct (ctx_typesys parentctx) as [typesys|]; [|exact I].
  intros ctx. cbv beta zeta.
  destruct (Read (ds c) (StoreId req) _) as [iter|e] eqn:Hread.
  - apply errors_traced, errors_defer.
    set (ctx' := {| ctx_typesys := Some typesys; ctx_err := ctx_err ctx |}).
    pose proof (@errors_checkTTU_loop ctx' (GetComputedUserset rewrite) iter []) as Hloop.
    destruct (checkTTU_loop c ctx' req _ iter []) as [handlers|e].
    + destruct (0 <? length handlers)%nat; [|apply errors_none].
      assert (H : errors_within (P ctx') (union (sched req (length handlers)) ctx'
                                            (concurrencyLimit c) handlers)).
      { apply union_errors; [apply context_error_known|].
        intros h Hh. apply Hloop; [intros h' []|exact Hh]. }
      exact H.
    + apply errors_failed. right. right. right. do 3 right. left.
      eexists _, _, iter. split; [exact Hread|]. apply Hloop. intros h' [].
  - apply errors_failed. right. right. right. left. eauto.
Qed.

Lemma errors_sequence (l : list (call CheckHandlerFunc)) :
  Forall (fun r : call CheckHandlerFunc =>
            match r with
            | Ret handler => forall ctx, errors_within (P ctx) (handler ctx)
            | Abort _ => True
            end) l ->
  match sequence l with
  | Ret handlers => forall h, In h handlers -> forall ctx, errors_within (P ctx) (h ctx)
  | Abort _ => True
  end.
Proof.
  induction 1 as [|[h|x] l Hh Hl IH]; simpl.
  - intros h [].
  - destruct (sequence l) as [handlers|x]; [|exact I].
    intros h' [<-|Hin]; [exact Hh|now apply IH].
  - exact I.
Qed.

Lemma errors_checkRewrite (ctx : Context) (rewrite : Userset) :
  match checkRewrite sched c ctx req rewrite with
  | Ret handler => forall ctx', errors_within (P ctx') (handler ctx')
  | Abort _ => True
  end.
Proof.
  induction rewrite as [ | relation | tupleset computed | child IH | child IH
                         | base subtract IHb IHs ] using Userset_induction.
  - intros ctx'. apply errors_checkDirect.
  - intros ctx'. apply errors_dispatch.
  - apply errors_checkTTU.
  - simpl. unfold checkSetOperation.
    assert (H := @errors_sequence (map (checkRewrite sched c ctx req) child)).
    destruct (sequence _) as [handlers|x]; simpl; [|exact I].
    intros ctx'. apply union_errors; [apply context_error_known|]. intros h Hh.
    apply H; [|exact Hh]. apply Forall_map. exact IH.
  - simpl. unfold checkSetOperation.
    assert (H := @errors_sequence (map (checkRewrite sched c ctx req) child)).
    destruct (sequence _) as [handlers|x]; simpl; [|exact I].
    intros ctx'. apply intersection_errors; [apply context_error_known|]. intros h Hh.
    apply H; [|exact Hh]. apply Forall_map. exact IH.
  - simpl. unfold checkSetOperation. simpl.
    destruct (checkRewrite sched c ctx req base) as [hb|x]; [|exact I].
    destruct (checkRewrite sched c ctx req subtract) as [hs|x]; [|exact I].
    cbn - [exclusion]. intros ctx'. apply exclusion_errors; [apply context_error_known|].
    intros h [<-|[<-|[]]]; auto.
Qed.

Lemma errors_DispatchCheck (ctx : Context) (e : error) :
  dispatch_error (DispatchCheck sched c ctx req) = Some e -> P ctx e.
Proof.
  unfold DispatchCheck, dispatch_error. rewrite fst_traced.
  destruct (Depth (ResolutionMetadata_ req) =? 0)%N.
  { simpl. intros [= <-]. now left. }
  destruct (ctx_typesys ctx) as [typesys|]; [|discriminate].
  destruct (SplitObject (Object (TupleKey req))) as [objectType ignored].
  destruct (GetRelation typesys objectType _) as [rel|e'].
  2:{ simpl. intros [= <-]. right. left. eauto. }
  pose proof (errors_checkRewrite ctx (Rewrite rel)) as Hbuilt.
  destruct (checkRewrite sched c ctx req (Rewrite rel)) as [handler|x]; [|discriminate].
  assert (Hunion : errors_within (P ctx)
                                 (union (sched req 1) ctx (concurrencyLimit c) [handler])).
  { apply union_errors; [apply context_error_known|]. intros h [<-|[]]. apply Hbuilt. }
  specialize (Hunion e).
  destruct (union (sched req 1) ctx (concurrencyLimit c) [handler])
    as [[[[rsp|] [e'|]]|x] t]; simpl in *; try discriminate; auto.
Qed.

End Provenance.

(** X17.  A Check invents no error.  Every error [DispatchCheck] returns, at
    any depth of the resolution, is the depth error, the error of a relation
    that the model does not define, the error of the context, or an error
    that the datastore reported (from a read, a lookup or an iterator); in
    particular over a datastore that never fails and under a context that
    is never cancelled a Check fails only on its depth or on an undefined
    relation. *)
Theorem check_invents_no_error :
  forall (sched : scheduler) (fuel : nat) (ds0 : OpenFGADatastore) (K : N)
         (ctx : Context) (req : DispatchCheckRequest) (e : error),
    dispatch_error (DispatchCheck sched (NewConcurrentChecker sched fuel ds0 K) ctx req)
    = Some e ->
    check_error ds0 ctx e.
Proof.
  intros sched fuel ds0 K. induction fuel as [|fuel IH]; intros ctx req e He.
  - apply (@errors_DispatchCheck sched (NewConcurrentChecker sched 0 ds0 K) req) in He;
      [exact He|]. intros ctx' r e'. discriminate.
  - apply (@errors_DispatchCheck sched (NewConcurrentChecker sched (S fuel) ds0 K) req)
      in He; [exact He|]. intros ctx' r e'. apply IH.
Qed.

Lemma check_invents_no_error_witness :
  dispatch_error
    (DispatchCheck always_in_order
       (NewConcurrentChecker always_in_order 2 (memory [invalid_userset_tuple]) 1%N)
       (with_typesystem model) (check_request "document:1" "viewer" "user:jon" 1))
  = Some ErrResolutionDepthExceeded
  /\ check_error (memory [invalid_userset_tuple]) (with_typesystem model)
                 ErrResolutionDepthExceeded.
Proof.
  split; [reflexivity|].
  exact (@check_invents_no_error always_in_order 2 (memory [invalid_userset_tuple]) 1%N
           (with_typesystem model) (check_request "document:1" "viewer" "user:jon" 1)
           ErrResolutionDepthExceeded eq_refl).
Defined.

Import materializer statements.

(** ** Wildcards *)

Lemma direct_refs_passes_over (objectType relation : string)
      (refs : list RelationReference) (subjectTypes nestedStatements : list string) :
  direct_refs objectType relation refs subjectTypes nestedStatements
  = direct_refs objectType relation (filter (fun ref => negb (passed_over ref)) refs)
                subjectTypes nestedStatements.
Proof.
  revert subjectTypes nestedStatements.
  induction refs as [|ref refs IH]; intros subjectTypes nestedStatements; [reflexivity|].
  cbn [direct_refs filter]. unfold passed_over, ref_Relation.
  destruct (ref_RelationOrWildcard ref) as [[rel|]|] eqn:Href; cbn [negb].
  - destruct (String.eqb rel "") eqn:Hrel; cbn [negb].
    + apply IH.
    + cbn [direct_refs]. unfold ref_Relation. rewrite Href, Hrel. cbn [negb]. apply IH.
  - simpl. apply IH.
  - cbn [direct_refs]. rewrite Href. apply IH.
Qed.

(** X18.  The statement of a directly assignable relation takes no account
    of public access: a directly related user type that is a wildcard (or a
    userset with an empty relation) adds neither a subject type nor a nested
    statement, so that the statement is the same as under the model without
    these user types. *)
Theorem wildcards_not_materialized :
  forall (typesys typesys' : TypeSystem) (objectType relation : string)
         (rel rel' : typesystem.Relation),
    GetRelation typesys objectType relation = inl rel ->
    GetRelation typesys' objectType relation = inl rel' ->
    DirectlyRelatedUserTypes rel'
    = filter (fun ref => negb (passed_over ref)) (DirectlyRelatedUserTypes rel) ->
    materializeDirect typesys objectType relation
    = materializeDirect typesys' objectType relation.
Proof.
  intros typesys typesys' objectType relation rel rel' Hrel Hrel' Hrefs.
  unfold materializeDirect. rewrite Hrel, Hrel', Hrefs.
  now rewrite <- direct_refs_passes_over.
Qed.

Lemma wildcards_not_materialized_witness :
  DirectlyRelatedUserTypes publics.private_viewer
  = filter (fun ref => negb (passed_over ref))
           (DirectlyRelatedUserTypes publics.public_viewer)
  /\ materializeDirect publics.public_model "document" "viewer"
     = materializeDirect publics.private_model "document" "viewer".
Proof.
  split; [reflexivity|].
  exact (@wildcards_not_materialized publics.public_model publics.private_model
           "document" "viewer" publics.public_viewer publics.private_viewer
           eq_refl eq_refl eq_refl).
Defined.

Import views.

(** ** The view of an index *)

Lemma visit_perm {A : Type} (n : nat) (picks : list nat) (m : list A) :
  n = length m -> Permutation (visit n picks m) m.
Proof.
  revert picks m. induction n as [|n IH]; intros picks m Hn.
  - destruct m; [constructor|discriminate].
  - cbn [visit].
    assert (Hp : hd 0 picks mod length m < length m)
      by (apply Nat.mod_upper_bound; lia).
    destruct (nth_error m (hd 0 picks mod length m)) as [entry|] eqn:Hnth.
    + apply Permutation_trans with (entry :: graph.remove_nth (hd 0 picks mod length m) m);
        [|symmetry; now apply remove_nth_perm].
      constructor. apply IH. rewrite remove_nth_length by exact Hp. lia.
    + apply nth_error_None in Hnth. lia.
Qed.

Lemma range_perm {A : Type} (picks : list nat) (m : list A) :
  Permutation (range picks m) m.
Proof. now apply visit_perm. Qed.

Lemma forallb_permutation {A : Type} (f : A -> bool) (l l' : list A) :
  Permutation l l' -> forallb f l = forallb f l'.
Proof.
  induction 1 as [|x l l' _ IH|x y l|l l' l'' _ IH1 _ IH2]; simpl.
  - reflexivity.
  - now rewrite IH.
  - destruct (f x), (f y); reflexivity.
  - now rewrite IH1.
Qed.

Lemma once_lookup {A : Type} (m : list (string * A)) (k : string) (v : A) :
  In (k, v) (once m) -> lookup k m = Some v.
Proof.
  induction m as [|[k0 v0] m IH]; [contradiction|].
  cbn [once lookup]. intros [[= <- <-]|Hin].
  - now rewrite String.eqb_refl.
  - apply filter_In in Hin. destruct Hin as [Hin Hk]. simpl in Hk.
    destruct (String.eqb k k0); [discriminate|]. now apply IH.
Qed.

Lemma all_relations_defined (typesys : TypeSystem) (objectType relation : string)
      (relations : list (string * typesystem.Relation)) (rel : typesystem.Relation) :
  In (objectType, relations) (GetAllRelations typesys) ->
  In (relation, rel) relations ->
  GetRelation typesys objectType relation = inl rel.
Proof.
  unfold GetAllRelations, GetRelation. intros Ht Hr.
  apply in_map_iff in Ht. destruct Ht as ([t rels] & [= <- <-] & Ht).
  rewrite (once_lookup _ _ _ Ht). now rewrite (once_lookup _ _ _ Hr).
Qed.

Lemma materialize_relations_returns (typesys : TypeSystem) (objectType : string)
      (relations : list (string * typesystem.Relation))
      (statements : list (string * namedSQLStatement)) :
  (forall relation rel, In (relation, rel) relations ->
                        GetRelation typesys objectType relation = inl rel) ->
  returned_value (materialize_relations typesys objectType relations statements)
  = forallb (fun r => materializable typesys objectType (fst r) (Rewrite (snd r)))
            relations.
Proof.
  revert statements.
  induction relations as [|[relation rel] relations IH]; intros statements Hdef;
    [reflexivity|].
  cbn [materialize_relations forallb fst snd].
  rewrite <- materializable_returns. unfold materializeInternal.
  rewrite (Hdef relation rel (or_introl eq_refl)).
  destruct (materializeInternalWithRewrite typesys objectType relation (Rewrite rel));
    [|reflexivity].
  simpl. apply IH. intros relation' rel' Hin. apply Hdef. now right.
Qed.

Lemma materialize_types_returns (it : iteration) (typesys : TypeSystem)
      (types : list (string * list (string * typesystem.Relation)))
      (statements : list (string * namedSQLStatement)) :
  (forall objectType relations, In (objectType, relations) types ->
                                In (objectType, relations) (GetAllRelations typesys)) ->
  returned_value (materialize_types it typesys types statements)
  = forallb (fun t =>
               forallb (fun r => materializable typesys (fst t) (fst r) (Rewrite (snd r)))
                       (snd t))
            types.
Proof.
  revert statements.
  induction types as [|[objectType relations] types IH]; intros statements Hin;
    [reflexivity|].
  cbn [materialize_types forallb fst snd].
  rewrite <- (forallb_permutation _ (range_perm (over_relations it objectType) relations)).
  rewrite <- (@materialize_relations_returns typesys objectType _ statements).
  - destruct (materialize_relations typesys objectType _ statements); [|reflexivity].
    simpl. apply IH. intros t rels H. apply Hin. now right.
  - intros relation rel Hr.
    apply (@all_relations_defined typesys objectType relation relations rel).
    + apply Hin. now left.
    + eapply Permutation_in; [apply range_perm|exact Hr].
Qed.

Lemma statements_of_returns (it : iteration) (typesys : TypeSystem) :
  returned_value (statements_of it typesys) = model_materializable typesys.
Proof.
  unfold statements_of, model_materializable.
  rewrite materialize_types_returns.
  - apply forallb_permutation, range_perm.
  - intros t rels Hin. eapply Permutation_in; [apply range_perm|exact Hin].
Qed.

Lemma views_supported (dialect : MaterializationDialect) (n i : nat)
      (statements : list (string * namedSQLStatement)) (viewbody viewselect : string) :
  match views dialect n i statements viewbody viewselect with
  | inl _ => supported dialect = true \/ statements = []
  | inr e => supported dialect = false /\ e = unsupported dialect
  end.
Proof.
  revert i viewbody viewselect.
  induction statements as [|[statementName statement] rest IH];
    intros i viewbody viewselect; cbn [views]; [now right|].
  unfold supported.
  destruct (String.eqb dialect PostgresMaterializerDialect
            || String.eqb dialect MySQLMaterializerDialect) eqn:Hsql;
    [|destruct (String.eqb dialect MaterializeMaterializerDialect) eqn:Hmz].
  - destruct (n - 1 <=? i)%nat;
      match goal with
      | |- match views ?d ?n ?i ?r ?b ?s with _ => _ end =>
          specialize (IH i b s); destruct (views d n i r b s)
      end; try (left; reflexivity);
      destruct IH as [IH _]; unfold supported in IH; rewrite Hsql in IH; discriminate.
  - destruct (n - 1 <=? i)%nat;
      match goal with
      | |- match views ?d ?n ?i ?r ?b ?s with _ => _ end =>
          specialize (IH i b s); destruct (views d n i r b s)
      end; try (left; reflexivity);
      destruct IH as [IH _]; unfold supported in IH; rewrite Hsql, Hmz in IH; discriminate.
  - destruct (n - 1 <=? i)%nat; split; reflexivity.
Qed.

Lemma views_sql_dialects (n i : nat) (statements : list (string * namedSQLStatement))
      (viewbody viewselect : string) :
  views MySQLMaterializerDialect n i statements viewbody viewselect
  = views PostgresMaterializerDialect n i statements viewbody viewselect.
Proof.
  revert i viewbody viewselect.
  induction statements as [|[statementName statement] rest IH];
    intros i viewbody viewselect; cbn [views]; [reflexivity|].
  change (String.eqb MySQLMaterializerDialect PostgresMaterializerDialect
          || String.eqb MySQLMaterializerDialect MySQLMaterializerDialect) with true.
  change (String.eqb PostgresMaterializerDialect PostgresMaterializerDialect
          || String.eqb PostgresMaterializerDialect MySQLMaterializerDialect) with true.
  cbv iota. destruct (n - 1 <=? i)%nat; apply IH.
Qed.

(** X19.  What [Materialize] does, whatever the order in which the runtime
    ranges over its maps.  It panics exactly when some relation of the model
    has no statement, whatever the dialect; otherwise it returns the error
    for an unsupported dialect, with an empty statement, exactly when the
    dialect is none of [postgresql], [mysql], [materialize] (also for a
    model without relation), and a statement with no error for these three;
    and for [mysql] it returns what it returns for [postgresql]. *)
Theorem materialize_outcomes :
  forall (it : iteration) (input : MaterializerInput),
    returned_value (Materialize it input) = model_materializable (Typesystem input)
    /\ (forall statement e,
           Materialize it input = Ret (statement, e) ->
           (supported (Dialect input) = true /\ e = None)
           \/ (supported (Dialect input) = false
               /\ statement = "" /\ e = Some (unsupported (Dialect input))))
    /\ Materialize it {| Dialect := MySQLMaterializerDialect;
                         IndexName := IndexName input;
                         Typesystem := Typesystem input |}
       = Materialize it {| Dialect := PostgresMaterializerDialect;
                           IndexName := IndexName input;
                           Typesystem := Typesystem input |}.
Proof.
  intros it input. split; [|split].
  - rewrite <- (statements_of_returns it). unfold Materialize.
    destruct (statements_of it (Typesystem input)) as [statements|x]; [|reflexivity].
    destruct (views _ _ _ _ _ _) as [[viewbody viewselect]|e]; [|reflexivity].
    destruct (_ || _); [reflexivity|]. now destruct (String.eqb _ _).
  - intros statement e. unfold Materialize.
    destruct (statements_of it (Typesystem input)) as [statements|x]; [|discriminate].
    pose proof (views_supported (Dialect input) (length statements) 0
                                (range (over_statements it) statements) "" "") as Hviews.
    destruct (views _ _ _ _ _ _) as [[viewbody viewselect]|e'].
    + unfold supported.
      destruct (String.eqb (Dialect input) PostgresMaterializerDialect
                || String.eqb (Dialect input) MySQLMaterializerDialect);
        [intros [= <- <-]; now left|].
      destruct (String.eqb (Dialect input) MaterializeMaterializerDialect);
        intros [= <- <-]; [now left|now right].
    + destruct Hviews as [Hs ->]. intros [= <- <-]. now right.
  - unfold Materialize. cbn [Dialect IndexName Typesystem].
    destruct (statements_of it (Typesystem input)) as [statements|x]; [|reflexivity].
    now rewrite views_sql_dialects.
Qed.

Lemma materialize_outcomes_witness :
  Materialize in_turn {| Dialect := "oracle"; IndexName := "index";
                         Typesystem := scenarios.team_model |}
  = Ret ("", Some (unsupported "oracle"))
  /\ ((supported "oracle" = true /\ Some (unsupported "oracle") = None)
      \/ (supported "oracle" = false
          /\ "" = "" /\ Some (unsupported "oracle") = Some (unsupported "oracle"))).
Proof.
  split; [reflexivity|].
  exact (proj1 (proj2 (materialize_outcomes in_turn
                         {| Dialect := "oracle"; IndexName := "index";
                            Typesystem := scenarios.team_model |}))
               "" (Some (unsupported "oracle")) eq_refl).
Defined.
Import names.

Lemma store_keys {A : Type} (k : string) (v : A) (m : list (string * A)) (k' : string) :
  In k' (map fst (store k v m)) <-> k' = k \/ In k' (map fst m).
Proof.
  induction m as [|[k0 v0] m IH]; cbn [store map fst In].
  - intuition auto.
  - destruct (String.eqb k k0) eqn:Hk; cbn [map fst In].
    + apply String.eqb_eq in Hk. subst k0. intuition auto.
    + rewrite IH. intuition auto.
Qed.

Lemma store_NoDup {A : Type} (k : string) (v : A) (m : list (string * A)) :
  NoDup (map fst m) -> NoDup (map fst (store k v m)).
Proof.
  induction m as [|[k0 v0] m IH]; cbn [store map fst]; intros Hm.
  - constructor; [intros []|constructor].
  - inversion Hm as [|? ? Hnot Hrest]; subst.
    destruct (String.eqb k k0) eqn:Hk; cbn [map fst].
    + apply String.eqb_eq in Hk. subst k0. now constructor.
    + constructor; [|now apply IH].
      rewrite store_keys. intros [->|Hin]; [|contradiction].
      now rewrite String.eqb_refl in Hk.
Qed.

Lemma store_entries {A : Type} (k : string) (v : A) (m : list (string * A))
      (k' : string) (v' : A) :
  In (k', v') (store k v m) -> (k', v') = (k, v) \/ In (k', v') m.
Proof.
  induction m as [|[k0 v0] m IH]; cbn [store In].
  - intuition auto.
  - destruct (String.eqb k k0); cbn [In]; intuition auto.
Qed.

Lemma materialize_relations_names (typesys : TypeSystem) (objectType : string)
      (relations : list (string * typesystem.Relation))
      (statements statements' : list (string * namedSQLStatement)) :
  materialize_relations typesys objectType relations statements = Ret statements' ->
  NoDup (map fst statements) -> named_after typesys statements ->
  NoDup (map fst statements') /\ named_after typesys statements'
  /\ (forall k, In k (map fst statements) -> In k (map fst statements'))
  /\ (forall relation rel, In (relation, rel) relations ->
                           In (underscore objectType relation) (map fst statements')).
Proof.
  revert statements.
  induction relations as [|[relation rel] relations IH]; intros statements Hrun Hnodup Hnamed;
    cbn [materialize_relations] in Hrun.
  - injection Hrun as <-.
    split; [exact Hnodup|split; [exact Hnamed|split; [auto|intros relation rel []]]].
  - destruct (materializeInternal typesys objectType relation) as [statement|x] eqn:Hm;
      [|discriminate].
    pose proof (@materializeInternal_name typesys objectType relation statement Hm) as Hname.
    destruct (IH _ Hrun) as (Hnodup' & Hnamed' & Hkeys & Hcover).
    + now apply store_NoDup.
    + intros k st Hin. apply store_entries in Hin.
      destruct Hin as [[= -> ->]|Hin]; [|now apply Hnamed].
      split; [reflexivity|]. exists objectType, relation. split; [now symmetry|exact Hm].
    + split; [exact Hnodup'|split; [exact Hnamed'|split]].
      * intros k Hk. apply Hkeys. apply store_keys. now right.
      * intros relation' rel' [[= <- <-]|Hin]; [|now apply (Hcover relation' rel')].
        apply Hkeys. apply store_keys. now left.
Qed.

Lemma materialize_types_names (it : iteration) (typesys : TypeSystem)
      (types : list (string * list (string * typesystem.Relation)))
      (statements statements' : list (string * namedSQLStatement)) :
  materialize_types it typesys types statements = Ret statements' ->
  NoDup (map fst statements) -> named_after typesys statements ->
  NoDup (map fst statements') /\ named_after typesys statements'
  /\ (forall k, In k (map fst statements) -> In k (map fst statements'))
  /\ (forall objectType relations relation rel,
         In (objectType, relations) types -> In (relation, rel) relations ->
         In (underscore objectType relation) (map fst statements')).
Proof.
  revert statements.
  induction types as [|[objectType relations] types IH]; intros statements Hrun Hnodup Hnamed;
    cbn [materialize_types] in Hrun.
  - injection Hrun as <-.
    split; [exact Hnodup|split; [exact Hnamed|split; [auto|intros t rels r rel []]]].
  - destruct (materialize_relations typesys objectType _ statements) as [statements1|x]
      eqn:Hrels; [|discriminate].
    destruct (@materialize_relations_names typesys objectType _ statements statements1 Hrels Hnodup Hnamed)
      as (Hnodup1 & Hnamed1 & Hkeys1 & Hcover1).
    destruct (IH statements1 Hrun Hnodup1 Hnamed1) as (Hnodup' & Hnamed' & Hkeys & Hcover).
    split; [exact Hnodup'|split; [exact Hnamed'|split; [auto|]]].
    intros t rels r rel [[= <- <-]|Hin] Hr; [|now apply (Hcover t rels r rel)].
    apply Hkeys. apply (Hcover1 r rel).
    eapply Permutation_in; [symmetry; apply range_perm|exact Hr].
Qed.

(** X20.  [Materialize] has one view for each statement name, not for each
    relation.  Whatever the order of its ranges, the statements it collects
    have distinct names, each is the statement of a relation of the model
    under the name of that relation, and every relation of the model finds
    a statement under its name: of the relations that share a name, one
    only has its statement in the view. *)
Theorem one_view_for_each_name :
  forall (it : iteration) (typesys : TypeSystem)
         (statements : list (string * namedSQLStatement)),
    statements_of it typesys = Ret statements ->
    NoDup (map fst statements)
    /\ named_after typesys statements
    /\ (forall objectType relations relation rel,
           In (objectType, relations) (GetAllRelations typesys) ->
           In (relation, rel) relations ->
           In (underscore objectType relation) (map fst statements)).
Proof.
  intros it typesys statements Hrun. unfold statements_of in Hrun.
  destruct (@materialize_types_names it typesys _ [] statements Hrun) as (Hnodup & Hnamed & _ & Hcover).
  - constructor.
  - intros k st [].
  - split; [exact Hnodup|split; [exact Hnamed|]]. intros t rels r rel Ht Hr.
    apply (Hcover t rels r rel); [|exact Hr].
    eapply Permutation_in; [symmetry; apply range_perm|exact Ht].
Qed.

Lemma one_view_for_each_name_witness :
  statements_of in_turn clash_model
  = Ret [("type_a_b", materializeComputedUserset "type" "a_b" "c")]
  /\ NoDup (map fst [("type_a_b", materializeComputedUserset "type" "a_b" "c")])
  /\ In (underscore "type_a" "b")
        (map fst [("type_a_b", materializeComputedUserset "type" "a_b" "c")]).
Proof.
  split; [reflexivity|].
  pose proof (@one_view_for_each_name in_turn clash_model
                [("type_a_b", materializeComputedUserset "type" "a_b" "c")] eq_refl)
    as (Hnodup & _ & Hcover).
  split; [exact Hnodup|].
  apply (Hcover "type_a" [("b", {| Rewrite := This; DirectlyRelatedUserTypes := [user_type] |})]
                "b" {| Rewrite := This; DirectlyRelatedUserTypes := [user_type] |});
    cbn; auto.
Defined.


(** ** Typed parameters *)

Import views conditions.

Lemma ConditionTypeReference_induction (P : ConditionTypeReference -> Prop) :
  (forall name generics,
      Forall (fun g => match g with Some ref => P ref | None => True end) generics ->
      P (TypeReference name generics)) ->
  forall ref, P ref.
Proof.
  intros Hnode. fix IH 1. intros [name generics]. apply Hnode.
  induction generics as [|[g|] generics IHgenerics]; constructor;
    [apply IH|exact IHgenerics|exact I|exact IHgenerics].
Qed.

Lemma lookup_store {A : Type} (k k' : string) (v : A) (m : list (string * A)) :
  lookup k (store k' v m) = if String.eqb k k' then Some v else lookup k m.
Proof.
  induction m as [|[k0 v0] m IH]; cbn [store lookup].
  - reflexivity.
  - destruct (String.eqb k' k0) eqn:Hk0; cbn [lookup].
    + apply String.eqb_eq in Hk0. subst k0. now destruct (String.eqb k k').
    + rewrite IH. destruct (String.eqb k k') eqn:Hk; [|reflexivity].
      apply String.eqb_eq in Hk. subst k'. now rewrite Hk0.
Qed.

Lemma lookup_absent {A : Type} (k : string) (m : list (string * A)) :
  lookup k m = None <-> ~ In k (map fst m).
Proof.
  induction m as [|[k0 v0] m IH]; cbn [lookup map fst In].
  - intuition auto.
  - destruct (String.eqb k k0) eqn:Hk.
    + apply String.eqb_eq in Hk. subst k0. split; [discriminate|]. intros H. exfalso. auto.
    + apply String.eqb_neq in Hk. rewrite IH. intuition auto.
Qed.

Lemma lookup_distinct {A : Type} (k : string) (v : A) (m : list (string * A)) :
  NoDup (map fst m) -> (lookup k m = Some v <-> In (k, v) m).
Proof.
  induction m as [|[k0 v0] m IH]; cbn [lookup map fst In]; intros Hm.
  - split; [discriminate|contradiction].
  - inversion Hm as [|? ? Hnot Hrest]; subst.
    destruct (String.eqb k k0) eqn:Hk.
    + apply String.eqb_eq in Hk. subst k0. split.
      * intros [= ->]. now left.
      * intros [[= ->]|Hin]; [reflexivity|].
        exfalso. apply Hnot. apply in_map_iff. now exists (k, v).
    + apply String.eqb_neq in Hk. rewrite (IH Hrest). split; [now right|].
      intros [[= Heq _]|Hin]; [now symmetry in Heq|exact Hin].
Qed.

Lemma lookup_permutation {A : Type} (k : string) (m m' : list (string * A)) :
  Permutation m m' -> NoDup (map fst m) -> lookup k m' = lookup k m.
Proof.
  intros Hperm Hm.
  assert (Hm' : NoDup (map fst m')).
  { eapply Permutation_NoDup; [apply Permutation_map; exact Hperm|exact Hm]. }
  destruct (lookup k m) as [v|] eqn:Hk.
  - apply (@lookup_distinct A k v m' Hm'). eapply Permutation_in; [exact Hperm|].
    now apply (@lookup_distinct A k v m Hm).
  - apply lookup_absent. apply lookup_absent in Hk. intros Hin. apply Hk.
    eapply Permutation_in; [symmetry; apply Permutation_map; exact Hperm|exact Hin].
Qed.

Lemma once_keys {A : Type} (m : list (string * A)) (k : string) :
  In k (map fst (once m)) <-> In k (map fst m).
Proof.
  induction m as [|[k0 v0] m IH]; cbn [once map fst In]; [reflexivity|].
  rewrite <- IH. rewrite !in_map_iff. split.
  - intros [->|([k1 v1] & <- & Hin)]; [now left|].
    apply filter_In in Hin. right. exists (k1, v1). split; [reflexivity|apply Hin].
  - intros [->|([k1 v1] & <- & Hin)]; [now left|]. cbn [fst].
    destruct (String.eqb k1 k0) eqn:Hk.
    + apply String.eqb_eq in Hk. now left.
    + right. exists (k1, v1). split; [reflexivity|]. apply filter_In.
      split; [exact Hin|]. cbn [fst]. now rewrite Hk.
Qed.

Lemma once_distinct {A : Type} (m : list (string * A)) : NoDup (map fst (once m)).
Proof.
  induction m as [|[k0 v0] m IH]; cbn [once map fst]; constructor.
  - rewrite in_map_iff. intros ([k1 v1] & Hk & Hin). cbn [fst] in Hk. subst k1.
    apply filter_In in Hin. destruct Hin as [_ Hk]. cbn [fst] in Hk.
    now rewrite String.eqb_refl in Hk.
  - clear - IH. induction (once m) as [|[k1 v1] l IHl]; cbn [filter]; [constructor|].
    inversion IH as [|? ? Hnot Hrest]; subst.
    destruct (negb (String.eqb (fst (k1, v1)) k0)); [|now apply IHl].
    cbn [map fst]. constructor; [|now apply IHl].
    rewrite in_map_iff. intros ([k2 v2] & Hk & Hin). cbn [fst] in Hk. subst k2.
    apply filter_In in Hin. apply Hnot. apply in_map_iff. exists (k1, v2).
    split; [reflexivity|apply Hin].
Qed.

Lemma lookup_once {A : Type} (m : list (string * A)) (k : string) :
  lookup k (once m) = lookup k m.
Proof.
  destruct (lookup k (once m)) as [v|] eqn:Hk.
  - symmetry. apply once_lookup. apply lookup_distinct; [apply once_distinct|exact Hk].
  - symmetry. apply lookup_absent. apply lookup_absent in Hk.
    now rewrite <- once_keys.
Qed.

Section Conditions.

Variable ParameterType : Type.
Variable any : Type.
Variable paramTypeDefinitions : string -> option (paramTypeDefinition ParameterType).
Variable ConvertValue : ParameterType -> any -> any + string.
Variable conditionParameterTypes : list (string * option ConditionTypeReference).

Lemma cast_entries_converts (entries converted : list (string * any)) :
  converts (cast_entries paramTypeDefinitions ConvertValue conditionParameterTypes
                         entries converted)
  = forallb (passes paramTypeDefinitions ConvertValue conditionParameterTypes) entries.
Proof.
  revert converted. induction entries as [|[key value] entries IH]; intros converted;
    cbn [cast_entries forallb]; [reflexivity|].
  unfold passes at 1, typed. cbn [fst snd].
  destruct (lookup key conditionParameterTypes) as [paramTypeRef|]; [|now rewrite IH].
  destruct (DecodeParameterType paramTypeDefinitions paramTypeRef) as [[varType|err]|x];
    [|reflexivity|reflexivity].
  destruct (ConvertValue varType value) as [convertedParam|err]; [|reflexivity].
  now rewrite IH.
Qed.

Lemma cast_entries_outcomes (entries converted : list (string * any)) :
  cast_entries paramTypeDefinitions ConvertValue conditionParameterTypes entries converted
  <> Ret (None, None).
Proof.
  revert converted. induction entries as [|[key value] entries IH]; intros converted;
    cbn [cast_entries]; [discriminate|].
  destruct (lookup key conditionParameterTypes) as [paramTypeRef|]; [|apply IH].
  destruct (DecodeParameterType paramTypeDefinitions paramTypeRef) as [[varType|err]|x];
    [|discriminate|discriminate].
  destruct (ConvertValue varType value) as [convertedParam|err]; [apply IH|discriminate].
Qed.

Lemma cast_entries_typed (entries converted result : list (string * any)) :
  NoDup (map fst entries) ->
  cast_entries paramTypeDefinitions ConvertValue conditionParameterTypes entries converted
  = Ret (Some result, None) ->
  forall key,
    lookup key result
    = match lookup key entries with
      | Some value =>
          match lookup key conditionParameterTypes with
          | Some _ => typed paramTypeDefinitions ConvertValue conditionParameterTypes key value
          | None => lookup key converted
          end
      | None => lookup key converted
      end.
Proof.
  revert converted.
  induction entries as [|[key value] entries IH]; intros converted Hentries Hrun k;
    cbn [cast_entries] in Hrun; cbn [lookup].
  - now injection Hrun as <-.
  - cbn [map fst] in Hentries. inversion Hentries as [|? ? Hnot Hrest]; subst.
    assert (Hfresh : String.eqb k key = true -> lookup k entries = None).
    { intros Hk. apply String.eqb_eq in Hk. subst k. now apply lookup_absent. }
    unfold typed.
    destruct (lookup key conditionParameterTypes) as [paramTypeRef|] eqn:Hdeclared.
    + destruct (DecodeParameterType paramTypeDefinitions paramTypeRef)
        as [[varType|err]|x] eqn:Hdecode; [|discriminate|discriminate].
      destruct (ConvertValue varType value) as [convertedParam|err] eqn:Hconvert;
        [|discriminate].
      rewrite (IH (store key convertedParam converted) Hrest Hrun k), lookup_store.
      destruct (String.eqb k key) eqn:Hk.
      * rewrite (Hfresh eq_refl). apply String.eqb_eq in Hk. subst k.
        now rewrite Hdeclared, Hdecode, Hconvert.
      * reflexivity.
    + rewrite (IH converted Hrest Hrun k).
      destruct (String.eqb k key) eqn:Hk; [|reflexivity].
      rewrite (Hfresh eq_refl). apply String.eqb_eq in Hk. subst k.
      now rewrite Hdeclared.
Qed.

(** X21.  Whether [CastContextToTypedParameters] converts a context does not
    depend on the order in which the runtime ranges over it.  It returns
    (nil, nil) exactly for an empty context, whatever the parameter types;
    and it returns a map without error exactly when the context is not
    empty, some parameter type is given, and every entry of the context
    whose key has a parameter type decodes and converts; entries without a
    parameter type never stand in the way. *)
Theorem cast_context_converts :
  forall (picks : list nat) (contextMap : list (string * any)),
    (CastContextToTypedParameters paramTypeDefinitions ConvertValue picks contextMap
                                  conditionParameterTypes = Ret (None, None)
     <-> contextMap = [])
    /\ converts (CastContextToTypedParameters paramTypeDefinitions ConvertValue picks
                                              contextMap conditionParameterTypes)
       = match contextMap, conditionParameterTypes with
         | [], _ => false
         | _, [] => false
         | _, _ => forallb (passes paramTypeDefinitions ConvertValue conditionParameterTypes)
                           (once contextMap)
         end.
Proof.
  intros picks contextMap. unfold CastContextToTypedParameters.
  destruct contextMap as [|[key value] contextMap].
  - split; [|reflexivity]. split; reflexivity.
  - cbn [once length Nat.eqb].
    destruct conditionParameterTypes as [|[name ref] types] eqn:Htypes.
    + split; [|reflexivity]. split; discriminate.
    + cbn [once length Nat.eqb]. rewrite <- Htypes. split.
      * split; [|discriminate]. intros Hrun. now apply cast_entries_outcomes in Hrun.
      * rewrite cast_entries_converts. apply forallb_permutation. apply range_perm.
Qed.

(** X22.  The map [CastContextToTypedParameters] returns holds, under each
    key of the context that has a parameter type, the value of the context
    converted to that type, and nothing else: a key of the context without
    parameter type is dropped, and a parameter without value in the context
    has no entry.  The order of the range does not show in the result. *)
Theorem cast_context_entries :
  forall (picks : list nat) (contextMap converted : list (string * any)),
    CastContextToTypedParameters paramTypeDefinitions ConvertValue picks contextMap
                                 conditionParameterTypes = Ret (Some converted, None) ->
    forall key,
      lookup key converted
      = match lookup key contextMap with
        | Some value =>
            typed paramTypeDefinitions ConvertValue conditionParameterTypes key value
        | None => None
        end.
Proof.
  intros picks contextMap converted Hrun key. unfold CastContextToTypedParameters in Hrun.
  destruct (length (once contextMap) =? 0)%nat; [discriminate|].
  destruct (length (once conditionParameterTypes) =? 0)%nat; [discriminate|].
  assert (Hperm : Permutation (once contextMap) (range picks (once contextMap)))
    by (symmetry; apply range_perm).
  assert (Hdistinct : NoDup (map fst (range picks (once contextMap)))).
  { eapply Permutation_NoDup; [apply Permutation_map; exact Hperm|apply once_distinct]. }
  rewrite (@cast_entries_typed (range picks (once contextMap)) [] converted
                               Hdistinct Hrun key).
  rewrite (@lookup_permutation any key (once contextMap) (range picks (once contextMap))
                               Hperm (once_distinct contextMap)), lookup_once.
  cbn [lookup]. destruct (lookup key contextMap) as [value|]; [|reflexivity].
  unfold typed. now destruct (lookup key conditionParameterTypes).
Qed.

Lemma decode_generics_errors (paramTypedef : paramTypeDefinition ParameterType)
      (P : ConditionTypeReference -> string -> Prop)
      (generics : list (option ConditionTypeReference)) :
  Forall (fun g => match g with
                   | Some ref =>
                       (forall e, decode paramTypeDefinitions ref = Ret (inr e) ->
                                  exists node, In node (references ref) /\ P node e)
                       /\ (forall x, decode paramTypeDefinitions ref = Abort x ->
                                     x = Panic nil_dereference)
                   | None => True
                   end) generics ->
  forall genericTypes,
    let ranged :=
      (fix range_generics (generics : list (option ConditionTypeReference))
           (genericTypes : list ParameterType) {struct generics}
         : call (ParameterType + string) :=
         match generics with
         | [] => Ret (toParameterType paramTypedef genericTypes)
         | None :: _ => Abort (Panic nil_dereference)
         | Some encodedGenericType :: rest =>
             match decode paramTypeDefinitions encodedGenericType with
             | Abort x => Abort x
             | Ret (inr err) => Ret (inr err)
             | Ret (inl genericType) =>
                 range_generics rest (genericTypes ++ [genericType])%list
             end
         end) generics genericTypes in
    (forall e, ranged = Ret (inr e) ->
               (exists types, toParameterType paramTypedef types = inr e)
               \/ exists g node, In (Some g) generics /\ In node (references g) /\ P node e)
    /\ (forall x, ranged = Abort x -> x = Panic nil_dereference).
Proof.
  induction 1 as [|[g|] generics Hg _ IH]; intros genericTypes; cbn zeta.
  - split; [|discriminate]. intros e [= He]. left. now exists genericTypes.
  - destruct Hg as [Herror Hpanic].
    destruct (decode paramTypeDefinitions g) as [[genericType|err]|x] eqn:Hdecode.
    + destruct (IH (genericTypes ++ [genericType])%list) as [IHerror IHpanic].
      split; [|exact IHpanic]. intros e He.
      destruct (IHerror e He) as [Htypes|(g' & node & Hin & Hnode & HP)]; [now left|].
      right. exists g', node. split; [now right|auto].
    + split; [|discriminate]. intros e [= <-].
      destruct (Herror err eq_refl) as (node & Hnode & HP).
      right. exists g, node. split; [now left|auto].
    + split; [discriminate|]. intros x' [= <-]. now apply Hpanic.
  - split; [discriminate|]. now intros x [= <-].
Qed.

Lemma decode_errors (ref : ConditionTypeReference) :
  (forall e, decode paramTypeDefinitions ref = Ret (inr e) ->
             exists node, In node (references ref) /\ reported paramTypeDefinitions node e)
  /\ (forall x, decode paramTypeDefinitions ref = Abort x -> x = Panic nil_dereference).
Proof.
  induction ref as [name generics IH] using ConditionTypeReference_induction.
  cbn [decode TypeName GenericTypes references].
  destruct (paramTypeDefinitions name) as [paramTypedef|] eqn:Hdef.
  - destruct (length generics =? genericTypeCount paramTypedef)%nat eqn:Hcount;
      cbn [negb].
    + destruct (@decode_generics_errors paramTypedef (reported paramTypeDefinitions) generics IH []) as [Herror Hpanic].
      split; [|exact Hpanic]. intros e He.
      destruct (Herror e He) as [[types Htypes]|(g & node & Hin & Hnode & HP)].
      * exists (TypeReference name generics). split; [now left|].
        right. right. exists paramTypedef, types. cbn [TypeName]. auto.
      * exists node. split; [|exact HP]. right. apply in_flat_map.
        exists (Some g). auto.
    + split; [|discriminate]. intros e [= <-].
      exists (TypeReference name generics). split; [now left|].
      right. left. exists paramTypedef. cbn [TypeName GenericTypes].
      apply Nat.eqb_neq in Hcount. auto.
  - split; [|discriminate]. intros e [= <-].
    exists (TypeReference name generics). split; [now left|].
    left. cbn [TypeName]. auto.
Qed.

(** X23.  [DecodeParameterType] invents no error and panics on nil only.
    An error it returns is the error of one reference of the tree: its type
    is unknown; or the number of its generic types is not the number its
    type takes, and then the message gives the number found after
    [requires] and the number required after [found]; or the type's own
    [toParameterType] returned it.  A panic is a nil dereference. *)
Theorem decode_reports_a_reference :
  forall (conditionParamType : option ConditionTypeReference),
    (forall e,
        DecodeParameterType paramTypeDefinitions conditionParamType = Ret (inr e) ->
        exists ref node,
          conditionParamType = Some ref /\ In node (references ref)
          /\ ((paramTypeDefinitions (TypeName node) = None
               /\ e = ("unknown condition parameter type `" ++ TypeName node ++ "`")%string)
              \/ (exists paramTypedef,
                     paramTypeDefinitions (TypeName node) = Some paramTypedef
                     /\ length (GenericTypes node) <> genericTypeCount paramTypedef
                     /\ e = ("condition parameter type `" ++ TypeName node
                             ++ "` requires " ++ decimal (length (GenericTypes node))
                             ++ " generic types; found "
                             ++ decimal (genericTypeCount paramTypedef))%string)
              \/ (exists paramTypedef types,
                     paramTypeDefinitions (TypeName node) = Some paramTypedef
                     /\ toParameterType paramTypedef types = inr e)))
    /\ (forall x,
           DecodeParameterType paramTypeDefinitions conditionParamType = Abort x ->
           x = Panic nil_dereference).
Proof.
  intros [ref|]; cbn [DecodeParameterType].
  - destruct (decode_errors ref) as [Herror Hpanic]. split; [|exact Hpanic].
    intros e He. destruct (Herror e He) as (node & Hnode & HP).
    exists ref, node. split; [reflexivity|]. split; [exact Hnode|exact HP].
  - split; [discriminate|]. now intros x [= <-].
Qed.

End Conditions.

Lemma cast_context_converts_witness :
  converts (CastContextToTypedParameters sample_types sample_convert [1]
                                         [("a", 1); ("b", 2)] [("a", int_reference)])
  = true.
Proof.
  exact (eq_trans (proj2 (@cast_context_converts string nat sample_types sample_convert
                                                 [("a", int_reference)] [1]
                                                 [("a", 1); ("b", 2)]))
                  eq_refl).
Defined.

Lemma cast_context_entries_witness :
  CastContextToTypedParameters sample_types sample_convert [1]
                               [("a", 1); ("b", 2)] [("a", int_reference)]
  = Ret (Some [("a", 2)], None)
  /\ lookup "b" [("a", 2)] = None.
Proof.
  split; [reflexivity|].
  exact (@cast_context_entries string nat sample_types sample_convert
                               [("a", int_reference)] [1] [("a", 1); ("b", 2)]
                               [("a", 2)] eq_refl "b").
Defined.

Lemma decode_reports_a_reference_witness :
  DecodeParameterType sample_types (Some (TypeReference "list" []))
  = Ret (inr "condition parameter type `list` requires 0 generic types; found 1")
  /\ exists ref node,
      Some (TypeReference "list" []) = Some ref /\ In node (references ref).
Proof.
  split; [reflexivity|].
  destruct (proj1 (@decode_reports_a_reference string sample_types
                                               (Some (TypeReference "list" [])))
                  "condition parameter type `list` requires 0 generic types; found 1"
                  eq_refl)
    as (ref & node & Href & Hnode & _).
  exists ref, node. split; [exact Href|exact Hnode].
Defined.


(** ** The contextual tuples of a ListUsers request *)

Import listusers expansions listed.

Section SameQuery.

Variable l : listUsersQuery.

Lemma expandDirect_loop_same (expand : Context -> ListUsersRequest -> expansion)
      (ctx : Context) (req req' : ListUsersRequest) (filter : tuple.TupleKey -> bool)
      (iter : TupleIterator) (p : pool) :
  same_query req req' ->
  (forall r r', same_query r r' -> expand ctx r' = expand ctx r) ->
  expandDirect_loop expand ctx req' filter iter p
  = expandDirect_loop expand ctx req filter iter p.
Proof.
  intros (Hstore & Hmodel & Hobject & Hrelation & Htype & Htarget) Hexpand. revert p.
  induction iter as [|[t|e] iter IH]; intros p; cbn [expandDirect_loop];
    [reflexivity| |reflexivity].
  destruct (filter (Key t)); [|apply IH].
  destruct (SplitObjectRelation (User (Key t))) as [userObject userRelation].
  destruct (SplitObject userObject) as [userObjectType userObjectID].
  rewrite Htype, Hstore, Hmodel, Htarget.
  destruct (String.eqb userRelation "").
  - destruct (String.eqb userObjectType (TargetUserObjectType req)); apply IH.
  - rewrite IH. f_equal. f_equal. apply Hexpand. now repeat split.
Qed.

Lemma expandTTU_loop_same (expand : Context -> ListUsersRequest -> expansion)
      (ctx : Context) (req req' : ListUsersRequest) (computedRelation : string)
      (filter : tuple.TupleKey -> bool) (iter : TupleIterator) (p : pool) :
  same_query req req' ->
  (forall r r', same_query r r' -> expand ctx r' = expand ctx r) ->
  expandTTU_loop expand ctx req' computedRelation filter iter p
  = expandTTU_loop expand ctx req computedRelation filter iter p.
Proof.
  intros (Hstore & Hmodel & Hobject & Hrelation & Htype & Htarget) Hexpand. revert p.
  induction iter as [|[t|e] iter IH]; intros p; cbn [expandTTU_loop];
    [reflexivity| |reflexivity].
  destruct (filter (Key t)); [|apply IH].
  destruct (SplitObject (User (Key t))) as [userObjectType userObjectID].
  rewrite Htype, Hstore, Hmodel, Htarget, IH.
  f_equal. f_equal. apply Hexpand. now repeat split.
Qed.

Lemma expand_same (fuel : nat) (ctx : Context) (req req' : ListUsersRequest) :
  same_query req req' -> expand l fuel ctx req' = expand l fuel ctx req.
Proof.
  revert req req'. induction fuel as [|fuel IH]; intros req req' Hsame; [reflexivity|].
  pose proof Hsame as (Hstore & Hmodel & Hobject & Hrelation & Htype & Htarget).
  cbn [expand]. rewrite Hstore, Hmodel, Hobject, Hrelation, Htype, Htarget.
  f_equal.
  destruct (typesystemResolver l ctx (StoreId req) (AuthorizationModelId req))
    as [typesys|e]; [|reflexivity].
  destruct (GetRelation typesys (Type_ (Object req)) (Relation req)) as [relation|e];
    [|reflexivity].
  destruct (Rewrite relation) as [ | computed | tupleset computed | child | child
                                  | base subtract ]; try reflexivity.
  - unfold expandDirect. rewrite Hstore, Hmodel, Hobject, Hrelation.
    destruct (typesystemResolver l ctx (StoreId req) (AuthorizationModelId req))
      as [typesys'|e]; [|reflexivity].
    destruct (Read (ds l) (StoreId req) _) as [iter|e]; [|reflexivity].
    f_equal. f_equal.
    apply expandDirect_loop_same; [exact Hsame|].
    intros r r' Hr. now apply IH.
  - apply IH. now repeat split.
  - unfold expandTTU. rewrite Hstore, Hmodel, Hobject.
    destruct (typesystemResolver l ctx (StoreId req) (AuthorizationModelId req))
      as [typesys'|e]; [|reflexivity].
    destruct (Read (ds l) (StoreId req) _) as [iter|e]; [|reflexivity].
    f_equal. f_equal.
    apply expandTTU_loop_same; [exact Hsame|].
    intros r r' Hr. now apply IH.
Qed.

(** X24.  ListUsers never consults the contextual tuples of a request.
    With any other contextual tuples the expansion finds the same objects,
    opens and closes the same iterators and returns the same outcome, and
    [ListUsers] gives the same response: the contextual tuples are handed
    on to the requests of the sub-expansions and read nowhere. *)
Theorem list_users_ignores_contextual_tuples :
  forall (fuel : nat) (ctx : Context) (req : ListUsersRequest)
         (tuples : list tuple.TupleKey),
    expand l fuel ctx (with_other_tuples req tuples) = expand l fuel ctx req
    /\ ListUsers l fuel ctx (with_other_tuples req tuples) = ListUsers l fuel ctx req.
Proof.
  intros fuel ctx req tuples.
  assert (Hexpand : expand l fuel ctx (with_other_tuples req tuples)
                    = expand l fuel ctx req).
  { apply expand_same. now repeat split. }
  split; [exact Hexpand|]. unfold ListUsers. now rewrite Hexpand.
Qed.

End SameQuery.
